(** * On-chain chronicler: the server's aggregation endpoints, the
      confirmation waiter and the analyze-transaction handler

    Shallow embedding of [server/dist/index.js] (and of the client-side
    [analyzeWithBackend] of [frontend/src/App.tsx]).

    - [JS]: the few JavaScript library behaviours the code relies on
      (truthiness of strings, [Number] of a bigint, insertion-ordered [Set]
      and [Map], stable [Array.prototype.sort], [String.prototype.trim],
      [ethers.isHexString]).
    - [Aggregator]: [GET /api/leaderboard] and [GET /api/chronicles]; the
      ledger is a record of oracles, one per RPC the handlers issue.
    - [Effects]: programs over a signature of awaited calls, with exceptions.
    - [Orchestrator]: [waitForPendingRequest], [analyzeTransactionWithAI] and
      [POST /api/analyze-transaction] as such programs, with a sequential and
      an interleaving interpreter.
    - [Client]: [analyzeWithBackend].
    - [StatusCheck]: [POST /api/check-chronicle-status].
    - [Page]: [handleAnalyze] and the state of the page, with a backend made
      of the server's own handlers. *)

From Stdlib Require Import ZArith List String Ascii Bool Lia Permutation.
From Stdlib Require Import DecimalString.
Import ListNotations.
Local Open Scope string_scope.
Local Open Scope Z_scope.
Local Open Scope list_scope.

(** An exception carries its [error.message]. *)
Definition Thrown := string.

(* ================================================================== *)
(** ** JavaScript library behaviour used by the server *)
(* ================================================================== *)
Module JS.

(** [!!s] for a string: every string but the empty one is truthy. *)
Definition truthy (s : string) : bool := negb (String.eqb s EmptyString).

(** [Number(n)] for a bigint [n >= 0] (a [uint256] read from the contract):
    the nearest double, ties to even, 53 bits of significand.  The result is
    an integer, kept in [Z]. *)
Definition MAX_SAFE : Z := 2 ^ 53.

Definition Number (n : Z) : Z :=
  if n <? MAX_SAFE then n
  else
    let sh := Z.log2 n - 52 in
    let q := Z.shiftr n sh in
    let r := n - Z.shiftl q sh in
    let half := 2 ^ (sh - 1) in
    if (half <? r) || ((r =? half) && Z.odd q)
    then Z.shiftl (q + 1) sh
    else Z.shiftl q sh.

(** [new Set()], [set.add(x)], [Array.from(set)]: insertion order, no
    duplicates (strings compared exactly). *)
Definition set_mem (x : string) (s : list string) : bool :=
  existsb (String.eqb x) s.

Definition set_add (x : string) (s : list string) : list string :=
  if set_mem x s then s else s ++ [x].

(** [new Map()], [map.set(k, v)], [Array.from(map.values())]: a key keeps the
    position of its first insertion, its value is the last one written. *)
Fixpoint map_set {V : Type} (k : string) (v : V) (m : list (string * V))
  : list (string * V) :=
  match m with
  | [] => [(k, v)]
  | (k', v') :: rest =>
      if String.eqb k k' then (k, v) :: rest else (k', v') :: map_set k v rest
  end.

Definition map_values {V : Type} (m : list (string * V)) : list V :=
  map snd m.

(** [arr.sort((a, b) => key(b) - key(a))]: descending by [key]; the sort is
    stable, so elements with equal keys keep their order. *)
Fixpoint insert_desc {A : Type} (key : A -> Z) (x : A) (l : list A) : list A :=
  match l with
  | [] => [x]
  | y :: rest =>
      if key y <=? key x then x :: y :: rest
      else y :: insert_desc key x rest
  end.

Fixpoint sort_desc {A : Type} (key : A -> Z) (l : list A) : list A :=
  match l with
  | [] => []
  | x :: rest => insert_desc key x (sort_desc key rest)
  end.

(** Descending by [key]: every element is at least as large as all that
    follow it. *)
Fixpoint descending {A : Type} (key : A -> Z) (l : list A) : Prop :=
  match l with
  | [] => True
  | x :: rest => Forall (fun y => key y <= key x) rest /\ descending key rest
  end.

(** [arr.slice(0, n)]. *)
Definition slice0 {A : Type} (n : nat) (l : list A) : list A := firstn n l.

(** Strings.  A JavaScript string is a sequence of UTF-16 code units; it is
    kept here as the bytes of its UTF-8 encoding, one [ascii] per byte (an
    unpaired surrogate takes the three bytes its code would take).  Two
    strings are [===] exactly when their encodings are equal, and only the
    empty string has no byte. *)

(** [s.length], the number of UTF-16 code units: a character of one, two or
    three bytes is one code unit, a character of four bytes is a surrogate
    pair, and the continuation bytes ([10xxxxxx]) add nothing. *)
Definition code_units (c : ascii) : nat :=
  let n := nat_of_ascii c in
  if Nat.ltb n 128 then 1
  else if Nat.ltb n 192 then 0
  else if Nat.ltb n 240 then 1
  else 2.

Fixpoint length (s : string) : nat :=
  match s with
  | EmptyString => 0
  | String c rest => code_units c + length rest
  end.

(** [s.trim()] removes the white space and the line terminators of
    ECMAScript from both ends: U+0009 to U+000D and U+0020 (one byte),
    U+00A0 (two bytes: 194 160), and U+1680, U+2000 to U+200A, U+2028,
    U+2029, U+202F, U+205F, U+3000 and U+FEFF (three bytes). *)
Definition is_space (c : ascii) : bool :=
  let n := nat_of_ascii c in
  (Nat.eqb n 32 || (Nat.leb 9 n && Nat.leb n 13))%bool.

Definition is_space2 (c1 c2 : ascii) : bool :=
  (Nat.eqb (nat_of_ascii c1) 194 && Nat.eqb (nat_of_ascii c2) 160)%bool.

Definition is_space3 (c1 c2 c3 : ascii) : bool :=
  let n1 := nat_of_ascii c1 in
  let n2 := nat_of_ascii c2 in
  let n3 := nat_of_ascii c3 in
  ((Nat.eqb n1 225 && Nat.eqb n2 154 && Nat.eqb n3 128)
   || (Nat.eqb n1 226 && Nat.eqb n2 128
       && ((Nat.leb 128 n3 && Nat.leb n3 138)
           || Nat.eqb n3 168 || Nat.eqb n3 169 || Nat.eqb n3 175))
   || (Nat.eqb n1 226 && Nat.eqb n2 129 && Nat.eqb n3 159)
   || (Nat.eqb n1 227 && Nat.eqb n2 128 && Nat.eqb n3 128)
   || (Nat.eqb n1 239 && Nat.eqb n2 187 && Nat.eqb n3 191))%bool.

(** Drop the white space at the start of [s].  With [backwards] the bytes of
    [s] are read in reverse order, last byte first. *)
Fixpoint strip (backwards : bool) (s : string) : string :=
  match s with
  | EmptyString => EmptyString
  | String c1 r1 =>
      if is_space c1 then strip backwards r1
      else
        match r1 with
        | EmptyString => s
        | String c2 r2 =>
            if (if backwards then is_space2 c2 c1 else is_space2 c1 c2)
            then strip backwards r2
            else
              match r2 with
              | EmptyString => s
              | String c3 r3 =>
                  if (if backwards then is_space3 c3 c2 c1
                      else is_space3 c1 c2 c3)
                  then strip backwards r3
                  else s
              end
        end
  end.

Fixpoint rev_string (acc s : string) : string :=
  match s with
  | EmptyString => acc
  | String c rest => rev_string (String c acc) rest
  end.

Definition trimStart (s : string) : string := strip false s.

Definition trimEnd (s : string) : string :=
  rev_string EmptyString (strip true (rev_string EmptyString s)).

Definition trim (s : string) : string := trimEnd (trimStart s).

(** [ethers.isHexString(value, length)]: [0x] followed by hexadecimal digits,
    [2 + 2 * length] characters in all.  Every character of such a string is
    one byte and one code unit, so its [length] is its number of bytes. *)
Definition is_hex_digit (c : ascii) : bool :=
  let n := nat_of_ascii c in
  ((Nat.leb 48 n && Nat.leb n 57) || (Nat.leb 65 n && Nat.leb n 70)
   || (Nat.leb 97 n && Nat.leb n 102))%bool.

Fixpoint all_hex (s : string) : bool :=
  match s with
  | EmptyString => true
  | String c rest => is_hex_digit c && all_hex rest
  end.

Definition isHexString (value : string) (len : nat) : bool :=
  match value with
  | String "0" (String "x" digits) =>
      all_hex digits && Nat.eqb (String.length value) (2 + 2 * len)
  | _ => false
  end.

End JS.

(* ================================================================== *)
(** ** Event Aggregator: [GET /api/leaderboard], [GET /api/chronicles] *)
(* ================================================================== *)
Module Aggregator.

(** *** Logs and the ledger client *)

(** [RequestSubmitted(user, txHash, feePaid)] as decoded by ethers. *)
Record RequestSubmittedArgs := {
  rs_user : string;
  rs_txHash : string;
  rs_feePaid : Z
}.

(** [ChronicleAdded(txHash, requester, narrative)]. *)
Record ChronicleAddedArgs := {
  ca_txHash : string;
  ca_requester : string;
  ca_narrative : string
}.

(** An event log: the block it sits in, its index there, and [event.args]
    ([None] when the log could not be decoded, the case of [event.args?.x]). *)
Record Log (Args : Type) := {
  blockNumber : Z;
  logIndex : Z;
  args : option Args
}.
Arguments blockNumber {Args} _.
Arguments logIndex {Args} _.
Arguments args {Args} _.

(** What the handlers ask of the chain.  [inl e] is a rejected promise. *)
Record LedgerClient := {
  getBlockNumber : Thrown + Z;
  queryRequestSubmitted : Z -> Z -> Thrown + list (Log RequestSubmittedArgs);
  queryChronicleAdded : Z -> Z -> Thrown + list (Log ChronicleAddedArgs);
  userPoints : string -> Thrown + Z;
  getBlockTimestamp : Log ChronicleAddedArgs -> Thrown + Z
}.

(** The body of a JSON response of the two endpoints. *)
Inductive Response (Body : Type) :=
| Ok200 (body : Body)
| Err500 (message : string) (error : Thrown).
Arguments Ok200 {Body} _.
Arguments Err500 {Body} _ _.

Definition statusCode {Body : Type} (r : Response Body) : Z :=
  match r with Ok200 _ => 200 | Err500 _ _ => 500 end.

(** *** The chunked scan *)

Definition CHUNK_SIZE : Z := 1000.

(** [for (let fromBlock = startBlock; fromBlock <= currentBlock;
         fromBlock += CHUNK_SIZE) {
       const toBlock = Math.min(fromBlock + CHUNK_SIZE - 1, currentBlock);
       body(fromBlock, toBlock) }]
    threading the accumulator the body mutates. *)
Fixpoint scan_loop {S : Type} (body : Z -> Z -> S -> S) (fuel : nat)
  (fromBlock currentBlock : Z) (acc : S) : S :=
  match fuel with
  | O => acc
  | Datatypes.S fuel' =>
      if fromBlock <=? currentBlock then
        let toBlock := Z.min (fromBlock + CHUNK_SIZE - 1) currentBlock in
        scan_loop body fuel' (fromBlock + CHUNK_SIZE) currentBlock
          (body fromBlock toBlock acc)
      else acc
  end.

(** One unit of fuel per block of the range is more than the loop uses. *)
Definition scan_fuel (startBlock currentBlock : Z) : nat :=
  Z.to_nat (currentBlock - startBlock + 1).

Definition scan {S : Type} (body : Z -> Z -> S -> S)
  (startBlock currentBlock : Z) (acc : S) : S :=
  scan_loop body (scan_fuel startBlock currentBlock) startBlock currentBlock acc.

(** The ranges the loop queries, in order. *)
Definition chunks (startBlock currentBlock : Z) : list (Z * Z) :=
  scan (fun f t acc => acc ++ [(f, t)]) startBlock currentBlock [].

(** *** GET /api/leaderboard *)

Definition LEADERBOARD_LOOKBACK : Z := 10000.

Record LeaderboardEntry := {
  address : string;
  points : Z
}.

(** [event.args?.user], when it is truthy. *)
Definition event_user (event : Log RequestSubmittedArgs) : option string :=
  match args event with
  | Some a => if JS.truthy (rs_user a) then Some (rs_user a) else None
  | None => None
  end.

(** [if (event.args?.user) userAddressesSet.add(event.args.user)]. *)
Definition add_user (set : list string) (event : Log RequestSubmittedArgs)
  : list string :=
  match event_user event with
  | Some user => JS.set_add user set
  | None => set
  end.

(** The body of one chunk: the query is inside a [try]; its [catch] logs and
    goes on. *)
Definition leaderboard_chunk (L : LedgerClient) (fromBlock toBlock : Z)
  (set : list string) : list string :=
  match queryRequestSubmitted L fromBlock toBlock with
  | inr events => fold_left add_user events set
  | inl _ => set
  end.

(** [try { points = await contract.userPoints(address);
           return { address, points: Number(points) } }
     catch { return { address, points: 0 } }]. *)
Definition fetch_points (L : LedgerClient) (a : string) : LeaderboardEntry :=
  match userPoints L a with
  | inr p => {| address := a; points := JS.Number p |}
  | inl _ => {| address := a; points := 0 |}
  end.

Definition leaderboard_addresses (L : LedgerClient) (currentBlock : Z)
  : list string :=
  let startBlock := Z.max 0 (currentBlock - LEADERBOARD_LOOKBACK) in
  scan (leaderboard_chunk L) startBlock currentBlock [].

Definition leaderboard_top (L : LedgerClient) (currentBlock : Z)
  : list LeaderboardEntry :=
  let userAddresses := leaderboard_addresses L currentBlock in
  let leaderboardData := map (fetch_points L) userAddresses in
  JS.slice0 10
    (JS.sort_desc points (filter (fun user => 0 <? points user) leaderboardData)).

Definition leaderboard (L : LedgerClient) : Response (list LeaderboardEntry) :=
  match getBlockNumber L with
  | inl e => Err500 "Failed to fetch leaderboard" e
  | inr currentBlock => Ok200 (leaderboard_top L currentBlock)
  end.

(** *** GET /api/chronicles *)

Definition CHRONICLES_LOOKBACK : Z := 50000.

Record Chronicle := {
  txHash : string;
  narrative : string;
  requester : string;
  timestamp : Z
}.

Definition ChroniclesMap := list (string * Chronicle).

(** [txHash && narrative && requester]. *)
Definition retained (event : Log ChronicleAddedArgs) : bool :=
  match args event with
  | Some a =>
      JS.truthy (ca_txHash a) && JS.truthy (ca_narrative a)
      && JS.truthy (ca_requester a)
  | None => false
  end.

Definition chronicle_of (a : ChronicleAddedArgs) (ts : Z) : Chronicle :=
  {| txHash := ca_txHash a; narrative := ca_narrative a;
     requester := ca_requester a; timestamp := ts |}.

(** [for (const event of events) { if (retained) { const block = await
    event.getBlock(); chroniclesMap.set(txHash, {...}) } }].  The loop has no
    handler of its own: a rejected [getBlock] leaves it at once.  The result
    is the map as the loop leaves it (the entries set before the rejection
    stay in the shared map) and the exception, if any. *)
Fixpoint process_events (L : LedgerClient) (events : list (Log ChronicleAddedArgs))
  (m : ChroniclesMap) : ChroniclesMap * option Thrown :=
  match events with
  | [] => (m, None)
  | event :: rest =>
      match args event with
      | Some a =>
          if retained event then
            match getBlockTimestamp L event with
            | inr ts =>
                process_events L rest
                  (JS.map_set (ca_txHash a) (chronicle_of a ts) m)
            | inl e => (m, Some e)
            end
          else process_events L rest m
      | None => process_events L rest m
      end
  end.

(** The body of one chunk: query, then the loop over its events, both inside
    the same [try]; the [catch] logs and goes on to the next chunk. *)
Definition chronicles_chunk (L : LedgerClient) (fromBlock toBlock : Z)
  (m : ChroniclesMap) : ChroniclesMap :=
  match queryChronicleAdded L fromBlock toBlock with
  | inr events => fst (process_events L events m)
  | inl _ => m
  end.

Definition chronicles_map (L : LedgerClient) (currentBlock : Z) : ChroniclesMap :=
  let startBlock := Z.max 0 (currentBlock - CHRONICLES_LOOKBACK) in
  scan (chronicles_chunk L) startBlock currentBlock [].

Definition chronicles_list (L : LedgerClient) (currentBlock : Z) : list Chronicle :=
  JS.sort_desc timestamp (JS.map_values (chronicles_map L currentBlock)).

Record ChroniclesBody := {
  total : nat;
  chronicles : list Chronicle
}.

Definition chronicles_endpoint (L : LedgerClient) : Response ChroniclesBody :=
  match getBlockNumber L with
  | inl e => Err500 "Failed to fetch chronicles" e
  | inr currentBlock =>
      let cs := chronicles_list L currentBlock in
      Ok200 {| total := List.length cs; chronicles := cs |}
  end.

(** *** A deterministic, error-free ledger

    The chain's log query returns the logs whose block lies in the inclusive
    range asked for. *)
Definition in_range (fromBlock toBlock b : Z) : bool :=
  (fromBlock <=? b) && (b <=? toBlock).

Definition query_logs {Args : Type} (logs : list (Log Args))
  (fromBlock toBlock : Z) : list (Log Args) :=
  filter (fun l => in_range fromBlock toBlock (blockNumber l)) logs.

Definition deterministic_ledger (height : Z)
  (requests : list (Log RequestSubmittedArgs))
  (added : list (Log ChronicleAddedArgs))
  (counter : string -> Z) (stamp : Z -> Z) : LedgerClient :=
  {| getBlockNumber := inr height;
     queryRequestSubmitted := fun f t => inr (query_logs requests f t);
     queryChronicleAdded := fun f t => inr (query_logs added f t);
     userPoints := fun a => inr (counter a);
     getBlockTimestamp := fun l => inr (stamp (blockNumber l)) |}.

(** A ledger on which a failed chunk query answers with no log instead. *)
Definition absorb_failures (L : LedgerClient) : LedgerClient :=
  {| getBlockNumber := getBlockNumber L;
     queryRequestSubmitted := fun f t =>
       match queryRequestSubmitted L f t with
       | inr events => inr events
       | inl _ => inr []
       end;
     queryChronicleAdded := fun f t =>
       match queryChronicleAdded L f t with
       | inr events => inr events
       | inl _ => inr []
       end;
     userPoints := userPoints L;
     getBlockTimestamp := getBlockTimestamp L |}.

(** Chunks that follow one another from [fromBlock] to [toBlock]: each starts
    where the one before ended plus one, is [W] blocks wide and the last is
    clipped to [toBlock]. *)
Fixpoint consecutive_chunks (W fromBlock toBlock : Z) (l : list (Z * Z)) : Prop :=
  match l with
  | [] => toBlock < fromBlock
  | (f, t) :: rest =>
      f = fromBlock /\ fromBlock <= toBlock
      /\ t = Z.min (fromBlock + W - 1) toBlock
      /\ consecutive_chunks W (t + 1) toBlock rest
  end.

(** How many of the ranges contain block [b]. *)
Definition times_queried (b : Z) (l : list (Z * Z)) : nat :=
  List.length (filter (fun c => in_range (fst c) (snd c) b) l).

(** Address [y] is the user of a log of a chunk whose query succeeded. *)
Definition collected_in (L : LedgerClient) (y : string) (ch : Z * Z) : Prop :=
  exists events ev,
    queryRequestSubmitted L (fst ch) (snd ch) = inr events
    /\ In ev events /\ event_user ev = Some y.

(** Every entry of the map sits under its own transaction hash. *)
Definition keyed (m : ChroniclesMap) : Prop :=
  Forall (fun kv => txHash (snd kv) = fst kv) m.

(** Every retained event of [pre] gets its timestamp. *)
Definition enriched (L : LedgerClient) (pre : list (Log ChronicleAddedArgs))
  : Prop :=
  forall x, In x pre -> retained x = true ->
            exists ts, getBlockTimestamp L x = inr ts.

End Aggregator.

(* ================================================================== *)
(** ** Programs over awaited calls *)
(* ================================================================== *)
Module Effects.

(** A program is a tree of calls to the outside ([Vis]), each resumed with the
    call's answer; it ends by returning or by throwing.  An [await] is a
    [Vis]: between two of them the code runs without interruption. *)
Inductive Prog (E : Type -> Type) (R : Type) : Type :=
| Ret (r : R)
| Throw (e : Thrown)
| Vis (X : Type) (call : E X) (k : X -> Prog E R).
Arguments Ret {E R} _.
Arguments Throw {E R} _.
Arguments Vis {E R X} _ _.

Fixpoint bind {E : Type -> Type} {A B : Type} (p : Prog E A) (f : A -> Prog E B)
  : Prog E B :=
  match p with
  | Ret a => f a
  | Throw e => Throw e
  | Vis c k => Vis c (fun x => bind (k x) f)
  end.

(** [try { p } catch (error) { h(error) }]. *)
Fixpoint try_catch {E : Type -> Type} {R : Type} (p : Prog E R)
  (h : Thrown -> Prog E R) : Prog E R :=
  match p with
  | Ret r => Ret r
  | Throw e => h e
  | Vis c k => Vis c (fun x => try_catch (k x) h)
  end.

(** [try { p } finally { f }]. *)
Fixpoint try_finally {E : Type -> Type} {R : Type} (p : Prog E R)
  (f : Prog E unit) : Prog E R :=
  match p with
  | Ret r => bind f (fun _ => Ret r)
  | Throw e => bind f (fun _ => Throw e)
  | Vis c k => Vis c (fun x => try_finally (k x) f)
  end.

(** A call that cannot fail. *)
Definition perform {E : Type -> Type} {X : Type} (c : E X) : Prog E X :=
  Vis c Ret.

(** [await c]: a rejected promise is thrown at the point of the [await]. *)
Definition await {E : Type -> Type} {X : Type} (c : E (Thrown + X)%type) : Prog E X :=
  Vis c (fun r => match r with inl e => Throw e | inr x => Ret x end).

Module Notations.
Notation "x <- p ;; q" := (bind p (fun x => q))
  (at level 61, p at next level, right associativity).
Notation "p ;; q" := (bind p (fun _ => q))
  (at level 61, right associativity).
End Notations.

End Effects.

(* ================================================================== *)
(** ** Confirmation Waiter and Analysis Orchestrator *)
(* ================================================================== *)
Module Orchestrator.
Import Effects Effects.Notations.

(** [provider.getTransaction(txHash)]: the fields the prompt is built from. *)
Record Transaction := {
  tx_hash : string;
  tx_from : option string;
  tx_to : option string;
  tx_value : Z;
  tx_blockNumber : Z;
  tx_gasLimit : option Z
}.

(** The parsed body of the completion endpoint, as far as the code looks into
    it: [data.choices[0].message.content].  [None] is a missing (or otherwise
    falsy) field. *)
Record CompletionMessage := { content : option string }.
Record CompletionChoice := { message : option CompletionMessage }.
Record CompletionData := { choices : option (list (option CompletionChoice)) }.

(** The answer of [fetch]: [response.ok], [response.statusText] and what
    [response.json()] resolves to. *)
Record FetchResponse := {
  ok : bool;
  statusText : string;
  json : Thrown + CompletionData
}.

(** What [contract.addChronicle] resolves to; [wait()] is called on it. *)
Record TransactionResponse := { tr_hash : string }.

(** Lines written to the console.  [LogConfirmed attempt delayMs] is
    [`Pending request confirmed after ${attempt * delayMs / 1000}s`]. *)
Inductive LogLine :=
| LogConfirmed (attempt : nat) (delayMs : Z)
| LogWaiting (attempt maxAttempts : nat)
| LogInfo (text : string)
| LogError (context : string) (detail : string).

(** The milliseconds the confirmation line reports (it prints them divided by
    1000, in seconds). *)
Definition reported_ms (l : LogLine) : option Z :=
  match l with
  | LogConfirmed attempt delayMs => Some (Z.of_nat attempt * delayMs)
  | _ => None
  end.

(** The calls of the server that go outside the process. *)
Inductive ServerCall : Type -> Type :=
| PendingRequests (txHash : string) : ServerCall (Thrown + string)%type
| SetTimeout (ms : Z) : ServerCall unit
| GetTransaction (txHash : string) : ServerCall (Thrown + option Transaction)%type
| ChatCompletion (tx : Transaction) : ServerCall (Thrown + FetchResponse)%type
| AddChronicle (txHash narrative : string)
    : ServerCall (Thrown + TransactionResponse)%type
| WaitReceipt (r : TransactionResponse) : ServerCall (Thrown + unit)%type
| Console (l : LogLine) : ServerCall unit.

Definition Server := Prog ServerCall.

Definition ZeroAddress : string :=
  "0x0000000000000000000000000000000000000000".

(** [pendingRequester && pendingRequester !== ethers.ZeroAddress]. *)
Definition is_pending (pendingRequester : string) : bool :=
  JS.truthy pendingRequester && negb (String.eqb pendingRequester ZeroAddress).

(** *** waitForPendingRequest *)

(** One turn of the loop body.  [Some b] is [return b]; [None] goes on to the
    next attempt. *)
Definition wait_attempt (txHash : string) (attempt maxAttempts : nat)
  (delayMs : Z) : Server (option bool) :=
  try_catch
    (pendingRequester <- await (PendingRequests txHash) ;;
     if is_pending pendingRequester then
       perform (Console (LogConfirmed attempt delayMs)) ;;
       Ret (Some true)
     else
       (if Nat.eqb (Nat.modulo attempt 10) 0
        then perform (Console (LogWaiting attempt maxAttempts))
        else Ret tt) ;;
       perform (SetTimeout delayMs) ;;
       Ret None)
    (fun error =>
       perform (Console (LogError "Checking pending request" error)) ;;
       Ret None).

(** [for (let attempt = 1; attempt <= maxAttempts; attempt++) {...}
     return false], with [remaining = maxAttempts - attempt + 1] turns left. *)
Fixpoint wait_loop (remaining : nat) (txHash : string)
  (attempt maxAttempts : nat) (delayMs : Z) : Server bool :=
  match remaining with
  | O => Ret false
  | S remaining' =>
      r <- wait_attempt txHash attempt maxAttempts delayMs ;;
      match r with
      | Some b => Ret b
      | None => wait_loop remaining' txHash (S attempt) maxAttempts delayMs
      end
  end.

Definition waitForPendingRequest (txHash : string) (maxAttempts : nat)
  (delayMs : Z) : Server bool :=
  wait_loop maxAttempts txHash 1 maxAttempts delayMs.

(** *** analyzeTransactionWithAI

    The prompt is a template filled with the transaction's fields; no
    property below depends on its text, so the call carries the transaction.
    [await response.text()] of the failure branch and [await response.json()]
    are folded into the answer of the call. *)
Definition analyzeTransactionWithAI (txData : Transaction) : Server string :=
  response <- await (ChatCompletion txData) ;;
  if negb (ok response) then
    perform (Console (LogError "Gaia API failed" (statusText response))) ;;
    Throw (String.append "Gaia API error: " (statusText response))
  else
    match json response with
    | inl e => Throw e
    | inr data =>
        match choices data with
        | Some (Some choice :: _) =>
            match message choice with
            | Some m =>
                match content m with
                | Some text => Ret (JS.trim text)
                | None =>
                    Throw "Cannot read properties of undefined (reading 'trim')"
                end
            | None =>
                perform (Console (LogError "Invalid AI response format" EmptyString)) ;;
                Throw "Invalid response from Gaia API"
            end
        | _ =>
            perform (Console (LogError "Invalid AI response format" EmptyString)) ;;
            Throw "Invalid response from Gaia API"
        end
    end.

(** *** POST /api/analyze-transaction *)

(** The JSON the handler answers with; a field the handler does not set is
    [None]. *)
Record AnalyzeResponse := {
  status : Z;
  resp_message : string;
  resp_error : option string;
  resp_narrative : option string;
  resp_chronicleTxHash : option string
}.

Definition MAX_ATTEMPTS : nat := 60.
Definition DELAY_MS : Z := 2000.

Definition analyze_transaction (txHash : string) : Server AnalyzeResponse :=
  if negb (JS.truthy txHash) || negb (JS.isHexString txHash 32) then
    Ret {| status := 400; resp_message := "Invalid transaction hash.";
           resp_error := None; resp_narrative := None;
           resp_chronicleTxHash := None |}
  else
    try_catch
      (hasPendingRequest <- waitForPendingRequest txHash MAX_ATTEMPTS DELAY_MS ;;
       if negb hasPendingRequest then
         perform (Console (LogError "No pending request found for" txHash)) ;;
         Ret {| status := 400;
                resp_message :=
                  "No pending request found. Please submit a chronicle request from the UI first.";
                resp_error := Some "PENDING_REQUEST_NOT_FOUND";
                resp_narrative := None; resp_chronicleTxHash := None |}
       else
         tx <- await (GetTransaction txHash) ;;
         match tx with
         | None =>
             Ret {| status := 404;
                    resp_message := "Transaction not found on Somnia network.";
                    resp_error := None; resp_narrative := None;
                    resp_chronicleTxHash := None |}
         | Some tx =>
             perform (Console (LogInfo "Analyzing with AI...")) ;;
             narrative <- analyzeTransactionWithAI tx ;;
             perform (Console (LogInfo "Storing chronicle on-chain...")) ;;
             txResponse <- await (AddChronicle txHash narrative) ;;
             await (WaitReceipt txResponse) ;;
             perform (Console (LogInfo "Chronicle stored successfully!")) ;;
             Ret {| status := 200; resp_message := "Analysis complete!";
                    resp_error := None; resp_narrative := Some narrative;
                    resp_chronicleTxHash := Some (tr_hash txResponse) |}
         end)
      (fun error =>
         perform (Console (LogError "Analysis failed" error)) ;;
         Ret {| status := 500;
                resp_message := "An internal server error occurred.";
                resp_error := Some error; resp_narrative := None;
                resp_chronicleTxHash := None |}).

(** *** Running programs against the outside world *)

(** A call as it shows in the trace of a run. *)
Inductive Call :=
| CPendingRequests (txHash : string)
| CSetTimeout (ms : Z)
| CGetTransaction (txHash : string)
| CChatCompletion (tx : Transaction)
| CAddChronicle (txHash narrative : string)
| CWaitReceipt (r : TransactionResponse)
| CConsole (l : LogLine).

Definition is_read (c : Call) : bool :=
  match c with CPendingRequests _ => true | _ => false end.
Definition is_delay (c : Call) : bool :=
  match c with CSetTimeout _ => true | _ => false end.
Definition is_lookup (c : Call) : bool :=
  match c with CGetTransaction _ => true | _ => false end.
Definition is_ai_call (c : Call) : bool :=
  match c with CChatCompletion _ => true | _ => false end.
Definition is_commit (c : Call) : bool :=
  match c with CAddChronicle _ _ => true | _ => false end.
Definition is_receipt (c : Call) : bool :=
  match c with CWaitReceipt _ => true | _ => false end.

Definition count (p : Call -> bool) (trace : list Call) : nat :=
  List.length (filter p trace).

(** The time spent in [setTimeout] delays. *)
Definition delay_of (c : Call) : Z :=
  match c with CSetTimeout ms => ms | _ => 0 end.

Definition elapsed (trace : list Call) : Z :=
  fold_right (fun c t => delay_of c + t) 0 trace.

(** The lines a trace wrote that report a confirmation time. *)
Definition reported (trace : list Call) : list Z :=
  flat_map (fun c => match c with
                     | CConsole l =>
                         match reported_ms l with Some ms => [ms] | None => [] end
                     | _ => []
                     end) trace.

(** The outside world: the answer to the n-th call of each kind (counted from
    zero, over the whole process, whoever makes the call). *)
Record World := {
  pendingReads : nat -> Thrown + string;
  lookups : nat -> Thrown + option Transaction;
  completions : nat -> Thrown + FetchResponse;
  submissions : nat -> Thrown + TransactionResponse;
  receipts : nat -> Thrown + unit
}.

(** Answer one call and record it. *)
Definition answer (W : World) {X : Type} (c : ServerCall X) (trace : list Call)
  : X * list Call :=
  match c in ServerCall X return X * list Call with
  | PendingRequests h =>
      (pendingReads W (count is_read trace), trace ++ [CPendingRequests h])
  | SetTimeout ms => (tt, trace ++ [CSetTimeout ms])
  | GetTransaction h =>
      (lookups W (count is_lookup trace), trace ++ [CGetTransaction h])
  | ChatCompletion tx =>
      (completions W (count is_ai_call trace), trace ++ [CChatCompletion tx])
  | AddChronicle h n =>
      (submissions W (count is_commit trace), trace ++ [CAddChronicle h n])
  | WaitReceipt r =>
      (receipts W (count is_receipt trace), trace ++ [CWaitReceipt r])
  | Console l => (tt, trace ++ [CConsole l])
  end.

(** One invocation, run to its end. *)
Fixpoint run (W : World) {R : Type} (p : Server R) (trace : list Call)
  : (Thrown + R) * list Call :=
  match p with
  | Ret r => (inr r, trace)
  | Throw e => (inl e, trace)
  | Vis c k => let (x, trace') := answer W c trace in run W (k x) trace'
  end.

(** Two invocations in flight at once.  The schedule says whose turn it is at
    each step ([true]: the first); a turn runs the invocation up to its next
    call and performs that call.  When the schedule is used up the first is
    run to its end, then the second. *)
Fixpoint interleave (W : World) {R : Type} (schedule : list bool)
  (p q : Server R) (trace : list Call)
  : (Thrown + R) * (Thrown + R) * list Call :=
  match schedule with
  | [] =>
      let (rp, trace1) := run W p trace in
      let (rq, trace2) := run W q trace1 in
      (rp, rq, trace2)
  | true :: schedule' =>
      match p with
      | Vis c k =>
          let (x, trace') := answer W c trace in
          interleave W schedule' (k x) q trace'
      | _ => interleave W schedule' p q trace
      end
  | false :: schedule' =>
      match q with
      | Vis c k =>
          let (x, trace') := answer W c trace in
          interleave W schedule' p (k x) trace'
      | _ => interleave W schedule' p q trace
      end
  end.

(** What one read of [pendingRequests] shows. *)
Definition observes_pending (r : Thrown + string) : bool :=
  match r with inr v => is_pending v | inl _ => false end.

Definition read_failed (r : Thrown + string) : bool :=
  match r with inl _ => true | inr _ => false end.

(** The read was answered, with the zero address (or nothing). *)
Definition answered_zero (r : Thrown + string) : bool :=
  match r with inr v => negb (is_pending v) | inl _ => false end.

(** How many of the reads [i0 .. i0 + n - 1] were answered with the zero
    address. *)
Definition zero_reads (W : World) (i0 n : nat) : nat :=
  List.length (filter (fun j => answered_zero (pendingReads W j)) (seq i0 n)).

(** [data.choices[0].message], when all of it is there. *)
Definition first_message (data : CompletionData) : option CompletionMessage :=
  match choices data with
  | Some (Some choice :: _) => message choice
  | _ => None
  end.

(** The narrative cannot be had from this answer of the completion endpoint:
    the call was rejected, the status is not a success, the body is not
    JSON, there is no [choices[0].message], or the message has no content. *)
Definition generation_fails (c : Thrown + FetchResponse) : bool :=
  match c with
  | inl _ => true
  | inr response =>
      negb (ok response)
      || match json response with
         | inl _ => true
         | inr data =>
             match first_message data with
             | Some m => match content m with Some _ => false | None => true end
             | None => true
             end
         end
  end.

(** The commit of this answer pair fails with [e]: [addChronicle] is rejected,
    or it is accepted and the wait for its receipt is rejected. *)
Definition commit_fails (submission : Thrown + TransactionResponse)
  (receipt : Thrown + unit) (e : Thrown) : Prop :=
  submission = inl e
  \/ (exists txResponse, submission = inr txResponse /\ receipt = inl e).

Definition is_console (c : Call) : bool :=
  match c with CConsole _ => true | _ => false end.

(** The response of the [catch] of the handler. *)
Definition internal_error (error : Thrown) : AnalyzeResponse :=
  {| status := 500; resp_message := "An internal server error occurred.";
     resp_error := Some error; resp_narrative := None;
     resp_chronicleTxHash := None |}.

(** The read of attempt [k] (attempts are numbered from 1) of a waiter that
    starts when no read has been made yet. *)
Definition attempt_read (W : World) (k : nat) : Thrown + string :=
  pendingReads W (k - 1).

(** What a run of the waiting loop did, from attempt [attempt] on, with [n]
    attempts left and [i0] reads made before it: [b] is its result and
    [calls] the calls it made. *)
Record Waited (W : World) (delayMs : Z) (attempt n i0 : nat) (b : bool)
  (calls : list Call) : Prop := {
  waited_reads : (count is_read calls <= n)%nat;
  waited_before : forall j,
    (j + (if b then 1 else 0) < count is_read calls)%nat ->
    observes_pending (pendingReads W (i0 + j)) = false;
  waited_hit : b = true ->
    exists m, count is_read calls = S m
              /\ observes_pending (pendingReads W (i0 + m)) = true;
  waited_miss : b = false -> count is_read calls = n;
  waited_delays : count is_delay calls = zero_reads W i0 (count is_read calls);
  waited_elapsed : elapsed calls = delayMs * Z.of_nat (count is_delay calls);
  waited_reported :
    reported calls
    = if b then [Z.of_nat (attempt + count is_read calls - 1) * delayMs] else [];
  waited_others :
    count is_lookup calls = 0%nat /\ count is_ai_call calls = 0%nat
    /\ count is_commit calls = 0%nat /\ count is_receipt calls = 0%nat
}.

(** What one invocation of the handler did, started after the calls [tr0]:
    [resp] is its response and [calls] the calls it made. *)
Record Handled (W : World) (tr0 : list Call) (resp : AnalyzeResponse)
  (calls : list Call) : Prop := {
  handled_ai : (count is_ai_call calls <= 1)%nat;
  handled_commit : (count is_commit calls <= 1)%nat;
  handled_order : (count is_commit calls <= count is_ai_call calls)%nat;
  handled_generation :
    count is_ai_call calls = 1%nat ->
    generation_fails (completions W (count is_ai_call tr0)) = true ->
    count is_commit calls = 0%nat /\ exists e, resp = internal_error e;
  handled_commit_failure :
    count is_commit calls = 1%nat ->
    forall e,
      commit_fails (submissions W (count is_commit tr0))
        (receipts W (count is_receipt tr0)) e ->
      resp = internal_error e
}.

End Orchestrator.

(* ================================================================== *)
(** ** The client: [analyzeWithBackend] *)
(* ================================================================== *)
Module Client.
Import Effects Effects.Notations.

(** What the client does to its own state and to the server. *)
Inductive ClientCall : Type -> Type :=
| SetHasAnalyzed (b : bool) : ClientCall unit
| SetStatus (s : string) : ClientCall unit
| SetNarrative (s : option string) : ClientCall unit
| SetIsLoading (b : bool) : ClientCall unit
| PostAnalyzeTransaction (txHash : string)
    : ClientCall (Thrown + Orchestrator.AnalyzeResponse)%type
| RefreshLater (ms : Z) : ClientCall unit
| ConsoleError (detail : string) : ClientCall unit.

(** [response.ok]. *)
Definition response_ok (r : Orchestrator.AnalyzeResponse) : bool :=
  (200 <=? Orchestrator.status r) && (Orchestrator.status r <=? 299).

(** [analyzeWithBackend] closes over the [hasAnalyzed] and [txHash] of the
    render that created it.  The answer of [PostAnalyzeTransaction] is that of
    [fetch] followed by [response.json()]. *)
Definition analyzeWithBackend (hasAnalyzed : bool) (txHash : string)
  : Prog ClientCall unit :=
  if hasAnalyzed then Ret tt
  else
    perform (SetHasAnalyzed true) ;;
    perform (SetStatus
      "Waiting for your request to be confirmed on-chain, then analyzing with AI...") ;;
    try_finally
      (try_catch
         (data <- await (PostAnalyzeTransaction txHash) ;;
          if negb (response_ok data) then
            match Orchestrator.resp_error data with
            | Some "PENDING_REQUEST_NOT_FOUND"%string =>
                Throw "Your chronicle request transaction was not confirmed. Please try again."
            | _ =>
                Throw (if JS.truthy (Orchestrator.resp_message data)
                       then Orchestrator.resp_message data
                       else "Failed to analyze transaction"%string)
            end
          else
            perform (SetNarrative (Orchestrator.resp_narrative data)) ;;
            perform (SetStatus "Analysis complete!") ;;
            perform (RefreshLater 2000))
         (fun error =>
            perform (ConsoleError error) ;;
            perform (SetNarrative
              (Some (if JS.truthy error then error
                     else "An error occurred during analysis."%string))) ;;
            perform (SetStatus "Error during analysis")))
      (perform (SetIsLoading false)).

End Client.

(* ================================================================== *)
(** ** Concrete ledgers and worlds *)
(* ================================================================== *)
Module Examples.
Import Aggregator.

Definition request (block index : Z) (user : string) : Log RequestSubmittedArgs :=
  {| blockNumber := block; logIndex := index;
     args := Some {| rs_user := user; rs_txHash := "0x01";
                     rs_feePaid := 1000000000000000 |} |}.

Definition added (block index : Z) (hash : string) : Log ChronicleAddedArgs :=
  {| blockNumber := block; logIndex := index;
     args := Some {| ca_txHash := hash; ca_requester := "0xA";
                     ca_narrative := "A transfer of 1 STT." |} |}.

(** Height 2500, so both endpoints scan [0..999], [1000..1999] and
    [2000..2500].  The query of the middle chunk is rejected.  Counters:
    [0xA] has 50 points, [0xB] none, [0xC] 12.  The block of the log with
    index 1 cannot be fetched. *)
Definition ledger_2500 : LedgerClient :=
  {| getBlockNumber := inr 2500;
     queryRequestSubmitted := fun f t =>
       if f =? 0 then inr [request 10 0 "0xA"; request 500 2 "0xB"]
       else if f =? 1000 then inl "query timeout"
       else inr [request 2000 0 "0xC"; request 2001 0 "0xA"];
     queryChronicleAdded := fun f t =>
       if f =? 0 then inr [added 20 0 "0xh1"; added 30 1 "0xh2"; added 40 2 "0xh3"]
       else if f =? 1000 then inl "query timeout"
       else inr [added 2100 0 "0xh4"];
     userPoints := fun a =>
       if String.eqb a "0xA" then inr 50
       else if String.eqb a "0xC" then inr 12
       else inr 0;
     getBlockTimestamp := fun l =>
       if logIndex l =? 1 then inl "failed to find block"
       else inr (1700000000 + blockNumber l) |}.

(** Height 0, one chunk [0..0] with two chronicle logs; the block of the
    first cannot be fetched, that of the second can. *)
Definition ledger_two_logs : LedgerClient :=
  {| getBlockNumber := inr 0;
     queryRequestSubmitted := fun _ _ => inr [];
     queryChronicleAdded := fun _ _ => inr [added 0 0 "0xh1"; added 0 1 "0xh2"];
     userPoints := fun _ => inr 0;
     getBlockTimestamp := fun l =>
       if logIndex l =? 0 then inl "failed to find block" else inr 1700000000 |}.

(** Height 0, one chunk [0..0] with one request of [0xA], whose counter is
    2^53 + 1. *)
Definition ledger_large_counter : LedgerClient :=
  {| getBlockNumber := inr 0;
     queryRequestSubmitted := fun _ _ => inr [request 0 0 "0xA"];
     queryChronicleAdded := fun _ _ => inr [];
     userPoints := fun _ => inr 9007199254740993;
     getBlockTimestamp := fun _ => inr 1700000000 |}.

(** *** Worlds for the analyze-transaction handler *)

Definition hash1 : string :=
  "0x1111111111111111111111111111111111111111111111111111111111111111".

Definition requester1 : string := "0x00000000000000000000000000000000000000A1".

Definition transfer : Orchestrator.Transaction :=
  {| Orchestrator.tx_hash := hash1;
     Orchestrator.tx_from := Some requester1;
     Orchestrator.tx_to := Some "0x00000000000000000000000000000000000000B2";
     Orchestrator.tx_value := 1000000000000000000;
     Orchestrator.tx_blockNumber := 2400;
     Orchestrator.tx_gasLimit := Some 21000 |}.

Definition completion (text : string) : Orchestrator.FetchResponse :=
  {| Orchestrator.ok := true; Orchestrator.statusText := "OK";
     Orchestrator.json :=
       inr {| Orchestrator.choices :=
                Some [Some {| Orchestrator.message :=
                                Some {| Orchestrator.content := Some text |} |}] |} |}.

(** The pending request shows at the third read; everything else succeeds. *)
Definition world_third_read : Orchestrator.World :=
  {| Orchestrator.pendingReads := fun n =>
       if Nat.ltb n 2 then inr Orchestrator.ZeroAddress else inr requester1;
     Orchestrator.lookups := fun _ => inr (Some transfer);
     Orchestrator.completions := fun _ => inr (completion " A transfer of 1 STT. ");
     Orchestrator.submissions := fun _ => inr {| Orchestrator.tr_hash := "0xc1" |};
     Orchestrator.receipts := fun _ => inr tt |}.

(** Every read of the pending request is rejected. *)
Definition world_reads_fail : Orchestrator.World :=
  {| Orchestrator.pendingReads := fun _ => inl "could not detect network";
     Orchestrator.lookups := fun _ => inr (Some transfer);
     Orchestrator.completions := fun _ => inr (completion "A transfer of 1 STT.");
     Orchestrator.submissions := fun _ => inr {| Orchestrator.tr_hash := "0xc1" |};
     Orchestrator.receipts := fun _ => inr tt |}.

(** The request is pending from the start and stays so until a chronicle is
    added; the first [addChronicle] is accepted, a later one is reverted. *)
Definition world_pending : Orchestrator.World :=
  {| Orchestrator.pendingReads := fun _ => inr requester1;
     Orchestrator.lookups := fun _ => inr (Some transfer);
     Orchestrator.completions := fun _ => inr (completion "A transfer of 1 STT.");
     Orchestrator.submissions := fun n =>
       match n with
       | O => inr {| Orchestrator.tr_hash := "0xc1" |}
       | S _ => inl "execution reverted: No pending request"
       end;
     Orchestrator.receipts := fun _ => inr tt |}.

(** The request is pending, the narrative is generated, the commit is
    reverted. *)
Definition world_commit_reverts : Orchestrator.World :=
  {| Orchestrator.pendingReads := fun _ => inr requester1;
     Orchestrator.lookups := fun _ => inr (Some transfer);
     Orchestrator.completions := fun _ => inr (completion "A transfer of 1 STT.");
     Orchestrator.submissions := fun _ => inl "execution reverted";
     Orchestrator.receipts := fun _ => inr tt |}.

(** The request is pending, the completion endpoint answers 503. *)
Definition world_ai_down : Orchestrator.World :=
  {| Orchestrator.pendingReads := fun _ => inr requester1;
     Orchestrator.lookups := fun _ => inr (Some transfer);
     Orchestrator.completions := fun _ =>
       inr {| Orchestrator.ok := false;
              Orchestrator.statusText := "Service Unavailable";
              Orchestrator.json := inl "Unexpected token" |};
     Orchestrator.submissions := fun _ => inr {| Orchestrator.tr_hash := "0xc1" |};
     Orchestrator.receipts := fun _ => inr tt |}.

(** Both invocations poll, look the transaction up and call the narrative
    service before either commits. *)
Definition schedule_overlap : list bool :=
  [true; false; true; false; true; false; true; false; true; false].

End Examples.

(* ================================================================== *)
(** ** Where an entry of an aggregated view comes from *)
(* ================================================================== *)
Module Provenance.
Import Aggregator.

(** Chronicle [c] was built from a retained [ChronicleAdded] log of a chunk
    of the scan whose query succeeded, with the timestamp read for that
    log's block. *)
Definition from_log (L : LedgerClient) (currentBlock : Z) (c : Chronicle)
  : Prop :=
  exists ch events ev a ts,
    In ch (chunks (Z.max 0 (currentBlock - CHRONICLES_LOOKBACK)) currentBlock)
    /\ queryChronicleAdded L (fst ch) (snd ch) = inr events
    /\ In ev events /\ args ev = Some a /\ retained ev = true
    /\ getBlockTimestamp L ev = inr ts
    /\ c = chronicle_of a ts.

(** [map.get(k)]. *)
Fixpoint map_get {V : Type} (k : string) (m : list (string * V)) : option V :=
  match m with
  | [] => None
  | (k', v) :: rest => if String.eqb k k' then Some v else map_get k rest
  end.

(** The last retained log of [events] that carries transaction hash [h]. *)
Fixpoint last_with_hash (h : string) (events : list (Log ChronicleAddedArgs))
  : option (Log ChronicleAddedArgs) :=
  match events with
  | [] => None
  | ev :: rest =>
      match last_with_hash h rest with
      | Some later => Some later
      | None =>
          match args ev with
          | Some a =>
              if retained ev && String.eqb (ca_txHash a) h then Some ev else None
          | None => None
          end
      end
  end.

(** The chronicle a log gives, when it is decoded and its block is read. *)
Definition entry_of (L : LedgerClient) (ev : Log ChronicleAddedArgs)
  : option Chronicle :=
  match args ev, getBlockTimestamp L ev with
  | Some a, inr ts => Some (chronicle_of a ts)
  | _, _ => None
  end.

(** The logs a chunk hands to the loop: none when its query is rejected. *)
Definition logs_of (L : LedgerClient) (ch : Z * Z)
  : list (Log ChronicleAddedArgs) :=
  match queryChronicleAdded L (fst ch) (snd ch) with
  | inr events => events
  | inl _ => []
  end.

(** All the logs of a chronicle scan, in the order the loop meets them. *)
Definition scanned (L : LedgerClient) (currentBlock : Z)
  : list (Log ChronicleAddedArgs) :=
  flat_map (logs_of L)
    (chunks (Z.max 0 (currentBlock - CHRONICLES_LOOKBACK)) currentBlock).

(** The addresses the leaderboard scan collected that have points. *)
Definition scoring (L : LedgerClient) (currentBlock : Z) : list LeaderboardEntry :=
  filter (fun user => 0 <? points user)
    (map (fetch_points L) (leaderboard_addresses L currentBlock)).

End Provenance.

(* ================================================================== *)
(** ** More concrete ledgers and worlds *)
(* ================================================================== *)
Module MoreExamples.
Import Aggregator Examples.

(** As [ledger_2500], but the counter of [0xA] cannot be read. *)
Definition ledger_counter_fails : LedgerClient :=
  {| getBlockNumber := getBlockNumber ledger_2500;
     queryRequestSubmitted := queryRequestSubmitted ledger_2500;
     queryChronicleAdded := queryChronicleAdded ledger_2500;
     userPoints := fun a =>
       if String.eqb a "0xA" then inl "missing revert data"
       else userPoints ledger_2500 a;
     getBlockTimestamp := getBlockTimestamp ledger_2500 |}.

(** The height can be read; every log query is rejected. *)
Definition ledger_queries_down : LedgerClient :=
  {| getBlockNumber := inr 2500;
     queryRequestSubmitted := fun _ _ => inl "query timeout";
     queryChronicleAdded := fun _ _ => inl "query timeout";
     userPoints := fun _ => inr 0;
     getBlockTimestamp := fun _ => inl "failed to find block" |}.

(** Height 0; the one chunk holds two logs for the same transaction hash,
    with different narratives, and a log whose narrative is empty. *)
Definition ledger_same_hash : LedgerClient :=
  {| getBlockNumber := inr 0;
     queryRequestSubmitted := fun _ _ => inr [];
     queryChronicleAdded := fun _ _ =>
       inr [ {| blockNumber := 0; logIndex := 0;
                args := Some {| ca_txHash := "0xh1"; ca_requester := "0xA";
                                ca_narrative := "first" |} |};
             {| blockNumber := 0; logIndex := 1;
                args := Some {| ca_txHash := "0xh2"; ca_requester := "0xA";
                                ca_narrative := EmptyString |} |};
             {| blockNumber := 0; logIndex := 2;
                args := Some {| ca_txHash := "0xh1"; ca_requester := "0xB";
                                ca_narrative := "second" |} |} ];
     userPoints := fun _ => inr 0;
     getBlockTimestamp := fun l => inr (1700000000 + logIndex l) |}.

(** A world where the request is pending and the chain has no such
    transaction. *)
Definition world_no_transaction : Orchestrator.World :=
  {| Orchestrator.pendingReads := Orchestrator.pendingReads world_pending;
     Orchestrator.lookups := fun _ => inr None;
     Orchestrator.completions := Orchestrator.completions world_pending;
     Orchestrator.submissions := Orchestrator.submissions world_pending;
     Orchestrator.receipts := Orchestrator.receipts world_pending |}.

(** 66 characters that are not a hexadecimal string. *)
Definition not_hex : string :=
  "0xzz11111111111111111111111111111111111111111111111111111111111111".

(** 31 bytes. *)
Definition short_hash : string :=
  "0x11111111111111111111111111111111111111111111111111111111111111".

(** Characters outside ASCII, as encoded: U+00A0 (no-break space), U+00E9,
    U+200B (zero width space, not white space) and U+FEFF. *)
Definition no_break_space : string := String "194" (String "160" EmptyString).

Definition e_acute : string := String "195" (String "169" EmptyString).

Definition zero_width_space : string :=
  String "226" (String "128" (String "139" EmptyString)).

Definition byte_order_mark : string :=
  String "239" (String "187" (String "191" EmptyString)).

(** [0x], 62 digits and U+00E9: 66 bytes, 65 code units. *)
Definition hash_65_units : string :=
  "0x11111111111111111111111111111111111111111111111111111111111111"
  ++ e_acute.

(** [0x], 63 digits and U+200B: 68 bytes, 66 code units. *)
Definition hash_66_units : string :=
  "0x111111111111111111111111111111111111111111111111111111111111111"
  ++ zero_width_space.

(** As [world_pending], but the completion comes with a byte order mark, a
    line feed and no-break spaces around its text. *)
Definition world_padded_completion : Orchestrator.World :=
  {| Orchestrator.pendingReads := Orchestrator.pendingReads world_pending;
     Orchestrator.lookups := Orchestrator.lookups world_pending;
     Orchestrator.completions := fun _ =>
       inr (completion (byte_order_mark ++ no_break_space ++ "A transfer."
                        ++ no_break_space ++ String "010" no_break_space));
     Orchestrator.submissions := Orchestrator.submissions world_pending;
     Orchestrator.receipts := Orchestrator.receipts world_pending |}.

End MoreExamples.

(* ================================================================== *)
(** ** The responses of the analyze-transaction handler, by name *)
(* ================================================================== *)
Module Responses.
Import Orchestrator.

Definition invalid_hash : AnalyzeResponse :=
  {| status := 400; resp_message := "Invalid transaction hash.";
     resp_error := None; resp_narrative := None;
     resp_chronicleTxHash := None |}.

Definition no_pending_request : AnalyzeResponse :=
  {| status := 400;
     resp_message :=
       "No pending request found. Please submit a chronicle request from the UI first.";
     resp_error := Some "PENDING_REQUEST_NOT_FOUND";
     resp_narrative := None; resp_chronicleTxHash := None |}.

Definition transaction_not_found : AnalyzeResponse :=
  {| status := 404;
     resp_message := "Transaction not found on Somnia network.";
     resp_error := None; resp_narrative := None;
     resp_chronicleTxHash := None |}.

Definition analysis_complete (narrative : string)
  (txResponse : TransactionResponse) : AnalyzeResponse :=
  {| status := 200; resp_message := "Analysis complete!";
     resp_error := None; resp_narrative := Some narrative;
     resp_chronicleTxHash := Some (tr_hash txResponse) |}.

(** The hash passes [!txHash || !ethers.isHexString(txHash, 32)]. *)
Definition well_formed (txHash : string) : bool :=
  JS.truthy txHash && JS.isHexString txHash 32.

(** Some read among the next [n], after the calls [tr0], shows a pending
    requester. *)
Definition request_shows (W : World) (tr0 : list Call) (n : nat) : Prop :=
  exists j, (j < n)%nat
            /\ observes_pending (pendingReads W (count is_read tr0 + j)) = true.

(** The completion endpoint answers with a body that has the text [text] at
    [choices[0].message.content]. *)
Definition completes_with (c : Thrown + FetchResponse) (text : string) : Prop :=
  exists response data m,
    c = inr response /\ ok response = true /\ json response = inr data
    /\ first_message data = Some m /\ content m = Some text.

End Responses.

(* ================================================================== *)
(** ** Running a program over any signature of calls *)
(* ================================================================== *)
Module Interp.
Import Effects.

(** [answer] gives each call its result and the state after it. *)
Fixpoint exec {E : Type -> Type} {S R : Type}
  (answer : forall X : Type, E X -> S -> X * S) (p : Prog E R) (s : S)
  : (Thrown + R) * S :=
  match p with
  | Ret r => (inr r, s)
  | Throw e => (inl e, s)
  | Vis c k => let (x, s') := answer _ c s in exec answer (k x) s'
  end.

End Interp.

(* ================================================================== *)
(** ** [POST /api/check-chronicle-status] *)
(* ================================================================== *)
Module StatusCheck.
Import Effects Effects.Notations.

(** The value of [s && b] for a string [s]: the string itself when it is
    empty, the boolean otherwise. *)
Inductive Flag :=
| FlagString (s : string)
| FlagBool (b : bool).

Definition and_then (s : string) (b : bool) : Flag :=
  if JS.truthy s then FlagBool b else FlagString s.

Definition flag_truthy (f : Flag) : bool :=
  match f with
  | FlagString s => JS.truthy s
  | FlagBool b => b
  end.

(** The three reads of the contract the endpoint makes, and its log. *)
Inductive StatusCall : Type -> Type :=
| Chronicles (txHash : string) : StatusCall (Thrown + string)%type
| PendingRequests (txHash : string) : StatusCall (Thrown + string)%type
| SubmissionFee : StatusCall (Thrown + Z)%type
| ConsoleError (detail : string) : StatusCall unit.

(** The body of the 200 answer. *)
Record StatusBody := {
  chronicleExists : Flag;
  requestPending : Flag;
  chronicle : option string;
  requester : option string;
  submissionFee : string
}.

Inductive StatusResponse :=
| Status200 (body : StatusBody)
| Status400 (message : string)
| Status500 (message : string) (error : Thrown).

(** [n.toString()] for a bigint. *)
Definition toString (n : Z) : string := NilZero.string_of_int (Z.to_int n).

Definition check_chronicle_status (txHash : string)
  : Prog StatusCall StatusResponse :=
  if negb (JS.truthy txHash) || negb (JS.isHexString txHash 32) then
    Ret (Status400 "Invalid transaction hash.")
  else
    try_catch
      (chronicle <- await (Chronicles txHash) ;;
       (* [chronicle.length > 0]: a string has a code unit exactly when it
          has a byte *)
       let chronicleExists :=
         and_then chronicle (Nat.ltb 0 (String.length chronicle)) in
       pendingRequester <- await (PendingRequests txHash) ;;
       let requestPending :=
         and_then pendingRequester
           (negb (String.eqb pendingRequester Orchestrator.ZeroAddress)) in
       actualSubmissionFee <- await SubmissionFee ;;
       Ret (Status200
              {| chronicleExists := chronicleExists;
                 requestPending := requestPending;
                 chronicle :=
                   if flag_truthy chronicleExists then Some chronicle else None;
                 requester :=
                   if flag_truthy requestPending then Some pendingRequester
                   else None;
                 submissionFee := toString actualSubmissionFee |}))
      (fun error =>
         perform (ConsoleError error) ;;
         Ret (Status500 "Failed to check chronicle status" error)).

(** The state of the contract the endpoint reads. *)
Record Registry := {
  chronicleOf : string -> Thrown + string;
  pendingOf : string -> Thrown + string;
  fee : Thrown + Z
}.

(** A read as it shows in the trace of a run. *)
Inductive Read :=
| ReadChronicle (txHash : string)
| ReadPending (txHash : string)
| ReadFee
| Logged (detail : string).

Definition answer (G : Registry) (X : Type) (c : StatusCall X)
  (trace : list Read) : X * list Read :=
  match c in StatusCall X return X * list Read with
  | Chronicles h => (chronicleOf G h, trace ++ [ReadChronicle h])
  | PendingRequests h => (pendingOf G h, trace ++ [ReadPending h])
  | SubmissionFee => (fee G, trace ++ [ReadFee])
  | ConsoleError d => (tt, trace ++ [Logged d])
  end.

(** The endpoint against a registry: its answer and the reads it made. *)
Definition serve (G : Registry) (txHash : string)
  : (Thrown + StatusResponse) * list Read :=
  Interp.exec (answer G) (check_chronicle_status txHash) [].

(** No chronicle and no request for any hash; the fee is 0.001 STT. *)
Definition registry_empty : Registry :=
  {| chronicleOf := fun _ => inr EmptyString;
     pendingOf := fun _ => inr Orchestrator.ZeroAddress;
     fee := inr 1000000000000000 |}.

(** A request of [requester1] is pending for every hash. *)
Definition registry_pending : Registry :=
  {| chronicleOf := fun _ => inr EmptyString;
     pendingOf := fun _ => inr Examples.requester1;
     fee := inr 1000000000000000 |}.

(** The fee cannot be read. *)
Definition registry_fee_fails : Registry :=
  {| chronicleOf := fun _ => inr EmptyString;
     pendingOf := fun _ => inr Orchestrator.ZeroAddress;
     fee := inl "missing revert data" |}.

End StatusCheck.

(* ================================================================== *)
(** ** The page: [handleAnalyze] and the state the client keeps *)
(* ================================================================== *)
Module Page.
Import Effects Effects.Notations.

(** The calls of [handleAnalyze]: those of [analyzeWithBackend], the status
    check and the contract write. *)
Inductive PageCall : Type -> Type :=
| Base (X : Type) (c : Client.ClientCall X) : PageCall X
| PostCheckStatus (txHash : string)
    : PageCall (Thrown + StatusCheck.StatusResponse)%type
| WriteContract (functionName : string) (txHash : string) (value : option Z)
    : PageCall unit.
Arguments Base {X} _.

(** [statusData.chronicleExists], [statusData.requestPending] and
    [statusData.chronicle] of the parsed answer, whatever its status: a
    field the body does not have is [undefined]. *)
Definition says_exists (data : StatusCheck.StatusResponse) : bool :=
  match data with
  | StatusCheck.Status200 body =>
      StatusCheck.flag_truthy (StatusCheck.chronicleExists body)
  | _ => false
  end.

Definition says_pending (data : StatusCheck.StatusResponse) : bool :=
  match data with
  | StatusCheck.Status200 body =>
      StatusCheck.flag_truthy (StatusCheck.requestPending body)
  | _ => false
  end.

Definition chronicle_field (data : StatusCheck.StatusResponse)
  : option string :=
  match data with
  | StatusCheck.Status200 body => StatusCheck.chronicle body
  | _ => None
  end.

(** [handleAnalyze] closes over the connected [address], the [txHash] typed
    in and the [submissionFee] read from the contract (undefined until that
    read has answered).  The answer of [PostCheckStatus] is that of [fetch]
    followed by [response.json()]; [response.ok] is not looked at.  The
    status line of the first branch starts with a check mark, left out
    here. *)
Definition handleAnalyze (address : option string) (txHash : string)
  (submissionFee : option Z) : Prog PageCall unit :=
  if negb (match address with Some a => JS.truthy a | None => false end) then
    perform (Base (Client.SetNarrative (Some "Please connect your wallet first.")))
  else if negb (JS.truthy txHash) || negb (Nat.eqb (JS.length txHash) 66)
  then
    perform (Base (Client.SetNarrative
                     (Some "Please enter a valid transaction hash.")))
  else
    perform (Base (Client.SetIsLoading true)) ;;
    perform (Base (Client.SetNarrative (Some EmptyString))) ;;
    perform (Base (Client.SetStatus "Checking contract state...")) ;;
    perform (Base (Client.SetHasAnalyzed false)) ;;
    try_catch
      (statusData <- await (PostCheckStatus txHash) ;;
       if says_exists statusData then
         perform (Base (Client.SetNarrative (chronicle_field statusData))) ;;
         perform (Base (Client.SetStatus
           "Chronicle retrieved from blockchain (already exists)")) ;;
         perform (Base (Client.SetIsLoading false))
       else if says_pending statusData then
         perform (Base (Client.SetNarrative (Some
           "A request is already pending for this transaction. Please wait for AI analysis."))) ;;
         perform (Base (Client.SetStatus "Request already pending")) ;;
         perform (Base (Client.SetIsLoading false))
       else
         perform (Base (Client.SetStatus "Requesting chronicle from contract...")) ;;
         perform (WriteContract "requestChronicle" txHash submissionFee))
      (fun error =>
         perform (Base (Client.ConsoleError error)) ;;
         perform (Base (Client.SetNarrative
                          (Some "Failed to submit request to contract."))) ;;
         perform (Base (Client.SetIsLoading false)) ;;
         perform (Base (Client.SetStatus EmptyString))).

(** The state of the page, and what it has sent out. *)
Record State := {
  hasAnalyzed : bool;
  isLoading : bool;
  status : string;
  narrative : option string;
  analyses : list string;
  checks : list string;
  writes : list (string * string * option Z);
  refreshes : list Z;
  errors : list string
}.

Definition initial : State :=
  {| hasAnalyzed := false; isLoading := false; status := EmptyString;
     narrative := Some EmptyString; analyses := []; checks := [];
     writes := []; refreshes := []; errors := [] |}.

(** The server as the page sees it. *)
Record Backend := {
  analyze_transaction : string -> Thrown + Orchestrator.AnalyzeResponse;
  check_status : string -> Thrown + StatusCheck.StatusResponse
}.

Definition client_answer (B : Backend) (X : Type) (c : Client.ClientCall X)
  (s : State) : X * State :=
  match c in Client.ClientCall X return X * State with
  | Client.SetHasAnalyzed b =>
      (tt, {| hasAnalyzed := b; isLoading := isLoading s; status := status s;
              narrative := narrative s; analyses := analyses s;
              checks := checks s; writes := writes s;
              refreshes := refreshes s; errors := errors s |})
  | Client.SetStatus t =>
      (tt, {| hasAnalyzed := hasAnalyzed s; isLoading := isLoading s;
              status := t; narrative := narrative s; analyses := analyses s;
              checks := checks s; writes := writes s;
              refreshes := refreshes s; errors := errors s |})
  | Client.SetNarrative n =>
      (tt, {| hasAnalyzed := hasAnalyzed s; isLoading := isLoading s;
              status := status s; narrative := n; analyses := analyses s;
              checks := checks s; writes := writes s;
              refreshes := refreshes s; errors := errors s |})
  | Client.SetIsLoading b =>
      (tt, {| hasAnalyzed := hasAnalyzed s; isLoading := b; status := status s;
              narrative := narrative s; analyses := analyses s;
              checks := checks s; writes := writes s;
              refreshes := refreshes s; errors := errors s |})
  | Client.PostAnalyzeTransaction h =>
      (analyze_transaction B h,
       {| hasAnalyzed := hasAnalyzed s; isLoading := isLoading s;
          status := status s; narrative := narrative s;
          analyses := analyses s ++ [h]; checks := checks s;
          writes := writes s; refreshes := refreshes s; errors := errors s |})
  | Client.RefreshLater ms =>
      (tt, {| hasAnalyzed := hasAnalyzed s; isLoading := isLoading s;
              status := status s; narrative := narrative s;
              analyses := analyses s; checks := checks s; writes := writes s;
              refreshes := refreshes s ++ [ms]; errors := errors s |})
  | Client.ConsoleError d =>
      (tt, {| hasAnalyzed := hasAnalyzed s; isLoading := isLoading s;
              status := status s; narrative := narrative s;
              analyses := analyses s; checks := checks s; writes := writes s;
              refreshes := refreshes s; errors := errors s ++ [d] |})
  end.

Definition page_answer (B : Backend) (X : Type) (c : PageCall X) (s : State)
  : X * State :=
  match c in PageCall X return X * State with
  | Base c' => client_answer B _ c' s
  | PostCheckStatus h =>
      (check_status B h,
       {| hasAnalyzed := hasAnalyzed s; isLoading := isLoading s;
          status := status s; narrative := narrative s;
          analyses := analyses s; checks := checks s ++ [h];
          writes := writes s; refreshes := refreshes s; errors := errors s |})
  | WriteContract f h v =>
      (tt, {| hasAnalyzed := hasAnalyzed s; isLoading := isLoading s;
              status := status s; narrative := narrative s;
              analyses := analyses s; checks := checks s;
              writes := writes s ++ [(f, h, v)];
              refreshes := refreshes s; errors := errors s |})
  end.

(** The page after [handleAnalyze], and after [analyzeWithBackend] called
    from a render that saw [hasAnalyzed s]. *)
Definition after_handleAnalyze (B : Backend) (address : option string)
  (txHash : string) (submissionFee : option Z) (s : State) : State :=
  snd (Interp.exec (page_answer B) (handleAnalyze address txHash submissionFee) s).

Definition after_analyzeWithBackend (B : Backend) (txHash : string) (s : State)
  : State :=
  snd (Interp.exec (client_answer B)
         (Client.analyzeWithBackend (hasAnalyzed s) txHash) s).

(** A backend that runs the server's status endpoint on a registry and the
    analyze handler in a world. *)
Definition backend_of (G : StatusCheck.Registry) (W : Orchestrator.World)
  : Backend :=
  {| analyze_transaction := fun h =>
       fst (Orchestrator.run W (Orchestrator.analyze_transaction h) []);
     check_status := fun h => fst (StatusCheck.serve G h) |}.

End Page.

(* ================================================================== *)
(** ** Facts about the chunked scan *)
(* ================================================================== *)
Module ScanFacts.
Import Aggregator.

Lemma scan_loop_fuel {S : Type} (body : Z -> Z -> S -> S) :
  forall fuel1 fuel2 f c acc,
    c - f + 1 <= Z.of_nat fuel1 -> c - f + 1 <= Z.of_nat fuel2 ->
    scan_loop body fuel1 f c acc = scan_loop body fuel2 f c acc.
Proof.
  induction fuel1 as [|n IH]; intros [|m] f c acc H1 H2; simpl;
    try reflexivity; destruct (Z.leb_spec f c); try reflexivity; try lia.
  apply IH; unfold CHUNK_SIZE; lia.
Qed.

Lemma scan_done {S : Type} (body : Z -> Z -> S -> S) f c acc :
  c < f -> scan body f c acc = acc.
Proof.
  intros H. unfold scan, scan_fuel.
  replace (Z.to_nat (c - f + 1)) with O by lia. reflexivity.
Qed.

Lemma scan_step {S : Type} (body : Z -> Z -> S -> S) f c acc :
  f <= c ->
  scan body f c acc
  = scan body (f + CHUNK_SIZE) c (body f (Z.min (f + CHUNK_SIZE - 1) c) acc).
Proof.
  intros H. unfold scan, scan_fuel.
  destruct (Z.to_nat (c - f + 1)) as [|n] eqn:E; [lia|].
  simpl. destruct (Z.leb_spec f c); [|lia].
  apply scan_loop_fuel; unfold CHUNK_SIZE; lia.
Qed.

(** Induction along the loop: from [fromBlock] to [fromBlock + CHUNK_SIZE]. *)
Lemma range_ind (c : Z) (P : Z -> Prop) :
  (forall f, c < f -> P f) ->
  (forall f, f <= c -> P (f + CHUNK_SIZE) -> P f) ->
  forall f, P f.
Proof.
  intros Hdone Hstep.
  assert (H : forall n f, c - f + 1 <= Z.of_nat n -> P f).
  { induction n as [|n IH]; intros f Hn.
    - apply Hdone. lia.
    - destruct (Z_lt_le_dec c f) as [Hlt|Hle]; [now apply Hdone|].
      apply Hstep; [exact Hle|]. apply IH. unfold CHUNK_SIZE. lia. }
  intros f. apply (H (Z.to_nat (c - f + 1))). lia.
Qed.

Lemma collect_acc c : forall f acc,
  scan (fun f t acc => acc ++ [(f, t)]) f c acc = acc ++ chunks f c.
Proof.
  intros f. pattern f. apply (range_ind c); clear f.
  - intros f H acc. unfold chunks. rewrite !scan_done by exact H.
    now rewrite app_nil_r.
  - intros f H IH acc. unfold chunks.
    rewrite (scan_step _ f c acc H), (scan_step _ f c [] H).
    rewrite (IH (acc ++ _)), (IH ([] ++ _)). now rewrite <- app_assoc.
Qed.

Lemma chunks_nil f c : c < f -> chunks f c = [].
Proof. intros H. unfold chunks. now apply scan_done. Qed.

Lemma chunks_cons f c :
  f <= c ->
  chunks f c = (f, Z.min (f + CHUNK_SIZE - 1) c) :: chunks (f + CHUNK_SIZE) c.
Proof.
  intros H. unfold chunks at 1. rewrite scan_step by exact H.
  now rewrite collect_acc.
Qed.

(** The loop is a fold of its body over the ranges it queries. *)
Lemma scan_fold {S : Type} (body : Z -> Z -> S -> S) c : forall f acc,
  scan body f c acc
  = fold_left (fun a ch => body (fst ch) (snd ch) a) (chunks f c) acc.
Proof.
  intros f. pattern f. apply (range_ind c); clear f.
  - intros f H acc. now rewrite scan_done, chunks_nil.
  - intros f H IH acc. rewrite scan_step, chunks_cons by exact H.
    simpl. apply IH.
Qed.

Lemma scan_ext {S : Type} (body1 body2 : Z -> Z -> S -> S) f c acc :
  (forall x y a, body1 x y a = body2 x y a) ->
  scan body1 f c acc = scan body2 f c acc.
Proof.
  intros H. rewrite !scan_fold. revert acc.
  induction (chunks f c) as [|ch l IH]; intros acc; simpl; [reflexivity|].
  now rewrite H, IH.
Qed.

Lemma chunks_consecutive c : forall f,
  consecutive_chunks CHUNK_SIZE f c (chunks f c).
Proof.
  intros f. pattern f. apply (range_ind c); clear f.
  - intros f H. rewrite chunks_nil by exact H. exact H.
  - intros f H IH. rewrite chunks_cons by exact H. simpl.
    repeat split; try assumption.
    destruct (Z_lt_le_dec c (f + CHUNK_SIZE - 1)) as [Hc|Hc].
    + rewrite Z.min_r by lia.
      rewrite chunks_nil by lia. simpl. lia.
    + rewrite Z.min_l by lia.
      replace (f + CHUNK_SIZE - 1 + 1) with (f + CHUNK_SIZE) by lia. exact IH.
Qed.

Lemma chunks_within c : forall f x y,
  In (x, y) (chunks f c) -> f <= x /\ x <= y /\ y <= c.
Proof.
  intros f. pattern f. apply (range_ind c); clear f.
  - intros f H x y Hin. rewrite chunks_nil in Hin by exact H. destruct Hin.
  - intros f H IH x y Hin. rewrite chunks_cons in Hin by exact H.
    destruct Hin as [E|Hin].
    + inversion E; subst. unfold CHUNK_SIZE. lia.
    + apply IH in Hin. unfold CHUNK_SIZE in *. lia.
Qed.

Lemma chunks_partition c b : forall f,
  times_queried b (chunks f c) = if in_range f c b then 1%nat else 0%nat.
Proof.
  intros f. pattern f. apply (range_ind c); clear f.
  - intros f H. rewrite chunks_nil by exact H. unfold in_range. simpl.
    destruct (Z.leb_spec f b), (Z.leb_spec b c); simpl; try reflexivity; lia.
  - intros f H IH. rewrite chunks_cons by exact H.
    unfold times_queried in *. simpl. revert IH. unfold in_range, CHUNK_SIZE.
    destruct (Z.leb_spec f b), (Z.leb_spec b c),
      (Z.leb_spec b (Z.min (f + 1000 - 1) c)), (Z.leb_spec (f + 1000) b);
      simpl; intros ->; try reflexivity; lia.
Qed.

Lemma filter_split {A : Type} (p q r : A -> bool) (l : list A) :
  (forall x, r x = p x || q x) -> (forall x, p x && q x = false) ->
  Permutation (filter p l ++ filter q l) (filter r l).
Proof.
  intros Hr Hpq. induction l as [|x l IH]; simpl; [constructor|].
  rewrite Hr. specialize (Hpq x).
  destruct (p x), (q x); simpl in *; try discriminate.
  - now constructor.
  - apply Permutation_sym, Permutation_cons_app, Permutation_sym, IH.
  - exact IH.
Qed.

Lemma chunked_query {Args : Type} (logs : list (Log Args)) c : forall f,
  Permutation
    (flat_map (fun ch => query_logs logs (fst ch) (snd ch)) (chunks f c))
    (query_logs logs f c).
Proof.
  intros f. pattern f. apply (range_ind c); clear f.
  - intros f H. rewrite chunks_nil by exact H. simpl.
    unfold query_logs. replace (filter _ logs) with (@nil (Log Args));
      [constructor|].
    symmetry. induction logs as [|l logs IH]; simpl; [reflexivity|].
    unfold in_range at 1.
    destruct (Z.leb_spec f (blockNumber l)), (Z.leb_spec (blockNumber l) c);
      simpl; try exact IH; lia.
  - intros f H IH. rewrite chunks_cons by exact H. simpl.
    eapply Permutation_trans; [apply Permutation_app_head, IH|].
    apply filter_split; intros x; unfold in_range, CHUNK_SIZE;
      destruct (Z.leb_spec f (blockNumber x)), (Z.leb_spec (blockNumber x) c),
        (Z.leb_spec (blockNumber x) (Z.min (f + 1000 - 1) c)),
        (Z.leb_spec (f + 1000) (blockNumber x)); simpl; try reflexivity; lia.
Qed.

End ScanFacts.

(* ================================================================== *)
(** ** Facts about sets, maps and the sort *)
(* ================================================================== *)
Module JSFacts.
Import JS.

Lemma Number_exact n : n < MAX_SAFE -> Number n = n.
Proof.
  intros H. unfold Number. destruct (Z.ltb_spec n MAX_SAFE); [reflexivity|lia].
Qed.

(** A hexadecimal digit is one byte and one code unit. *)
Lemma code_units_hex c : is_hex_digit c = true -> code_units c = 1%nat.
Proof.
  unfold is_hex_digit, code_units. intros H.
  destruct (Nat.ltb_spec (nat_of_ascii c) 128) as [_|Hge]; [reflexivity|].
  repeat rewrite ?orb_true_iff, ?andb_true_iff, ?Nat.leb_le in H. lia.
Qed.

Lemma length_all_hex s : all_hex s = true -> length s = String.length s.
Proof.
  induction s as [|c s IH]; [reflexivity|]. cbn [all_hex length String.length].
  intros H. apply andb_prop in H. destruct H as [Hc Hs].
  now rewrite (code_units_hex c Hc), (IH Hs).
Qed.

(** A string that passes [isHexString] has as many code units as bytes. *)
Lemma isHexString_units value len :
  isHexString value len = true -> length value = (2 + 2 * len)%nat.
Proof.
  unfold isHexString.
  destruct value as [|c0 [|c1 digits]]; try discriminate.
  - now destruct c0 as [[] [] [] [] [] [] [] []].
  - destruct c0 as [[] [] [] [] [] [] [] []]; try discriminate.
    destruct c1 as [[] [] [] [] [] [] [] []]; try discriminate.
    intros H. apply andb_prop in H. destruct H as [Hd Hl].
    apply Nat.eqb_eq in Hl. rewrite <- Hl.
    cbn [length String.length]. now rewrite (length_all_hex digits Hd).
Qed.

Lemma set_mem_In x s : set_mem x s = true <-> In x s.
Proof.
  unfold set_mem. rewrite existsb_exists. split.
  - intros [y [Hy E]]. apply String.eqb_eq in E. now subst.
  - intros H. exists x. split; [exact H|apply String.eqb_refl].
Qed.

Lemma In_set_add y x s : In y (set_add x s) <-> y = x \/ In y s.
Proof.
  unfold set_add. destruct (set_mem x s) eqn:E.
  - apply set_mem_In in E. split; [now right|]. intros [->|H]; assumption.
  - rewrite in_app_iff. simpl. intuition.
Qed.

Lemma map_set_keys {V : Type} k (v : V) m k' :
  In k' (map fst (map_set k v m)) <-> k' = k \/ In k' (map fst m).
Proof.
  induction m as [|[k0 v0] m IH]; simpl.
  - intuition.
  - destruct (String.eqb_spec k k0) as [->|Hne]; simpl.
    + intuition.
    + rewrite IH. intuition.
Qed.

Lemma map_set_Forall {V : Type} (P : string * V -> Prop) k v m :
  P (k, v) -> Forall P m -> Forall P (map_set k v m).
Proof.
  intros Hkv. induction 1 as [|[k0 v0] m H0 Hm IH]; simpl.
  - repeat constructor. exact Hkv.
  - destruct (String.eqb k k0); constructor; assumption.
Qed.

Lemma insert_desc_perm {A : Type} (key : A -> Z) x l :
  Permutation (insert_desc key x l) (x :: l).
Proof.
  induction l as [|y l IH]; simpl; [reflexivity|].
  destruct (key y <=? key x); [reflexivity|].
  rewrite IH. apply perm_swap.
Qed.

Lemma sort_desc_perm {A : Type} (key : A -> Z) l :
  Permutation (sort_desc key l) l.
Proof.
  induction l as [|x l IH]; simpl; [constructor|].
  rewrite insert_desc_perm. now constructor.
Qed.

Lemma insert_desc_descending {A : Type} (key : A -> Z) x l :
  descending key l -> descending key (insert_desc key x l).
Proof.
  induction l as [|y l IH]; simpl; [auto|].
  intros [Hy Hl]. destruct (Z.leb_spec (key y) (key x)); simpl.
  - repeat split; try assumption. constructor; [exact H|].
    eapply Forall_impl; [|exact Hy]. simpl. intros; lia.
  - split; [|now apply IH].
    eapply Permutation_Forall; [apply Permutation_sym, insert_desc_perm|].
    constructor; [lia|exact Hy].
Qed.

Lemma sort_desc_descending {A : Type} (key : A -> Z) l :
  descending key (sort_desc key l).
Proof.
  induction l as [|x l IH]; simpl; [exact I|].
  now apply insert_desc_descending.
Qed.

Lemma In_firstn {A : Type} (x : A) n l : In x (firstn n l) -> In x l.
Proof.
  intros H. rewrite <- (firstn_skipn n l). apply in_or_app. now left.
Qed.

Lemma firstn_descending {A : Type} (key : A -> Z) n : forall l,
  descending key l -> descending key (firstn n l).
Proof.
  induction n as [|n IH]; intros [|x l]; simpl; auto.
  intros [Hx Hl]. split; [|now apply IH].
  rewrite Forall_forall in *. intros y Hy. apply Hx. eapply In_firstn, Hy.
Qed.

(** What a sorted list loses when cut to its first [n] elements is no larger
    than what it keeps. *)
Lemma firstn_keeps_largest {A : Type} (key : A -> Z) n : forall l x,
  descending key l -> In x l ->
  In x (firstn n l)
  \/ (List.length (firstn n l) = n
      /\ Forall (fun y => key x <= key y) (firstn n l)).
Proof.
  induction n as [|n IH]; intros l x Hl Hx; simpl.
  - right. split; [reflexivity|constructor].
  - destruct l as [|y l]; [destruct Hx|].
    destruct Hl as [Hy Hl]. destruct Hx as [->|Hx]; [left; now left|].
    destruct (IH l x Hl Hx) as [Hin|[Hlen Hall]].
    + left. now right.
    + right. simpl. split; [now rewrite Hlen|].
      constructor; [|exact Hall].
      rewrite Forall_forall in Hy. now apply Hy.
Qed.

End JSFacts.

(* ================================================================== *)
(** ** Facts about the two aggregation endpoints *)
(* ================================================================== *)
Module AggregatorFacts.
Import Aggregator ScanFacts JSFacts.

(** *** Leaderboard: which addresses are collected *)

Lemma In_add_user y set ev :
  In y (add_user set ev) <-> In y set \/ event_user ev = Some y.
Proof.
  unfold add_user. destruct (event_user ev) as [u|].
  - rewrite In_set_add. split.
    + intros [->|H]; auto.
    + intros [H|H]; [now right|]. left. now inversion H.
  - split; [now left|]. intros [H|H]; [exact H|discriminate].
Qed.

Lemma In_fold_add_user y events : forall set,
  In y (fold_left add_user events set)
  <-> In y set \/ exists ev, In ev events /\ event_user ev = Some y.
Proof.
  induction events as [|ev events IH]; intros set; simpl.
  - split; [now left|]. intros [H|[ev [[] _]]]. exact H.
  - rewrite IH, In_add_user. split.
    + intros [[H|H]|[ev' [H1 H2]]]; eauto 6.
    + intros [H|[ev' [[->|H1] H2]]]; eauto 6.
Qed.

Lemma In_leaderboard_chunk L y f t set :
  In y (leaderboard_chunk L f t set) <-> In y set \/ collected_in L y (f, t).
Proof.
  unfold leaderboard_chunk, collected_in. simpl.
  destruct (queryRequestSubmitted L f t) as [e|events].
  - split; [now left|]. intros [H|[evs [ev [H _]]]]; [exact H|discriminate].
  - rewrite In_fold_add_user. split.
    + intros [H|[ev [H1 H2]]]; [now left|]. right. now exists events, ev.
    + intros [H|[evs [ev [E [H1 H2]]]]]; [now left|].
      inversion E; subst. right. now exists ev.
Qed.

Lemma In_leaderboard_fold L y chs : forall set,
  In y (fold_left (fun a ch => leaderboard_chunk L (fst ch) (snd ch) a) chs set)
  <-> In y set \/ exists ch, In ch chs /\ collected_in L y ch.
Proof.
  induction chs as [|[f t] chs IH]; intros set; simpl.
  - split; [now left|]. intros [H|[ch [[] _]]]. exact H.
  - rewrite IH, In_leaderboard_chunk. split.
    + intros [[H|H]|[ch [H1 H2]]]; eauto 6.
    + intros [H|[ch [[<-|H1] H2]]]; eauto 6.
Qed.

Lemma In_leaderboard_addresses L cur y :
  In y (leaderboard_addresses L cur)
  <-> exists ch,
        In ch (chunks (Z.max 0 (cur - LEADERBOARD_LOOKBACK)) cur)
        /\ collected_in L y ch.
Proof.
  unfold leaderboard_addresses. rewrite scan_fold, In_leaderboard_fold.
  split; [intros [[]|H]; exact H | now right].
Qed.

(** *** Leaderboard: the entries returned *)

Lemma In_leaderboard_top L cur entry :
  In entry (leaderboard_top L cur) ->
  0 < points entry
  /\ In (address entry) (leaderboard_addresses L cur)
  /\ exists p, userPoints L (address entry) = inr p
               /\ points entry = JS.Number p.
Proof.
  unfold leaderboard_top, JS.slice0. intros H. apply In_firstn in H.
  apply (Permutation_in _ (sort_desc_perm _ _)) in H.
  apply filter_In in H. destruct H as [H Hpos].
  apply in_map_iff in H. destruct H as [a [E Ha]]. subst entry.
  assert (Haddr : address (fetch_points L a) = a)
    by (unfold fetch_points; now destruct (userPoints L a)).
  rewrite Haddr. apply Z.ltb_lt in Hpos. unfold fetch_points in *.
  destruct (userPoints L a) as [e|p] eqn:E; cbn [points] in *; [lia|].
  split; [exact Hpos|]. split; [exact Ha|]. exists p. split; reflexivity.
Qed.

Lemma leaderboard_top_descending L cur :
  JS.descending points (leaderboard_top L cur).
Proof.
  unfold leaderboard_top, JS.slice0.
  apply firstn_descending, sort_desc_descending.
Qed.

Lemma leaderboard_top_keeps L cur u :
  In u (leaderboard_addresses L cur) ->
  0 < points (fetch_points L u) ->
  In (fetch_points L u) (leaderboard_top L cur)
  \/ (List.length (leaderboard_top L cur) = 10%nat
      /\ Forall (fun e => points (fetch_points L u) <= points e)
           (leaderboard_top L cur)).
Proof.
  intros Hu Hpos. unfold leaderboard_top, JS.slice0.
  apply firstn_keeps_largest; [apply sort_desc_descending|].
  apply (Permutation_in _ (Permutation_sym (sort_desc_perm _ _))).
  apply filter_In. split; [now apply in_map|]. now apply Z.ltb_lt.
Qed.

(** *** Failed chunk queries are absorbed *)

Lemma leaderboard_absorbs L : leaderboard (absorb_failures L) = leaderboard L.
Proof.
  unfold leaderboard. simpl. destruct (getBlockNumber L) as [e|cur];
    [reflexivity|]. f_equal.
  unfold leaderboard_top, leaderboard_addresses. f_equal. f_equal. f_equal.
  f_equal. apply scan_ext. intros f t a. unfold leaderboard_chunk. simpl.
  now destruct (queryRequestSubmitted L f t).
Qed.

Lemma process_events_absorbs L events : forall m,
  process_events (absorb_failures L) events m = process_events L events m.
Proof.
  induction events as [|ev events IH]; intros m; simpl; [reflexivity|].
  destruct (args ev); [|apply IH].
  destruct (retained ev); [|apply IH].
  destruct (getBlockTimestamp L ev); [reflexivity|apply IH].
Qed.

Lemma chronicles_absorbs L :
  chronicles_endpoint (absorb_failures L) = chronicles_endpoint L.
Proof.
  unfold chronicles_endpoint. simpl. destruct (getBlockNumber L) as [e|cur];
    [reflexivity|].
  assert (E : chronicles_map (absorb_failures L) cur = chronicles_map L cur).
  { unfold chronicles_map. apply scan_ext. intros f t a.
    unfold chronicles_chunk. simpl.
    destruct (queryChronicleAdded L f t); [reflexivity|].
    now rewrite process_events_absorbs. }
  unfold chronicles_list. now rewrite E.
Qed.

(** *** Chronicles: which hashes are in the map *)

Lemma process_events_keyed L events : forall m,
  keyed m -> keyed (fst (process_events L events m)).
Proof.
  induction events as [|ev events IH]; intros m Hm; simpl; [exact Hm|].
  destruct (args ev) as [a|]; [|now apply IH].
  destruct (retained ev); [|now apply IH].
  destruct (getBlockTimestamp L ev) as [e|ts]; [exact Hm|].
  apply IH. now apply map_set_Forall.
Qed.

Lemma process_events_grows L k events : forall m,
  In k (map fst m) -> In k (map fst (fst (process_events L events m))).
Proof.
  induction events as [|ev events IH]; intros m Hm; simpl; [exact Hm|].
  destruct (args ev) as [a|]; [|now apply IH].
  destruct (retained ev); [|now apply IH].
  destruct (getBlockTimestamp L ev) as [e|ts]; [exact Hm|].
  apply IH. apply map_set_keys. now right.
Qed.

Lemma process_events_prefix L rest pre : forall m x a,
  enriched L pre -> In x pre -> args x = Some a -> retained x = true ->
  In (ca_txHash a) (map fst (fst (process_events L (pre ++ rest) m))).
Proof.
  induction pre as [|ev pre IH]; intros m x a Hen Hx Ha Hr; [destruct Hx|].
  assert (Hen' : enriched L pre) by (intros y Hy; apply Hen; now right).
  simpl. destruct Hx as [->|Hx].
  - rewrite Ha, Hr. destruct (Hen x (or_introl eq_refl) Hr) as [ts ->].
    apply process_events_grows, map_set_keys. now left.
  - destruct (args ev) as [b|]; [|now apply (IH m x a)].
    destruct (retained ev) eqn:Hev; [|now apply (IH m x a)].
    destruct (Hen ev (or_introl eq_refl) Hev) as [ts ->].
    now apply (IH _ x a).
Qed.

(** A rejected [getBlock] ends the loop: the failing event and all that
    follow it in the chunk leave no entry. *)
Lemma process_events_failure L ev post e pre : forall m,
  enriched L pre -> retained ev = true -> getBlockTimestamp L ev = inl e ->
  process_events L (pre ++ ev :: post) m
  = (fst (process_events L pre m), Some e).
Proof.
  induction pre as [|x pre IH]; intros m Hen Hr He; simpl.
  - rewrite Hr, He. unfold retained in Hr. destruct (args ev); [reflexivity|discriminate].
  - assert (Hen' : enriched L pre) by (intros y Hy; apply Hen; now right).
    destruct (args x) as [b|]; [|now apply IH].
    destruct (retained x) eqn:Hx; [|now apply IH].
    destruct (Hen x (or_introl eq_refl) Hx) as [ts ->]. now apply IH.
Qed.

Lemma chronicles_chunk_keyed L f t m : keyed m -> keyed (chronicles_chunk L f t m).
Proof.
  unfold chronicles_chunk. destruct (queryChronicleAdded L f t); [auto|].
  apply process_events_keyed.
Qed.

Lemma chronicles_chunk_grows L f t k m :
  In k (map fst m) -> In k (map fst (chronicles_chunk L f t m)).
Proof.
  unfold chronicles_chunk. destruct (queryChronicleAdded L f t); [auto|].
  apply process_events_grows.
Qed.

Lemma chronicles_fold_keyed L chs : forall m,
  keyed m ->
  keyed (fold_left (fun a ch => chronicles_chunk L (fst ch) (snd ch) a) chs m).
Proof.
  induction chs as [|ch chs IH]; intros m Hm; simpl; [exact Hm|].
  apply IH. now apply chronicles_chunk_keyed.
Qed.

Lemma chronicles_fold_grows L k chs : forall m,
  In k (map fst m) ->
  In k (map fst
          (fold_left (fun a ch => chronicles_chunk L (fst ch) (snd ch) a) chs m)).
Proof.
  induction chs as [|ch chs IH]; intros m Hm; simpl; [exact Hm|].
  apply IH. now apply chronicles_chunk_grows.
Qed.

Lemma chronicles_map_keyed L cur : keyed (chronicles_map L cur).
Proof.
  unfold chronicles_map. rewrite scan_fold. apply chronicles_fold_keyed.
  constructor.
Qed.

(** The retained events of a chunk that come before any failed enrichment
    are in the map at the end of the scan. *)
Lemma chronicles_map_has L cur f t pre rest x a :
  In (f, t) (chunks (Z.max 0 (cur - CHRONICLES_LOOKBACK)) cur) ->
  queryChronicleAdded L f t = inr (pre ++ rest) ->
  enriched L pre -> In x pre -> args x = Some a -> retained x = true ->
  In (ca_txHash a) (map fst (chronicles_map L cur)).
Proof.
  intros Hch Hq Hen Hx Ha Hr. unfold chronicles_map. rewrite scan_fold.
  apply in_split in Hch. destruct Hch as [l1 [l2 ->]].
  rewrite fold_left_app. simpl. apply chronicles_fold_grows.
  unfold chronicles_chunk at 1. rewrite Hq.
  now apply (process_events_prefix L rest pre _ x a).
Qed.

Lemma chronicles_list_has L cur k :
  In k (map fst (chronicles_map L cur)) ->
  In k (map txHash (chronicles_list L cur)).
Proof.
  intros H. unfold chronicles_list.
  apply (Permutation_in _ (Permutation_map _ (Permutation_sym (sort_desc_perm _ _)))).
  unfold JS.map_values. rewrite map_map.
  pose proof (chronicles_map_keyed L cur) as Hk. unfold keyed in Hk.
  rewrite Forall_forall in Hk.
  apply in_map_iff in H. destruct H as [kv [<- Hkv]].
  apply in_map_iff. exists kv. split; [now apply Hk|exact Hkv].
Qed.

End AggregatorFacts.

(* ================================================================== *)
(** ** The Event Aggregator: properties *)
(* ================================================================== *)
Module AggregatorSpec.
Import Aggregator ScanFacts JSFacts AggregatorFacts Examples.

(** C2.  For every block range [startBlock .. currentBlock] the scan loop
    queries consecutive inclusive chunks of width 1000, the last one clipped
    to [currentBlock]; every block of the range lies in exactly one chunk and
    no block outside the range is queried; the loop is the fold of its body
    over these chunks; and on a deterministic ledger that answers every query
    the logs of the chunks, put together, are the logs of one query over the
    whole range (same logs, same multiplicities).  For the leaderboard this
    gives the same set of addresses as a single query would. *)
Theorem chunked_scan_is_transparent :
  forall (startBlock currentBlock : Z),
    let issued := chunks startBlock currentBlock in
    CHUNK_SIZE = 1000
    /\ consecutive_chunks 1000 startBlock currentBlock issued
    /\ (forall b,
          times_queried b issued
          = if in_range startBlock currentBlock b then 1%nat else 0%nat)
    /\ (forall (S : Type) (body : Z -> Z -> S -> S) (acc : S),
          scan body startBlock currentBlock acc
          = fold_left (fun a ch => body (fst ch) (snd ch) a) issued acc)
    /\ (forall (Args : Type) (logs : list (Log Args)),
          Permutation
            (flat_map (fun ch => query_logs logs (fst ch) (snd ch)) issued)
            (query_logs logs startBlock currentBlock)
          /\ forall l,
               In l (flat_map (fun ch => query_logs logs (fst ch) (snd ch)) issued)
               <-> In l (query_logs logs startBlock currentBlock))
    /\ (forall requests added counter stamp a,
          In a (leaderboard_addresses
                  (deterministic_ledger currentBlock requests added counter stamp)
                  currentBlock)
          <-> In a (fold_left add_user
                      (query_logs requests
                         (Z.max 0 (currentBlock - LEADERBOARD_LOOKBACK))
                         currentBlock) [])).
Proof.
  intros startBlock currentBlock issued. subst issued.
  split; [reflexivity|].
  split; [apply chunks_consecutive|].
  split; [intros b; apply chunks_partition|].
  split; [intros S body acc; apply scan_fold|].
  split.
  - intros Args logs. pose proof (chunked_query logs currentBlock startBlock) as P.
    split; [exact P|]. intros l. split; intros H.
    + eapply Permutation_in; [exact P|exact H].
    + eapply Permutation_in; [apply Permutation_sym, P|exact H].
  - intros requests added counter stamp a.
    rewrite In_leaderboard_addresses, In_fold_add_user.
    set (s := Z.max 0 (currentBlock - LEADERBOARD_LOOKBACK)).
    pose proof (chunked_query requests currentBlock s) as P.
    split.
    + intros [ch [Hch [events [ev [Hq [Hev Hu]]]]]]. right. exists ev.
      split; [|exact Hu]. simpl in Hq. inversion Hq; subst events.
      eapply Permutation_in; [exact P|]. apply in_flat_map. now exists ch.
    + intros [[]|[ev [Hev Hu]]].
      eapply Permutation_in in Hev; [|apply Permutation_sym, P].
      apply in_flat_map in Hev. destruct Hev as [ch [Hch Hev]].
      exists ch. split; [exact Hch|].
      exists (query_logs requests (fst ch) (snd ch)), ev. now repeat split.
Qed.

(** C6.  In both endpoints a rejected chunk query is absorbed: the response
    is the one the endpoint gives when that chunk holds no log, so it is
    built from the logs of every chunk whose query succeeded (each user of
    such a log is looked up and, if it has points, is on the leaderboard
    unless ten entries with at least as many points fill it; each retained
    chronicle log of such a chunk, its timestamps fetched, is in the list).
    The status is 500 exactly when the block height cannot be read. *)
Theorem chunk_failures_are_absorbed :
  forall L : LedgerClient,
    (statusCode (leaderboard L) = 500 <-> exists e, getBlockNumber L = inl e)
    /\ (statusCode (chronicles_endpoint L) = 500
        <-> exists e, getBlockNumber L = inl e)
    /\ leaderboard L = leaderboard (absorb_failures L)
    /\ chronicles_endpoint L = chronicles_endpoint (absorb_failures L)
    /\ (forall cur, getBlockNumber L = inr cur ->
          leaderboard L = Ok200 (leaderboard_top L cur)
          /\ chronicles_endpoint L
             = Ok200 {| total := List.length (chronicles_list L cur);
                        chronicles := chronicles_list L cur |})
    /\ (forall cur f t events ev u,
          In (f, t) (chunks (Z.max 0 (cur - LEADERBOARD_LOOKBACK)) cur) ->
          queryRequestSubmitted L f t = inr events ->
          In ev events -> event_user ev = Some u ->
          In u (leaderboard_addresses L cur)
          /\ (0 < points (fetch_points L u) ->
              In (fetch_points L u) (leaderboard_top L cur)
              \/ (List.length (leaderboard_top L cur) = 10%nat
                  /\ Forall (fun e => points (fetch_points L u) <= points e)
                       (leaderboard_top L cur))))
    /\ (forall cur f t events ev a,
          In (f, t) (chunks (Z.max 0 (cur - CHRONICLES_LOOKBACK)) cur) ->
          queryChronicleAdded L f t = inr events -> enriched L events ->
          In ev events -> args ev = Some a -> retained ev = true ->
          In (ca_txHash a) (map txHash (chronicles_list L cur))).
Proof.
  intros L.
  split.
  { unfold leaderboard. destruct (getBlockNumber L) as [e|cur]; simpl.
    - split; [intros _; now exists e|reflexivity].
    - split; [discriminate|intros [e H]; discriminate]. }
  split.
  { unfold chronicles_endpoint. destruct (getBlockNumber L) as [e|cur]; simpl.
    - split; [intros _; now exists e|reflexivity].
    - split; [discriminate|intros [e H]; discriminate]. }
  split; [symmetry; apply leaderboard_absorbs|].
  split; [symmetry; apply chronicles_absorbs|].
  split.
  { intros cur H. unfold leaderboard, chronicles_endpoint. now rewrite H. }
  split.
  - intros cur f t events ev u Hch Hq Hev Hu.
    assert (Hin : In u (leaderboard_addresses L cur)).
    { apply In_leaderboard_addresses. exists (f, t). split; [exact Hch|].
      now exists events, ev. }
    split; [exact Hin|]. intros Hpos. now apply leaderboard_top_keeps.
  - intros cur f t events ev a Hch Hq Hen Hev Ha Hr.
    apply chronicles_list_has.
    apply (chronicles_map_has L cur f t events [] ev a); try assumption.
    now rewrite app_nil_r.
Qed.

(** C6, on a ledger whose middle chunk is rejected: the response has status
    200 and holds the users and chronicles of the first and of the last
    chunk. *)
Lemma chunk_failures_are_absorbed_witness :
  queryRequestSubmitted ledger_2500 1000 1999 = inl "query timeout"
  /\ statusCode (leaderboard ledger_2500) = 200
  /\ In "0xC" (leaderboard_addresses ledger_2500 2500)
  /\ In {| address := "0xC"; points := 12 |} (leaderboard_top ledger_2500 2500)
  /\ In "0xh4" (map txHash (chronicles_list ledger_2500 2500)).
Proof.
  destruct (chunk_failures_are_absorbed ledger_2500)
    as [H500 [_ [_ [_ [_ [Hlb Hch]]]]]].
  split; [reflexivity|].
  split.
  { destruct (statusCode (leaderboard ledger_2500) =? 200) eqn:E;
      [now apply Z.eqb_eq in E|discriminate E]. }
  destruct (Hlb 2500 2000 2500 [request 2000 0 "0xC"; request 2001 0 "0xA"]
              (request 2000 0 "0xC") "0xC") as [Hin Htop].
  { vm_compute. right. right. left. reflexivity. }
  { reflexivity. }
  { left. reflexivity. }
  { reflexivity. }
  split; [exact Hin|].
  split.
  { destruct Htop as [H|[H _]]; [reflexivity|exact H|discriminate H]. }
  apply (Hch 2500 2000 2500 [added 2100 0 "0xh4"] (added 2100 0 "0xh4")
           {| ca_txHash := "0xh4"; ca_requester := "0xA";
              ca_narrative := "A transfer of 1 STT." |}).
  - vm_compute. right. right. left. reflexivity.
  - reflexivity.
  - intros x [<-|[]] _. eexists. reflexivity.
  - left. reflexivity.
  - reflexivity.
  - reflexivity.
Defined.

(** C7, as amended.  The leaderboard has at most 10 entries, every entry has
    more than 0 points, the entries are in descending order of points, and
    the points of an entry are [Number] of the ledger's [userPoints] of its
    address: the counter itself when it is below 2^53, the nearest double
    otherwise.  On a ledger whose counters are all below 2^53 every entry
    carries the ledger's counter.  The logs of the 10,000-block window only
    decide which addresses are looked up: the address of an entry is the
    user of a [RequestSubmitted] log of a chunk of that window. *)
Theorem leaderboard_top10_reconciles :
  forall (L : LedgerClient) (entries : list LeaderboardEntry),
    leaderboard L = Ok200 entries ->
    (List.length entries <= 10)%nat
    /\ Forall (fun e => 0 < points e) entries
    /\ JS.descending points entries
    /\ Forall (fun e =>
                 exists p,
                   userPoints L (address e) = inr p
                   /\ points e = JS.Number p
                   /\ (p < JS.MAX_SAFE -> points e = p)) entries
    /\ ((forall a p, userPoints L a = inr p -> 0 <= p < JS.MAX_SAFE) ->
        Forall (fun e => userPoints L (address e) = inr (points e)) entries)
    /\ exists cur,
         getBlockNumber L = inr cur
         /\ Forall (fun e =>
                      exists ch,
                        In ch (chunks (Z.max 0 (cur - 10000)) cur)
                        /\ collected_in L (address e) ch) entries.
Proof.
  intros L entries Hresp. unfold leaderboard in Hresp.
  destruct (getBlockNumber L) as [e|cur]; [discriminate|].
  inversion Hresp; subst entries; clear Hresp.
  split; [apply firstn_le_length|].
  split.
  { apply Forall_forall. intros e He. now apply In_leaderboard_top in He. }
  split; [apply leaderboard_top_descending|].
  split.
  { apply Forall_forall. intros e He.
    destruct (In_leaderboard_top _ _ _ He) as [_ [_ [p [Hp Hn]]]].
    exists p. split; [exact Hp|]. split; [exact Hn|].
    intros Hlt. rewrite Hn. now apply Number_exact. }
  split.
  { intros Hsafe. apply Forall_forall. intros e He.
    destruct (In_leaderboard_top _ _ _ He) as [_ [_ [p [Hp Hn]]]].
    rewrite Hp, Hn. f_equal. symmetry. apply Number_exact.
    now apply (Hsafe (address e)). }
  exists cur. split; [reflexivity|].
  apply Forall_forall. intros e He.
  destruct (In_leaderboard_top _ _ _ He) as [_ [Ha _]].
  now apply In_leaderboard_addresses in Ha.
Qed.

(** C7 as amended, on counters [0xA]: 50, [0xB]: 0, [0xC]: 12. *)
Lemma leaderboard_top10_reconciles_witness :
  leaderboard ledger_2500
  = Ok200 [{| address := "0xA"; points := 50 |};
           {| address := "0xC"; points := 12 |}]
  /\ Forall (fun e => userPoints ledger_2500 (address e) = inr (points e))
       [{| address := "0xA"; points := 50 |};
        {| address := "0xC"; points := 12 |}].
Proof.
  split; [reflexivity|].
  destruct (leaderboard_top10_reconciles ledger_2500
              [{| address := "0xA"; points := 50 |};
               {| address := "0xC"; points := 12 |}] eq_refl)
    as [_ [_ [_ [_ [Hsafe _]]]]].
  apply Hsafe.
  intros a p. simpl. unfold JS.MAX_SAFE.
  destruct (String.eqb a "0xA"); [|destruct (String.eqb a "0xC")];
    intros H; inversion H; subst p; simpl; lia.
Defined.

(** C7 as stated fails: the counter of [0xA] is 2^53 + 1, the leaderboard
    shows 2^53 for it. *)
Lemma large_counter_is_rounded :
  userPoints ledger_large_counter "0xA" = inr 9007199254740993
  /\ leaderboard ledger_large_counter
     = Ok200 [{| address := "0xA"; points := 9007199254740992 |}]
  /\ ~ (forall entries,
          leaderboard ledger_large_counter = Ok200 entries ->
          Forall (fun e =>
                    userPoints ledger_large_counter (address e)
                    = inr (points e)) entries).
Proof.
  split; [reflexivity|]. split; [reflexivity|].
  intros H. specialize (H _ eq_refl).
  inversion H as [|e l He _]. discriminate He.
Qed.

(** C8, as amended.  A rejected [getBlock] of a retained event ends the loop
    over its chunk: that event and every later event of the chunk leave no
    entry (the chunk adds what the events before the failing one add).  The
    retained events that come before any failure in their chunk, in this or
    in any other chunk of the scan, are in the returned list. *)
Theorem enrichment_failure_skips_rest_of_chunk :
  forall (L : LedgerClient) (cur : Z),
    getBlockNumber L = inr cur ->
    (forall f t pre ev post e m,
        queryChronicleAdded L f t = inr (pre ++ ev :: post) ->
        enriched L pre -> retained ev = true ->
        getBlockTimestamp L ev = inl e ->
        chronicles_chunk L f t m = fst (process_events L pre m))
    /\ (forall f t pre rest x a,
          In (f, t) (chunks (Z.max 0 (cur - CHRONICLES_LOOKBACK)) cur) ->
          queryChronicleAdded L f t = inr (pre ++ rest) ->
          enriched L pre ->
          In x pre -> args x = Some a -> retained x = true ->
          exists body,
            chronicles_endpoint L = Ok200 body
            /\ In (ca_txHash a) (map txHash (chronicles body))).
Proof.
  intros L cur Hcur. split.
  - intros f t pre ev post e m Hq Hen Hr He.
    unfold chronicles_chunk. rewrite Hq.
    now rewrite (process_events_failure L ev post e pre m Hen Hr He).
  - intros f t pre rest x a Hch Hq Hen Hx Ha Hr.
    unfold chronicles_endpoint. rewrite Hcur. eexists. split; [reflexivity|].
    simpl. apply chronicles_list_has.
    now apply (chronicles_map_has L cur f t pre rest x a).
Qed.

(** C8 as amended, on a chunk of three logs of which the second cannot be
    enriched: the chunk adds the first log only, and the first log and the
    log of the last chunk are in the response. *)
Lemma enrichment_failure_skips_rest_of_chunk_witness :
  chronicles_chunk ledger_2500 0 999 []
  = fst (process_events ledger_2500 [added 20 0 "0xh1"] [])
  /\ (exists body,
        chronicles_endpoint ledger_2500 = Ok200 body
        /\ In "0xh1" (map txHash (chronicles body)))
  /\ (exists body,
        chronicles_endpoint ledger_2500 = Ok200 body
        /\ In "0xh4" (map txHash (chronicles body))).
Proof.
  destruct (enrichment_failure_skips_rest_of_chunk ledger_2500 2500 eq_refl)
    as [Hfail Hkept].
  split.
  { apply (Hfail 0 999 [added 20 0 "0xh1"] (added 30 1 "0xh2")
             [added 40 2 "0xh3"] "failed to find block" []).
    - reflexivity.
    - intros x [<-|[]] _. eexists. reflexivity.
    - reflexivity.
    - reflexivity. }
  split.
  - apply (Hkept 0 999 [added 20 0 "0xh1"]
             [added 30 1 "0xh2"; added 40 2 "0xh3"] (added 20 0 "0xh1")
             {| ca_txHash := "0xh1"; ca_requester := "0xA";
                ca_narrative := "A transfer of 1 STT." |}).
    + vm_compute. left. reflexivity.
    + reflexivity.
    + intros x [<-|[]] _. eexists. reflexivity.
    + left. reflexivity.
    + reflexivity.
    + reflexivity.
  - apply (Hkept 2000 2500 [added 2100 0 "0xh4"] [] (added 2100 0 "0xh4")
             {| ca_txHash := "0xh4"; ca_requester := "0xA";
                ca_narrative := "A transfer of 1 STT." |}).
    + vm_compute. right. right. left. reflexivity.
    + reflexivity.
    + intros x [<-|[]] _. eexists. reflexivity.
    + left. reflexivity.
    + reflexivity.
    + reflexivity.
Defined.

(** C8 as stated fails: the chunk [0..0] holds two retained logs; the block of
    the first cannot be fetched, the block of the second can, yet the second
    is not in the response either. *)
Lemma later_event_of_chunk_is_dropped :
  queryChronicleAdded ledger_two_logs 0 0
  = inr [added 0 0 "0xh1"; added 0 1 "0xh2"]
  /\ retained (added 0 1 "0xh2") = true
  /\ getBlockTimestamp ledger_two_logs (added 0 0 "0xh1")
     = inl "failed to find block"
  /\ getBlockTimestamp ledger_two_logs (added 0 1 "0xh2") = inr 1700000000
  /\ chronicles_endpoint ledger_two_logs
     = Ok200 {| total := 0; chronicles := [] |}
  /\ ~ (exists body,
          chronicles_endpoint ledger_two_logs = Ok200 body
          /\ In "0xh2" (map txHash (chronicles body))).
Proof.
  repeat split; try reflexivity.
  intros [body [H Hin]]. vm_compute in H. inversion H; subst body.
  destruct Hin.
Qed.

End AggregatorSpec.

(* ================================================================== *)
(** ** Facts about runs *)
(* ================================================================== *)
Module RunFacts.
Import Effects Effects.Notations Orchestrator.

Lemma run_bind W {A B : Type} (p : Server A) (f : A -> Server B) : forall tr,
  run W (bind p f) tr
  = match run W p tr with
    | (inr a, tr') => run W (f a) tr'
    | (inl e, tr') => (inl e, tr')
    end.
Proof.
  induction p as [a|e|X c k IH]; intros tr; simpl; try reflexivity.
  destruct (answer W c tr) as [x tr']. apply IH.
Qed.

Lemma run_try_catch W {R : Type} (p : Server R) (h : Thrown -> Server R) :
  forall tr,
    run W (try_catch p h) tr
    = match run W p tr with
      | (inr r, tr') => (inr r, tr')
      | (inl e, tr') => run W (h e) tr'
      end.
Proof.
  induction p as [a|e|X c k IH]; intros tr; simpl; try reflexivity.
  destruct (answer W c tr) as [x tr']. apply IH.
Qed.

Lemma count_app p l1 l2 : count p (l1 ++ l2) = (count p l1 + count p l2)%nat.
Proof. unfold count. now rewrite filter_app, length_app. Qed.

Lemma elapsed_app l1 l2 : elapsed (l1 ++ l2) = elapsed l1 + elapsed l2.
Proof.
  unfold elapsed. induction l1 as [|c l1 IH]; simpl; [reflexivity|].
  rewrite IH. lia.
Qed.

Lemma reported_app l1 l2 : reported (l1 ++ l2) = reported l1 ++ reported l2.
Proof. unfold reported. apply flat_map_app. Qed.

(** One attempt: the read, then the confirmation line, or the delay (after
    the progress line of every tenth attempt), or, when the read is rejected,
    the error line and no delay. *)
Lemma wait_attempt_run W h a M d tr :
  run W (wait_attempt h a M d) tr
  = match pendingReads W (count is_read tr) with
    | inl e =>
        (inr None,
         tr ++ [CPendingRequests h;
                CConsole (LogError "Checking pending request" e)])
    | inr v =>
        if is_pending v then
          (inr (Some true),
           tr ++ [CPendingRequests h; CConsole (LogConfirmed a d)])
        else
          (inr None,
           tr ++ CPendingRequests h
              :: (if Nat.eqb (Nat.modulo a 10) 0
                  then [CConsole (LogWaiting a M)] else [])
              ++ [CSetTimeout d])
    end.
Proof.
  unfold wait_attempt. generalize (Nat.eqb (Nat.modulo a 10) 0). intros tenth.
  simpl. destruct (pendingReads W (count is_read tr)) as [e|v]; simpl.
  - now rewrite <- app_assoc.
  - destruct (is_pending v); simpl.
    + now rewrite <- app_assoc.
    + destruct tenth; simpl; now rewrite <- ?app_assoc.
Qed.

Lemma zero_reads_S W i0 n :
  zero_reads W i0 (S n)
  = ((if answered_zero (pendingReads W i0) then 1 else 0)
     + zero_reads W (S i0) n)%nat.
Proof.
  unfold zero_reads. simpl.
  now destruct (answered_zero (pendingReads W i0)).
Qed.

(** The loop never throws, and [Waited] describes what it did. *)
Lemma wait_loop_run W h M d : forall n a tr,
  exists b calls,
    run W (wait_loop n h a M d) tr = (inr b, tr ++ calls)
    /\ Waited W d a n (count is_read tr) b calls.
Proof.
  induction n as [|n IH]; intros a tr.
  - exists false, []. simpl. rewrite app_nil_r. split; [reflexivity|].
    constructor; simpl; try reflexivity; try lia; try discriminate.
    + intros j Hj. unfold count in Hj. simpl in Hj. lia.
    + repeat split.
  - cbn [wait_loop]. rewrite run_bind, wait_attempt_run.
    set (i0 := count is_read tr).
    destruct (pendingReads W i0) as [e|v] eqn:Hread.
    + (* the read is rejected: no delay, next attempt *)
      set (step := [CPendingRequests h;
                    CConsole (LogError "Checking pending request" e)]).
      destruct (IH (S a) (tr ++ step)) as [b [calls [Hrun Hw]]].
      exists b, (step ++ calls). rewrite Hrun, <- app_assoc.
      split; [reflexivity|].
      rewrite count_app in Hw. change (count is_read step) with 1%nat in Hw.
      fold i0 in Hw. destruct Hw as [H1 H2 H3 H4 H5 H6 H7 [H8 [H9 [H10 H11]]]].
      constructor; rewrite ?count_app, ?elapsed_app, ?reported_app;
        change (count is_read step) with 1%nat;
        change (count is_delay step) with 0%nat;
        change (elapsed step) with 0;
        change (reported step) with (@nil Z);
        change (count is_lookup step) with 0%nat;
        change (count is_ai_call step) with 0%nat;
        change (count is_commit step) with 0%nat;
        change (count is_receipt step) with 0%nat; simpl.
      * lia.
      * intros [|j] Hj.
        -- rewrite Nat.add_0_r, Hread. reflexivity.
        -- replace (i0 + S j)%nat with (i0 + 1 + j)%nat by lia.
           apply H2. lia.
      * intros Hb. destruct (H3 Hb) as [m [Hm Hobs]]. exists (S m).
        split; [lia|]. now replace (i0 + S m)%nat with (i0 + 1 + m)%nat by lia.
      * intros Hb. rewrite (H4 Hb). reflexivity.
      * rewrite zero_reads_S, Hread. simpl.
        now replace (S i0) with (i0 + 1)%nat by lia.
      * exact H6.
      * rewrite H7. destruct b; [|reflexivity].
        do 2 f_equal. lia.
      * repeat split; assumption.
    + destruct (is_pending v) eqn:Hv.
      * (* the request is there: return true *)
        exists true, [CPendingRequests h; CConsole (LogConfirmed a d)].
        split; [reflexivity|].
        constructor; simpl; try reflexivity; try discriminate.
        -- unfold count. simpl. lia.
        -- intros j Hj. unfold count in Hj. simpl in Hj. lia.
        -- intros _. exists O. split; [reflexivity|].
           rewrite Nat.add_0_r, Hread. exact Hv.
        -- change (count is_read [CPendingRequests h; CConsole (LogConfirmed a d)])
             with 1%nat.
           rewrite zero_reads_S, Hread. simpl. rewrite Hv. reflexivity.
        -- unfold elapsed, count. simpl. lia.
        -- unfold reported, count. simpl. do 2 f_equal. lia.
        -- repeat split.
      * (* the zero address: delay, next attempt *)
        set (step := CPendingRequests h
                     :: (if Nat.eqb (Nat.modulo a 10) 0
                         then [CConsole (LogWaiting a M)] else [])
                     ++ [CSetTimeout d]).
        assert (Hs : count is_read step = 1%nat /\ count is_delay step = 1%nat
                     /\ elapsed step = d /\ reported step = []
                     /\ count is_lookup step = 0%nat
                     /\ count is_ai_call step = 0%nat
                     /\ count is_commit step = 0%nat
                     /\ count is_receipt step = 0%nat).
        { unfold step. destruct (Nat.eqb (Nat.modulo a 10) 0);
            unfold count, elapsed, reported; simpl; repeat split; lia. }
        destruct Hs as [S1 [S2 [S3 [S4 [S5 [S6 [S7 S8]]]]]]].
        destruct (IH (S a) (tr ++ step)) as [b [calls [Hrun Hw]]].
        exists b, (step ++ calls). rewrite Hrun, <- app_assoc.
        split; [reflexivity|].
        rewrite count_app, S1 in Hw. fold i0 in Hw.
        destruct Hw as [H1 H2 H3 H4 H5 H6 H7 [H8 [H9 [H10 H11]]]].
        constructor; rewrite ?count_app, ?elapsed_app, ?reported_app,
          ?S1, ?S2, ?S3, ?S4, ?S5, ?S6, ?S7, ?S8; simpl.
        -- lia.
        -- intros [|j] Hj.
           ++ rewrite Nat.add_0_r, Hread. exact Hv.
           ++ replace (i0 + S j)%nat with (i0 + 1 + j)%nat by lia.
              apply H2. lia.
        -- intros Hb. destruct (H3 Hb) as [m [Hm Hobs]]. exists (S m).
           split; [lia|].
           now replace (i0 + S m)%nat with (i0 + 1 + m)%nat by lia.
        -- intros Hb. rewrite (H4 Hb). reflexivity.
        -- rewrite zero_reads_S, Hread. simpl. rewrite Hv. simpl.
           rewrite H5. now replace (S i0) with (i0 + 1)%nat by lia.
        -- rewrite H6. lia.
        -- rewrite H7. destruct b; [|reflexivity]. do 2 f_equal. lia.
        -- repeat split; assumption.
Qed.

End RunFacts.

(* ================================================================== *)
(** ** Facts about the handler of analyze-transaction *)
(* ================================================================== *)
Module OrchestratorFacts.
Import Effects Effects.Notations Orchestrator RunFacts.

Lemma count_cons p c l :
  count p (c :: l) = ((if p c then 1 else 0) + count p l)%nat.
Proof. unfold count. simpl. now destruct (p c). Qed.

Lemma count_nil p : count p [] = 0%nat.
Proof. reflexivity. Qed.

(** Count the calls of a trace given as appended pieces. *)
Ltac tally :=
  repeat (rewrite count_app || rewrite count_cons || rewrite count_nil);
  cbn [is_read is_delay is_lookup is_ai_call is_commit is_receipt].


Lemma zero_reads_le W n : forall i0, (zero_reads W i0 n <= n)%nat.
Proof.
  induction n as [|n IH]; intros i0; [reflexivity|].
  rewrite zero_reads_S. specialize (IH (S i0)).
  destruct (answered_zero (pendingReads W i0)); lia.
Qed.

Lemma zero_reads_none W n : forall i0,
  (forall j, (j < n)%nat -> answered_zero (pendingReads W (i0 + j)) = false) ->
  zero_reads W i0 n = 0%nat.
Proof.
  induction n as [|n IH]; intros i0 H; [reflexivity|].
  rewrite zero_reads_S. rewrite <- (Nat.add_0_r i0) at 1.
  rewrite (H O) by lia. rewrite IH; [reflexivity|].
  intros j Hj. replace (S i0 + j)%nat with (i0 + S j)%nat by lia.
  apply H. lia.
Qed.

Lemma zero_reads_all W n : forall i0,
  (forall j, (j < n)%nat -> answered_zero (pendingReads W (i0 + j)) = true) ->
  zero_reads W i0 n = n.
Proof.
  induction n as [|n IH]; intros i0 H; [reflexivity|].
  rewrite zero_reads_S. rewrite <- (Nat.add_0_r i0) at 1.
  rewrite (H O) by lia. rewrite IH; [reflexivity|].
  intros j Hj. replace (S i0 + j)%nat with (i0 + S j)%nat by lia.
  apply H. lia.
Qed.

Lemma console_count p logs :
  (forall l, p (CConsole l) = false) ->
  forallb is_console logs = true -> count p logs = 0%nat.
Proof.
  intros Hp. unfold count. induction logs as [|c logs IH]; simpl; [reflexivity|].
  intros H. apply andb_prop in H. destruct H as [Hc Hl].
  destruct c; try discriminate. rewrite Hp. now apply IH.
Qed.

Lemma zero_reads_snoc W i0 n :
  zero_reads W i0 (S n)
  = (zero_reads W i0 n
     + (if answered_zero (pendingReads W (i0 + n)) then 1 else 0))%nat.
Proof.
  unfold zero_reads. rewrite seq_S, filter_app, length_app. simpl.
  now destruct (answered_zero (pendingReads W (i0 + n))).
Qed.

Lemma ai_run W tx tr :
  exists r logs,
    run W (analyzeTransactionWithAI tx) tr = (r, tr ++ CChatCompletion tx :: logs)
    /\ forallb is_console logs = true
    /\ (generation_fails (completions W (count is_ai_call tr)) = true
        <-> exists e, r = inl e).
Proof.
  unfold analyzeTransactionWithAI, generation_fails, first_message. simpl.
  destruct (completions W (count is_ai_call tr)) as [e|response]; simpl.
  { exists (inl e), []. repeat split; eauto. }
  destruct (ok response); simpl.
  2:{ eexists (inl _), [_]. rewrite <- app_assoc. repeat split; eauto. }
  destruct (json response) as [e|data]; simpl.
  { exists (inl e), []. repeat split; eauto. }
  destruct (choices data) as [[|[choice|] rest]|]; simpl;
    try (eexists (inl _), [_]; rewrite <- app_assoc; repeat split; eauto; fail).
  destruct (message choice) as [m|]; simpl;
    try (eexists (inl _), [_]; rewrite <- app_assoc; repeat split; eauto; fail).
  destruct (content m) as [text|]; simpl.
  - exists (inr (JS.trim text)), []. repeat split; try discriminate.
    intros [e H]. discriminate.
  - eexists (inl _), []. repeat split; eauto.
Qed.

Section Handler.
Local Opaque analyzeTransactionWithAI.

Lemma analyze_run W h tr0 :
  exists resp calls,
    run W (analyze_transaction h) tr0 = (inr resp, tr0 ++ calls)
    /\ Handled W tr0 resp calls.
Proof.
  unfold analyze_transaction.
  destruct (negb (JS.truthy h) || negb (JS.isHexString h 32)).
  { eexists _, []. rewrite app_nil_r. split; [reflexivity|].
    constructor; unfold count; simpl; try lia; discriminate. }
  rewrite run_try_catch, run_bind. unfold waitForPendingRequest.
  destruct (wait_loop_run W h MAX_ATTEMPTS DELAY_MS MAX_ATTEMPTS 1 tr0)
    as [b [cw [Hrun Hw]]].
  rewrite Hrun. destruct Hw as [_ _ _ _ _ _ _ [Wl [Wa [Wc Wr]]]].
  destruct b; simpl.
  2:{ eexists _, (cw ++ [_]). rewrite <- app_assoc. split; [reflexivity|].
      constructor; rewrite ?count_app, ?Wa, ?Wc; unfold count; simpl; try lia;
        discriminate. }
  rewrite count_app, Wl, Nat.add_0_r.
  destruct (lookups W (count is_lookup tr0)) as [e|[tx|]]; simpl.
  { eexists _, (cw ++ [_; _]). rewrite <- !app_assoc. split; [reflexivity|].
    constructor; rewrite ?count_app, ?Wa, ?Wc; unfold count; simpl; try lia;
      discriminate. }
  2:{ eexists _, (cw ++ [_]). rewrite <- !app_assoc. split; [reflexivity|].
      constructor; rewrite ?count_app, ?Wa, ?Wc; unfold count; simpl; try lia;
        discriminate. }
  rewrite run_bind.
  match goal with |- context [run W (analyzeTransactionWithAI tx) ?tr] =>
    destruct (ai_run W tx tr) as [r [logs [Hai [Hlogs Hfail]]]]; rewrite Hai end.
  rewrite !count_app, Wa in Hfail. simpl in Hfail. rewrite !Nat.add_0_r in Hfail.
  assert (La : count is_ai_call logs = 0%nat) by now apply console_count.
  assert (Lc : count is_commit logs = 0%nat) by now apply console_count.
  assert (Lr : count is_receipt logs = 0%nat) by now apply console_count.
  destruct r as [e|narrative].
  { eexists _, _. split; [rewrite <- !app_assoc; reflexivity|].
    constructor; tally; rewrite ?Wa, ?Wc, ?La, ?Lc; try lia.
    intros _ _. split; [reflexivity|]. now exists e. }
  assert (Hgen : generation_fails (completions W (count is_ai_call tr0)) = false).
  { destruct (generation_fails _); [|reflexivity].
    destruct (proj1 Hfail eq_refl) as [e He]. discriminate. }
  simpl. tally. rewrite Wc, Lc, !Nat.add_0_r.
  destruct (submissions W (count is_commit tr0)) as [e|txResponse] eqn:Hsub; simpl.
  { eexists _, _. split; [rewrite <- !app_assoc; simpl; reflexivity|].
    constructor; tally; rewrite ?Wa, ?Wc, ?La, ?Lc; try lia.
    - intros _ H. rewrite Hgen in H. discriminate.
    - intros _ e' Hcf. unfold commit_fails in Hcf. rewrite Hsub in Hcf.
      destruct Hcf as [H|[t [H _]]]; [now inversion H|discriminate]. }
  tally. rewrite Wr, Lr, !Nat.add_0_r.
  destruct (receipts W (count is_receipt tr0)) as [e|[]] eqn:Hrec; simpl.
  { eexists _, _. split; [rewrite <- !app_assoc; simpl; reflexivity|].
    constructor; tally; rewrite ?Wa, ?Wc, ?La, ?Lc; try lia.
    - intros _ H. rewrite Hgen in H. discriminate.
    - intros _ e' Hcf. unfold commit_fails in Hcf. rewrite Hsub, Hrec in Hcf.
      destruct Hcf as [H|[t [_ H]]]; [discriminate|now inversion H]. }
  eexists _, _. split; [rewrite <- !app_assoc; simpl; reflexivity|].
  constructor; tally; rewrite ?Wa, ?Wc, ?La, ?Lc; try lia.
  - intros _ H. rewrite Hgen in H. discriminate.
  - intros _ e' Hcf. unfold commit_fails in Hcf. rewrite Hsub, Hrec in Hcf.
    destruct Hcf as [H|[t [_ H]]]; discriminate.
Qed.

End Handler.

End OrchestratorFacts.

(* ================================================================== *)
(** ** The Confirmation Waiter and the Orchestrator: properties *)
(* ================================================================== *)
Module OrchestratorSpec.
Import Effects Effects.Notations Orchestrator RunFacts OrchestratorFacts Examples.

(** C3.  For every sequence of answers to the pending-request reads,
    [waitForPendingRequest] with [maxAttempts = 60] returns; it returns
    [true] exactly when some attempt [k <= 60] sees a non-zero pending
    requester, and then it has made [k] reads for the first such [k]; when no
    attempt sees one it has made exactly 60 reads and returns [false]. *)
Theorem waiter_returns_at_first_pending_attempt :
  forall (W : World) (txHash : string),
  exists (b : bool) (calls : list Call),
    run W (waitForPendingRequest txHash 60 2000) [] = (inr b, calls)
    /\ (b = true
        <-> exists k, (1 <= k <= 60)%nat
                      /\ observes_pending (attempt_read W k) = true)
    /\ (forall k,
          (1 <= k <= 60)%nat ->
          observes_pending (attempt_read W k) = true ->
          (forall j, (1 <= j < k)%nat ->
                     observes_pending (attempt_read W j) = false) ->
          b = true /\ count is_read calls = k)
    /\ ((forall k, (1 <= k <= 60)%nat ->
                   observes_pending (attempt_read W k) = false) ->
        b = false /\ count is_read calls = 60%nat).
Proof.
  intros W h. unfold waitForPendingRequest, attempt_read.
  destruct (wait_loop_run W h 60 2000 60 1 []) as [b [calls [Hrun Hw]]].
  exists b, calls. split; [exact Hrun|].
  destruct Hw as [Hle Hbefore Hhit Hmiss _ _ _ _]. simpl in *.
  assert (Hnone : b = false ->
                  forall k, (1 <= k <= 60)%nat ->
                            observes_pending (pendingReads W (k - 1)) = false).
  { intros Hb k Hk. apply Hbefore. rewrite Hb, (Hmiss Hb). lia. }
  split; [|split].
  - split.
    + intros Hb. destruct (Hhit Hb) as [m [Hm Hobs]]. exists (S m).
      split; [lia|]. now replace (S m - 1)%nat with m by lia.
    + intros [k [Hk Hobs]]. destruct b; [reflexivity|].
      rewrite (Hnone eq_refl k Hk) in Hobs. discriminate.
  - intros k Hk Hobs Hfirst.
    assert (Hb : b = true).
    { destruct b; [reflexivity|].
      rewrite (Hnone eq_refl k Hk) in Hobs. discriminate. }
    split; [exact Hb|]. destruct (Hhit Hb) as [m [Hm Hm_obs]].
    rewrite Hm. subst b.
    destruct (Nat.lt_trichotomy (S m) k) as [Hlt|[Heq|Hgt]]; [|exact Heq|].
    + specialize (Hfirst (S m)). replace (S m - 1)%nat with m in Hfirst by lia.
      rewrite Hfirst in Hm_obs by lia. discriminate.
    + rewrite (Hbefore (k - 1)%nat) in Hobs by lia. discriminate.
  - intros Hall. destruct b.
    + destruct (Hhit eq_refl) as [m [Hm Hobs]].
      specialize (Hall (S m)). replace (S m - 1)%nat with m in Hall by lia.
      rewrite Hall in Hobs by lia. discriminate.
    + split; [reflexivity|]. now apply Hmiss.
Qed.

(** C3, when the request shows at the third read. *)
Lemma waiter_returns_at_first_pending_attempt_witness :
  exists (b : bool) (calls : list Call),
    run world_third_read (waitForPendingRequest hash1 60 2000) [] = (inr b, calls)
    /\ b = true /\ count is_read calls = 3%nat.
Proof.
  destruct (waiter_returns_at_first_pending_attempt world_third_read hash1)
    as [b [calls [Hrun [_ [Hfirst _]]]]].
  exists b, calls. split; [exact Hrun|]. apply Hfirst.
  - lia.
  - reflexivity.
  - intros j Hj. destruct j as [|[|[|j]]]; try lia; reflexivity.
Defined.

(** C10.  An attempt whose read is rejected logs the error and goes on to
    the next attempt with no [setTimeout]; an attempt whose read is answered
    with the zero address ends with the delay.  So the delays of a run are as
    many as its reads answered with the zero address, the time spent in
    delays is 2000 ms for each and at most 120000 ms (reached when all 60
    reads are answered with the zero address), and a run in which each of
    the 60 reads is rejected makes 60 reads, no delay, spends no time in
    delays and returns [false]. *)
Theorem rejected_read_skips_delay :
  forall (W : World) (txHash : string),
    (forall attempt maxAttempts delayMs tr e,
        pendingReads W (count is_read tr) = inl e ->
        run W (wait_attempt txHash attempt maxAttempts delayMs) tr
        = (inr None,
           tr ++ [CPendingRequests txHash;
                  CConsole (LogError "Checking pending request" e)]))
    /\ (forall attempt maxAttempts delayMs tr v,
          pendingReads W (count is_read tr) = inr v -> is_pending v = false ->
          exists logs,
            run W (wait_attempt txHash attempt maxAttempts delayMs) tr
            = (inr None,
               tr ++ CPendingRequests txHash :: logs ++ [CSetTimeout delayMs])
            /\ forallb is_console logs = true)
    /\ exists (b : bool) (calls : list Call),
         run W (waitForPendingRequest txHash 60 2000) [] = (inr b, calls)
         /\ count is_delay calls = zero_reads W 0 (count is_read calls)
         /\ elapsed calls = 2000 * Z.of_nat (count is_delay calls)
         /\ 0 <= elapsed calls <= 120000
         /\ ((forall k, (1 <= k <= 60)%nat ->
                        answered_zero (attempt_read W k) = true) ->
             b = false /\ count is_delay calls = 60%nat
             /\ elapsed calls = 120000)
         /\ ((forall k, (1 <= k <= 60)%nat ->
                        read_failed (attempt_read W k) = true) ->
             b = false /\ count is_read calls = 60%nat
             /\ count is_delay calls = 0%nat /\ elapsed calls = 0).
Proof.
  intros W h. split; [|split].
  - intros a M d tr e H. now rewrite wait_attempt_run, H.
  - intros a M d tr v H Hv. rewrite wait_attempt_run, H, Hv.
    eexists. split; [reflexivity|]. now destruct (Nat.eqb (Nat.modulo a 10) 0).
  - unfold waitForPendingRequest, attempt_read.
    destruct (wait_loop_run W h 60 2000 60 1 []) as [b [calls [Hrun Hw]]].
    exists b, calls. split; [exact Hrun|].
    destruct Hw as [Hle Hbefore Hhit Hmiss Hdelays Helapsed _ _].
    change (count is_read []) with 0%nat in *. cbn [Nat.add] in *.
    split; [exact Hdelays|]. split; [exact Helapsed|].
    pose proof (zero_reads_le W (count is_read calls) 0) as Hz.
    split; [rewrite Helapsed, Hdelays; lia|].
    split.
    { intros Hall.
      assert (Hb : b = false).
      { destruct b; [|reflexivity]. destruct (Hhit eq_refl) as [m [Hm Hobs]].
        specialize (Hall (S m)). replace (S m - 1)%nat with m in Hall by lia.
        destruct (pendingReads W m) as [e|v]; [discriminate Hobs|].
        simpl in Hobs, Hall. rewrite Hobs in Hall.
        assert (false = true) by (apply Hall; lia). discriminate. }
      split; [exact Hb|].
      assert (Hd : count is_delay calls = 60%nat).
      { rewrite Hdelays, (Hmiss Hb). apply zero_reads_all. intros j Hj.
        specialize (Hall (S j)). replace (S j - 1)%nat with j in Hall by lia.
        apply Hall. lia. }
      split; [exact Hd|]. rewrite Helapsed, Hd. reflexivity. }
    intros Hall.
    assert (Hb : b = false).
    { destruct b; [|reflexivity]. destruct (Hhit eq_refl) as [m [Hm Hobs]].
      specialize (Hall (S m)). replace (S m - 1)%nat with m in Hall by lia.
      destruct (pendingReads W m); [discriminate Hobs|].
      assert (false = true) by (apply Hall; lia). discriminate. }
    split; [exact Hb|]. split; [now apply Hmiss|].
    assert (Hd : count is_delay calls = 0%nat).
    { rewrite Hdelays. apply zero_reads_none. intros j Hj. simpl.
      specialize (Hall (S j)). replace (S j - 1)%nat with j in Hall by lia.
      destruct (pendingReads W j); [reflexivity|].
      assert (false = true) by (apply Hall; lia). discriminate. }
    split; [exact Hd|]. rewrite Helapsed, Hd. reflexivity.
Qed.

(** C10, when every read is rejected. *)
Lemma rejected_read_skips_delay_witness :
  exists (b : bool) (calls : list Call),
    run world_reads_fail (waitForPendingRequest hash1 60 2000) [] = (inr b, calls)
    /\ b = false /\ count is_read calls = 60%nat
    /\ count is_delay calls = 0%nat /\ elapsed calls = 0.
Proof.
  destruct (rejected_read_skips_delay world_reads_fail hash1)
    as [_ [_ [b [calls [Hrun [_ [_ [_ [_ Hall]]]]]]]]].
  exists b, calls. split; [exact Hrun|]. apply Hall.
  intros k Hk. reflexivity.
Defined.

(** C9.  The pending request shows at the third read, the delay is 2000 ms:
    the waiter returns [true] after three reads and two delays, 4000 ms of
    waiting, while the line it logs reports 6000 ms.  In general a waiter
    that returns [true] at attempt [k] has spent at most [(k - 1) * 2000] ms
    in delays and logs [k * 2000] ms. *)
Theorem third_attempt_returns_after_two_delays :
  (exists calls : list Call,
      run world_third_read (waitForPendingRequest hash1 60 2000) []
      = (inr true, calls)
      /\ observes_pending (attempt_read world_third_read 1) = false
      /\ observes_pending (attempt_read world_third_read 2) = false
      /\ observes_pending (attempt_read world_third_read 3) = true
      /\ count is_read calls = 3%nat
      /\ count is_delay calls = 2%nat
      /\ elapsed calls = 4000
      /\ reported calls = [6000])
  /\ (forall (W : World) (txHash : string),
      exists (b : bool) (calls : list Call),
        run W (waitForPendingRequest txHash 60 2000) [] = (inr b, calls)
        /\ (b = true ->
            reported calls = [Z.of_nat (count is_read calls) * 2000]
            /\ elapsed calls <= (Z.of_nat (count is_read calls) - 1) * 2000)).
Proof.
  split; [eexists; repeat split|].
  intros W h. unfold waitForPendingRequest.
  destruct (wait_loop_run W h 60 2000 60 1 []) as [b [calls [Hrun Hw]]].
  exists b, calls. split; [exact Hrun|]. intros Hb. subst b.
  destruct Hw as [_ _ Hhit _ Hdelays Helapsed Hreported _].
  change (count is_read []) with 0%nat in *. cbn [Nat.add] in *.
  destruct (Hhit eq_refl) as [m [Hm Hobs]].
  split.
  - rewrite Hreported. do 2 f_equal. lia.
  - rewrite Helapsed, Hdelays, Hm, zero_reads_snoc. cbn [Nat.add].
    pose proof (zero_reads_le W m 0) as Hz.
    destruct (pendingReads W m) as [e|v]; [discriminate Hobs|].
    simpl in Hobs. simpl answered_zero. rewrite Hobs. simpl negb. cbv iota.
    lia.
Qed.

(** C4.  When the answer of the completion endpoint to this invocation's
    call is a failure (the call is rejected, the status is not a success, or
    the body lacks [choices[0].message] or its content),
    [analyzeTransactionWithAI] throws, the handler makes no [addChronicle]
    call, and, having made the completion call, answers with status 500. *)
Theorem failed_generation_commits_nothing :
  forall (W : World) (txHash : string) (tr0 : list Call),
    generation_fails (completions W (count is_ai_call tr0)) = true ->
    (forall tx tr,
        count is_ai_call tr = count is_ai_call tr0 ->
        exists e, fst (run W (analyzeTransactionWithAI tx) tr) = inl e)
    /\ exists (resp : AnalyzeResponse) (calls : list Call),
         run W (analyze_transaction txHash) tr0 = (inr resp, tr0 ++ calls)
         /\ count is_commit calls = 0%nat
         /\ (count is_ai_call calls = 1%nat ->
             status resp = 500 /\ resp_narrative resp = None
             /\ exists e, resp = internal_error e).
Proof.
  intros W h tr0 Hfail. split.
  - intros tx tr Htr. destruct (ai_run W tx tr) as [r [logs [Hrun [_ Hiff]]]].
    rewrite Htr in Hiff. destruct (proj1 Hiff Hfail) as [e ->].
    exists e. now rewrite Hrun.
  - destruct (analyze_run W h tr0) as [resp [calls [Hrun Hh]]].
    exists resp, calls. split; [exact Hrun|].
    destruct Hh as [Hai Hc Hord Hgen _].
    split.
    + destruct (Nat.eq_dec (count is_ai_call calls) 1) as [E|E].
      * now destruct (Hgen E Hfail).
      * lia.
    + intros E. destruct (Hgen E Hfail) as [_ [e ->]].
      repeat split. now exists e.
Qed.

(** C4, when the completion endpoint answers 503. *)
Lemma failed_generation_commits_nothing_witness :
  exists (resp : AnalyzeResponse) (calls : list Call),
    run world_ai_down (analyze_transaction hash1) [] = (inr resp, calls)
    /\ count is_commit calls = 0%nat
    /\ count is_ai_call calls = 1%nat
    /\ status resp = 500.
Proof.
  destruct (failed_generation_commits_nothing world_ai_down hash1 [] eq_refl)
    as [_ [resp [calls [Hrun [Hc H500]]]]].
  exists resp, calls. split; [exact Hrun|]. split; [exact Hc|].
  assert (Hai : count is_ai_call calls = 1%nat).
  { vm_compute in Hrun. inversion Hrun. reflexivity. }
  split; [exact Hai|]. now destruct (H500 Hai).
Defined.

(** C5, as amended.  When the invocation has called [addChronicle] (so a
    narrative was generated) and the commit fails with [e], in the
    submission or in the wait for its receipt, the handler answers with
    status 500, the fixed message and [e] as the error; the response holds
    no narrative and no chronicle transaction hash. *)
Theorem failed_commit_returns_error_only :
  forall (W : World) (txHash : string) (tr0 : list Call) (e : Thrown),
    commit_fails (submissions W (count is_commit tr0))
      (receipts W (count is_receipt tr0)) e ->
    exists (resp : AnalyzeResponse) (calls : list Call),
      run W (analyze_transaction txHash) tr0 = (inr resp, tr0 ++ calls)
      /\ (count is_commit calls = 1%nat ->
          count is_ai_call calls = 1%nat
          /\ status resp = 500
          /\ resp_message resp = "An internal server error occurred."
          /\ resp_error resp = Some e
          /\ resp_narrative resp = None
          /\ resp_chronicleTxHash resp = None).
Proof.
  intros W h tr0 e Hfail.
  destruct (analyze_run W h tr0) as [resp [calls [Hrun Hh]]].
  exists resp, calls. split; [exact Hrun|].
  destruct Hh as [Hai Hc Hord _ Hcf]. intros E.
  rewrite (Hcf E e Hfail). repeat split. lia.
Qed.

(** C5 as amended, when [addChronicle] is reverted. *)
Lemma failed_commit_returns_error_only_witness :
  exists (resp : AnalyzeResponse) (calls : list Call),
    run world_commit_reverts (analyze_transaction hash1) [] = (inr resp, calls)
    /\ count is_commit calls = 1%nat
    /\ status resp = 500
    /\ resp_error resp = Some "execution reverted"
    /\ resp_narrative resp = None.
Proof.
  destruct (failed_commit_returns_error_only world_commit_reverts hash1 []
              "execution reverted" (or_introl eq_refl))
    as [resp [calls [Hrun H]]].
  exists resp, calls. split; [exact Hrun|].
  assert (Hc : count is_commit calls = 1%nat).
  { vm_compute in Hrun. inversion Hrun. reflexivity. }
  split; [exact Hc|]. destruct (H Hc) as [_ [H1 [_ [H2 [H3 _]]]]].
  now repeat split.
Defined.

(** C5 as stated fails: the request is pending, the narrative
    "A transfer of 1 STT." is generated and passed to [addChronicle], which
    is reverted; the response is the 500 of the handler's [catch], and the
    narrative is not in it. *)
Lemma failed_commit_drops_narrative :
  exists calls : list Call,
    run world_commit_reverts (analyze_transaction hash1) []
    = (inr (internal_error "execution reverted"), calls)
    /\ In (CAddChronicle hash1 "A transfer of 1 STT.") calls
    /\ resp_narrative (internal_error "execution reverted") = None
    /\ resp_narrative (internal_error "execution reverted")
       <> Some "A transfer of 1 STT.".
Proof.
  eexists. split; [vm_compute; reflexivity|].
  split; [simpl; tauto|]. split; [reflexivity|discriminate].
Qed.

(** C1, as amended.  One invocation of the handler, whatever the world
    answers, calls the narrative service at most once and [addChronicle] at
    most once, the latter only after the former; and a call of
    [analyzeWithBackend] that sees [hasAnalyzed] set does nothing at all. *)
Theorem each_invocation_calls_at_most_once :
  (forall (W : World) (txHash : string) (tr0 : list Call),
      exists (resp : AnalyzeResponse) (calls : list Call),
        run W (analyze_transaction txHash) tr0 = (inr resp, tr0 ++ calls)
        /\ (count is_ai_call calls <= 1)%nat
        /\ (count is_commit calls <= 1)%nat
        /\ (count is_commit calls <= count is_ai_call calls)%nat)
  /\ (forall txHash : string, Client.analyzeWithBackend true txHash = Ret tt).
Proof.
  split.
  - intros W h tr0. destruct (analyze_run W h tr0) as [resp [calls [Hrun Hh]]].
    exists resp, calls. destruct Hh as [Hai Hc Hord _ _]. now repeat split.
  - reflexivity.
Qed.

(** C1 as stated fails: two invocations for the same hash overlap, each
    seeing the pending request before either has committed.  Both answer;
    between them they call the narrative service twice and [addChronicle]
    twice (the second submission is reverted by the chain). *)
Lemma overlapping_invocations_duplicate_calls :
  exists (first second : AnalyzeResponse) (trace : list Call),
    interleave world_pending schedule_overlap
      (analyze_transaction hash1) (analyze_transaction hash1) []
    = (inr first, inr second, trace)
    /\ status first = 200 /\ status second = 500
    /\ count is_ai_call trace = 2%nat
    /\ count is_commit trace = 2%nat
    /\ ~ (count is_ai_call trace <= 1)%nat
    /\ ~ (count is_commit trace <= 1)%nat.
Proof.
  eexists _, _, _. split; [vm_compute; reflexivity|].
  repeat split; try (vm_compute; lia).
Qed.

End OrchestratorSpec.

(* ================================================================== *)
(** ** More on the two aggregation endpoints *)
(* ================================================================== *)
Module AggregatorMore.
Import Aggregator ScanFacts JSFacts AggregatorFacts Examples Provenance.

(** *** How many queries a scan issues *)

Lemma chunks_length c : forall f,
  List.length (chunks f c)
  = if c <? f then 0%nat else Z.to_nat ((c - f) / CHUNK_SIZE + 1).
Proof.
  intros f. pattern f. apply (range_ind c); clear f.
  - intros f H. rewrite chunks_nil by exact H.
    destruct (Z.ltb_spec c f); [reflexivity|lia].
  - intros f H IH. rewrite chunks_cons by exact H. simpl List.length. rewrite IH.
    destruct (Z.ltb_spec c f); [lia|]. unfold CHUNK_SIZE in *.
    destruct (Z.ltb_spec c (f + 1000)).
    + rewrite Z.div_small by lia. reflexivity.
    + replace (c - f) with (c - (f + 1000) + 1 * 1000) by lia.
      rewrite Z.div_add by lia.
      assert (0 <= (c - (f + 1000)) / 1000) by (apply Z.div_pos; lia).
      lia.
Qed.

(** X1.  For every block height [currentBlock >= 0] the leaderboard scan issues
    between 1 and 11 log queries and the chronicle scan between 1 and 51;
    once the chain is longer than the lookback window they issue exactly 11
    and 51. *)
Theorem scan_query_budget :
  forall (currentBlock : Z),
    0 <= currentBlock ->
    (1 <= List.length (chunks (Z.max 0 (currentBlock - LEADERBOARD_LOOKBACK))
                         currentBlock) <= 11)%nat
    /\ (1 <= List.length (chunks (Z.max 0 (currentBlock - CHRONICLES_LOOKBACK))
                            currentBlock) <= 51)%nat
    /\ (LEADERBOARD_LOOKBACK <= currentBlock ->
        List.length (chunks (Z.max 0 (currentBlock - LEADERBOARD_LOOKBACK))
                       currentBlock) = 11%nat)
    /\ (CHRONICLES_LOOKBACK <= currentBlock ->
        List.length (chunks (Z.max 0 (currentBlock - CHRONICLES_LOOKBACK))
                       currentBlock) = 51%nat).
Proof.
  intros cur Hcur. rewrite !chunks_length.
  unfold LEADERBOARD_LOOKBACK, CHRONICLES_LOOKBACK, CHUNK_SIZE.
  destruct (Z.ltb_spec cur (Z.max 0 (cur - 10000))); [lia|].
  destruct (Z.ltb_spec cur (Z.max 0 (cur - 50000))); [lia|].
  assert (A : 0 <= (cur - Z.max 0 (cur - 10000)) / 1000 <= 10).
  { split; [apply Z.div_pos; lia|]. apply Z.div_le_upper_bound; lia. }
  assert (B : 0 <= (cur - Z.max 0 (cur - 50000)) / 1000 <= 50).
  { split; [apply Z.div_pos; lia|]. apply Z.div_le_upper_bound; lia. }
  repeat split; try lia.
  - intros H1. rewrite Z.max_r by lia.
    replace (cur - (cur - 10000)) with (10 * 1000) by lia.
    rewrite Z.div_mul by lia. reflexivity.
  - intros H1. rewrite Z.max_r by lia.
    replace (cur - (cur - 50000)) with (50 * 1000) by lia.
    rewrite Z.div_mul by lia. reflexivity.
Qed.

Lemma scan_query_budget_witness :
  List.length (chunks (Z.max 0 (2500 - LEADERBOARD_LOOKBACK)) 2500) = 3%nat
  /\ (1 <= List.length (chunks (Z.max 0 (2500 - LEADERBOARD_LOOKBACK)) 2500)
       <= 11)%nat.
Proof.
  split; [reflexivity|]. apply (scan_query_budget 2500). lia.
Defined.

(** *** The leaderboard lists each address once *)

Lemma set_add_NoDup x s : NoDup s -> NoDup (JS.set_add x s).
Proof.
  intros H. unfold JS.set_add. destruct (JS.set_mem x s) eqn:E; [exact H|].
  apply NoDup_app; [exact H| |].
  - constructor; [intros []|constructor].
  - intros y Hy [<-|[]]. apply set_mem_In in Hy. congruence.
Qed.

Lemma fold_add_user_NoDup events : forall set,
  NoDup set -> NoDup (fold_left add_user events set).
Proof.
  induction events as [|ev events IH]; intros set H; simpl; [exact H|].
  apply IH. unfold add_user. destruct (event_user ev); [|exact H].
  now apply set_add_NoDup.
Qed.

Lemma leaderboard_addresses_NoDup L cur : NoDup (leaderboard_addresses L cur).
Proof.
  unfold leaderboard_addresses. rewrite scan_fold.
  generalize (chunks (Z.max 0 (cur - LEADERBOARD_LOOKBACK)) cur).
  assert (H : NoDup (@nil string)) by constructor. revert H.
  generalize (@nil string). intros set H l. revert set H.
  induction l as [|ch l IH]; intros set H; simpl; [exact H|].
  apply IH. unfold leaderboard_chunk.
  destruct (queryRequestSubmitted L (fst ch) (snd ch)); [exact H|].
  now apply fold_add_user_NoDup.
Qed.

Lemma fetch_points_address L a : address (fetch_points L a) = a.
Proof. unfold fetch_points. now destruct (userPoints L a). Qed.

Lemma NoDup_map_filter {A B : Type} (f : A -> B) (p : A -> bool) l :
  NoDup (map f l) -> NoDup (map f (filter p l)).
Proof.
  induction l as [|x l IH]; simpl; [auto|].
  intros H. inversion H as [|y l' Hx Hl]; subst.
  destruct (p x); simpl; [|now apply IH].
  constructor; [|now apply IH].
  intros Hin. apply Hx. apply in_map_iff in Hin.
  destruct Hin as [z [Hz Hin]]. apply filter_In in Hin.
  apply in_map_iff. exists z. tauto.
Qed.

Lemma NoDup_firstn {A : Type} n (l : list A) : NoDup l -> NoDup (firstn n l).
Proof.
  intros H. rewrite <- (firstn_skipn n l) in H.
  now apply NoDup_app_remove_r in H.
Qed.

Lemma scoring_NoDup L cur : NoDup (map address (scoring L cur)).
Proof.
  unfold scoring. apply NoDup_map_filter. rewrite map_map.
  erewrite map_ext; [|apply fetch_points_address]. rewrite map_id.
  apply leaderboard_addresses_NoDup.
Qed.

Lemma leaderboard_top_scoring L cur :
  leaderboard_top L cur
  = JS.slice0 10 (JS.sort_desc points (scoring L cur)).
Proof. reflexivity. Qed.

(** X2.  The leaderboard lists no address twice, and it is as long as it can
    be: its length is the smaller of 10 and the number of collected
    addresses with points; every entry is such an address, and when there
    are at most 10 of them all are listed. *)
Theorem leaderboard_lists_each_address_once :
  forall (L : LedgerClient) (entries : list LeaderboardEntry),
    leaderboard L = Ok200 entries ->
    NoDup (map address entries)
    /\ exists cur,
         getBlockNumber L = inr cur
         /\ List.length entries = Nat.min 10 (List.length (scoring L cur))
         /\ (forall e, In e entries -> In e (scoring L cur))
         /\ ((List.length (scoring L cur) <= 10)%nat ->
             forall e, In e (scoring L cur) -> In e entries).
Proof.
  intros L entries H. unfold leaderboard in H.
  destruct (getBlockNumber L) as [e|cur]; [discriminate|].
  inversion H; subst entries; clear H. rewrite leaderboard_top_scoring.
  unfold JS.slice0.
  pose proof (sort_desc_perm points (scoring L cur)) as P.
  split.
  - rewrite <- firstn_map. apply NoDup_firstn.
    eapply Permutation_NoDup;
      [apply Permutation_map, Permutation_sym, P|apply scoring_NoDup].
  - exists cur. split; [reflexivity|]. split; [|split].
    + rewrite length_firstn. now rewrite (Permutation_length P).
    + intros e He. apply In_firstn in He. eapply Permutation_in; eassumption.
    + intros Hlen e He. rewrite firstn_all2.
      * eapply Permutation_in; [apply Permutation_sym, P|exact He].
      * now rewrite (Permutation_length P).
Qed.

Lemma leaderboard_lists_each_address_once_witness :
  NoDup (map address [{| address := "0xA"; points := 50 |};
                      {| address := "0xC"; points := 12 |}]).
Proof.
  apply (leaderboard_lists_each_address_once ledger_2500). reflexivity.
Defined.

(** X3.  An address whose [userPoints] read is rejected counts as having 0
    points and is not on the leaderboard, whatever the logs say about it. *)
Theorem failed_counter_read_hides_address :
  forall (L : LedgerClient) (cur : Z) (a : string) (e : Thrown),
    getBlockNumber L = inr cur ->
    userPoints L a = inl e ->
    fetch_points L a = {| address := a; points := 0 |}
    /\ exists entries,
         leaderboard L = Ok200 entries /\ ~ In a (map address entries).
Proof.
  intros L cur a e Hcur Hfail. split.
  - unfold fetch_points. now rewrite Hfail.
  - unfold leaderboard. rewrite Hcur. eexists. split; [reflexivity|].
    intros Hin. apply in_map_iff in Hin. destruct Hin as [entry [<- Hin]].
    destruct (In_leaderboard_top _ _ _ Hin) as [_ [_ [p [Hp _]]]].
    congruence.
Qed.

Lemma failed_counter_read_hides_address_witness :
  leaderboard MoreExamples.ledger_counter_fails
  = Ok200 [{| address := "0xC"; points := 12 |}]
  /\ exists entries,
       leaderboard MoreExamples.ledger_counter_fails = Ok200 entries
       /\ ~ In "0xA" (map address entries).
Proof.
  split; [reflexivity|].
  apply (failed_counter_read_hides_address MoreExamples.ledger_counter_fails
           2500 "0xA" "missing revert data"); reflexivity.
Defined.

(** X4.  When the block height can be read but every log query is rejected,
    both endpoints still answer 200, with an empty leaderboard and an empty
    chronicle list with [total = 0]. *)
Theorem all_chunk_queries_rejected_gives_empty_views :
  forall (L : LedgerClient) (cur : Z),
    getBlockNumber L = inr cur ->
    (forall f t, exists e, queryRequestSubmitted L f t = inl e) ->
    (forall f t, exists e, queryChronicleAdded L f t = inl e) ->
    leaderboard L = Ok200 []
    /\ chronicles_endpoint L = Ok200 {| total := 0; chronicles := [] |}.
Proof.
  intros L cur Hcur Hreq Hadd.
  unfold leaderboard, chronicles_endpoint. rewrite Hcur. split.
  - f_equal. unfold leaderboard_top, leaderboard_addresses.
    rewrite scan_fold.
    assert (E : forall l set,
              fold_left (fun a ch => leaderboard_chunk L (fst ch) (snd ch) a) l set
              = set).
    { induction l as [|ch l IH]; intros set; simpl; [reflexivity|].
      unfold leaderboard_chunk at 2.
      destruct (Hreq (fst ch) (snd ch)) as [e ->]. apply IH. }
    rewrite E. reflexivity.
  - unfold chronicles_list, chronicles_map. rewrite scan_fold.
    assert (E : forall l m,
              fold_left (fun a ch => chronicles_chunk L (fst ch) (snd ch) a) l m
              = m).
    { induction l as [|ch l IH]; intros m; simpl; [reflexivity|].
      unfold chronicles_chunk at 2.
      destruct (Hadd (fst ch) (snd ch)) as [e ->]. apply IH. }
    rewrite E. reflexivity.
Qed.

Lemma all_chunk_queries_rejected_gives_empty_views_witness :
  leaderboard MoreExamples.ledger_queries_down = Ok200 []
  /\ chronicles_endpoint MoreExamples.ledger_queries_down
     = Ok200 {| total := 0; chronicles := [] |}.
Proof.
  apply (all_chunk_queries_rejected_gives_empty_views
           MoreExamples.ledger_queries_down 2500).
  - reflexivity.
  - intros f t. now eexists.
  - intros f t. now eexists.
Defined.

End AggregatorMore.

(* ================================================================== *)
(** ** More on the chronicle listing *)
(* ================================================================== *)
Module ChroniclesMore.
Import Aggregator ScanFacts JSFacts AggregatorFacts Examples Provenance
  MoreExamples.

Lemma map_set_NoDup {V : Type} k (v : V) m :
  NoDup (map fst m) -> NoDup (map fst (JS.map_set k v m)).
Proof.
  induction m as [|[k0 v0] m IH]; simpl; intros H.
  - constructor; [intros []|constructor].
  - inversion H as [|x l Hk0 Hm]; subst.
    destruct (String.eqb_spec k k0) as [->|Hne]; simpl.
    + now constructor.
    + constructor; [|now apply IH].
      rewrite map_set_keys. intros [E|Hin]; [congruence|contradiction].
Qed.

Lemma process_events_NoDup L events : forall m,
  NoDup (map fst m) -> NoDup (map fst (fst (process_events L events m))).
Proof.
  induction events as [|ev events IH]; intros m Hm; simpl; [exact Hm|].
  destruct (args ev) as [a|]; [|now apply IH].
  destruct (retained ev); [|now apply IH].
  destruct (getBlockTimestamp L ev) as [e|ts]; [exact Hm|].
  apply IH. now apply map_set_NoDup.
Qed.

(** A property of the map's entries that every chunk keeps. *)
Lemma chronicles_fold_Forall L (P : string * Chronicle -> Prop) chs all :
  (forall ch events ev a ts,
      In ch all -> queryChronicleAdded L (fst ch) (snd ch) = inr events ->
      In ev events -> args ev = Some a -> retained ev = true ->
      getBlockTimestamp L ev = inr ts ->
      P (ca_txHash a, chronicle_of a ts)) ->
  (forall ch, In ch chs -> In ch all) ->
  forall m, Forall P m ->
    Forall P (fold_left (fun a ch => chronicles_chunk L (fst ch) (snd ch) a) chs m).
Proof.
  intros HP. induction chs as [|ch chs IH]; intros Hsub m Hm; simpl; [exact Hm|].
  apply IH; [intros c Hc; apply Hsub; now right|].
  unfold chronicles_chunk.
  destruct (queryChronicleAdded L (fst ch) (snd ch)) as [e|events] eqn:Hq;
    [exact Hm|].
  assert (Hall : forall ev, In ev events -> In ev events) by auto.
  revert Hall m Hm. generalize events at 1 3.
  induction events0 as [|ev evs IHe]; intros Hall m Hm; simpl; [exact Hm|].
  destruct (args ev) as [a|] eqn:Ha;
    [|apply IHe; [intros x Hx; apply Hall; now right|exact Hm]].
  destruct (retained ev) eqn:Hr;
    [|apply IHe; [intros x Hx; apply Hall; now right|exact Hm]].
  destruct (getBlockTimestamp L ev) as [e|ts] eqn:Hts; [exact Hm|].
  apply IHe; [intros x Hx; apply Hall; now right|].
  apply map_set_Forall; [|exact Hm].
  apply (HP ch events ev a ts); auto. apply Hsub. now left. apply Hall. now left.
Qed.

Lemma chronicles_map_NoDup L cur : NoDup (map fst (chronicles_map L cur)).
Proof.
  unfold chronicles_map. rewrite scan_fold.
  generalize (chunks (Z.max 0 (cur - CHRONICLES_LOOKBACK)) cur).
  assert (H : NoDup (map fst (@nil (string * Chronicle)))) by constructor.
  revert H. generalize (@nil (string * Chronicle)). intros m H l. revert m H.
  induction l as [|ch l IH]; intros m H; simpl; [exact H|].
  apply IH. unfold chronicles_chunk.
  destruct (queryChronicleAdded L (fst ch) (snd ch)); [exact H|].
  now apply process_events_NoDup.
Qed.

Lemma keyed_hashes m : keyed m -> map txHash (JS.map_values m) = map fst m.
Proof.
  unfold keyed, JS.map_values. induction 1 as [|kv m H Hm IH]; simpl;
    [reflexivity|]. now rewrite H, IH.
Qed.

Lemma chronicles_list_from_log L cur :
  Forall (from_log L cur) (chronicles_list L cur).
Proof.
  unfold chronicles_list.
  eapply Permutation_Forall; [apply Permutation_sym, sort_desc_perm|].
  unfold JS.map_values. apply Forall_map.
  unfold chronicles_map. rewrite scan_fold.
  apply (chronicles_fold_Forall L (fun kv => from_log L cur (snd kv)) _
           (chunks (Z.max 0 (cur - CHRONICLES_LOOKBACK)) cur));
    [|auto|constructor].
  intros ch events ev a ts Hch Hq Hev Ha Hr Hts. simpl.
  now exists ch, events, ev, a, ts.
Qed.

(** X5.  In every 200 answer of the chronicle listing, [total] is the length
    of the list, no transaction hash occurs twice, the timestamps are in
    descending order, and every chronicle was built from a retained
    [ChronicleAdded] log of a chunk of the scan whose query succeeded, with
    the timestamp read for that log's block. *)
Theorem chronicles_listing_is_well_formed :
  forall (L : LedgerClient) (body : ChroniclesBody),
    chronicles_endpoint L = Ok200 body ->
    total body = List.length (chronicles body)
    /\ NoDup (map txHash (chronicles body))
    /\ JS.descending timestamp (chronicles body)
    /\ exists cur,
         getBlockNumber L = inr cur
         /\ Forall (from_log L cur) (chronicles body).
Proof.
  intros L body H. unfold chronicles_endpoint in H.
  destruct (getBlockNumber L) as [e|cur]; [discriminate|].
  inversion H; subst body; clear H. simpl.
  pose proof (sort_desc_perm timestamp (JS.map_values (chronicles_map L cur)))
    as P.
  split; [reflexivity|]. split; [|split].
  - unfold chronicles_list.
    eapply Permutation_NoDup; [apply Permutation_map, Permutation_sym, P|].
    rewrite keyed_hashes by apply chronicles_map_keyed.
    apply chronicles_map_NoDup.
  - apply sort_desc_descending.
  - exists cur. split; [reflexivity|]. apply chronicles_list_from_log.
Qed.

Lemma chronicles_listing_is_well_formed_witness :
  exists body,
    chronicles_endpoint ledger_2500 = Ok200 body
    /\ total body = 2%nat
    /\ NoDup (map txHash (chronicles body)).
Proof.
  eexists. split; [reflexivity|]. split; [reflexivity|].
  apply (chronicles_listing_is_well_formed ledger_2500). reflexivity.
Defined.


(** *** The last log of a hash decides its entry *)

Lemma map_get_set {V : Type} h k (v : V) m :
  Provenance.map_get h (JS.map_set k v m)
  = if String.eqb h k then Some v else Provenance.map_get h m.
Proof.
  induction m as [|[k0 v0] m IH]; simpl.
  - reflexivity.
  - destruct (String.eqb_spec k k0) as [->|Hne]; simpl.
    + destruct (String.eqb h k0); reflexivity.
    + rewrite IH. destruct (String.eqb_spec h k0) as [->|Hne'];
        [|reflexivity].
      destruct (String.eqb_spec k0 k); [congruence|reflexivity].
Qed.

Lemma map_get_In {V : Type} k (v : V) m :
  NoDup (map fst m) -> In (k, v) m -> Provenance.map_get k m = Some v.
Proof.
  induction m as [|[k0 v0] m IH]; simpl; intros Hnd Hin; [destruct Hin|].
  inversion Hnd as [|x l Hk0 Hm]; subst.
  destruct Hin as [E|Hin].
  - inversion E; subst. now rewrite String.eqb_refl.
  - destruct (String.eqb_spec k k0) as [->|Hne]; [|now apply IH].
    exfalso. apply Hk0. apply in_map_iff. now exists (k0, v).
Qed.

Lemma process_events_get L h events : forall m,
  enriched L events ->
  Provenance.map_get h (fst (process_events L events m))
  = match last_with_hash h events with
    | Some ev => entry_of L ev
    | None => Provenance.map_get h m
    end.
Proof.
  induction events as [|ev events IH]; intros m Hen; [reflexivity|].
  assert (Hen' : enriched L events) by (intros y Hy; apply Hen; now right).
  simpl. destruct (args ev) as [a|] eqn:Ha.
  2:{ rewrite (IH m Hen'). now destruct (last_with_hash h events). }
  destruct (retained ev) eqn:Hr.
  2:{ rewrite (IH m Hen'). now destruct (last_with_hash h events). }
  destruct (Hen ev (or_introl eq_refl) Hr) as [ts Hts]. rewrite Hts.
  rewrite (IH _ Hen'). destruct (last_with_hash h events); [reflexivity|].
  rewrite map_get_set. simpl. rewrite String.eqb_sym.
  destruct (String.eqb (ca_txHash a) h); [|reflexivity].
  unfold entry_of. now rewrite Ha, Hts.
Qed.

Lemma process_events_app L l1 l2 : forall m,
  enriched L l1 ->
  process_events L (l1 ++ l2) m = process_events L l2 (fst (process_events L l1 m)).
Proof.
  induction l1 as [|ev l1 IH]; intros m Hen; [reflexivity|].
  assert (Hen' : enriched L l1) by (intros y Hy; apply Hen; now right).
  simpl. destruct (args ev) as [a|]; [|now apply IH].
  destruct (retained ev) eqn:Hr; [|now apply IH].
  destruct (Hen ev (or_introl eq_refl) Hr) as [ts ->]. now apply IH.
Qed.

Lemma enriched_logs_of L ch :
  (forall events, queryChronicleAdded L (fst ch) (snd ch) = inr events ->
                  enriched L events) ->
  enriched L (logs_of L ch).
Proof.
  intros H. unfold logs_of.
  destruct (queryChronicleAdded L (fst ch) (snd ch)) as [e|events].
  - intros x [].
  - now apply H.
Qed.

Lemma chronicles_fold_flat L chs : forall m,
  (forall ch events, In ch chs ->
      queryChronicleAdded L (fst ch) (snd ch) = inr events -> enriched L events) ->
  fold_left (fun a ch => chronicles_chunk L (fst ch) (snd ch) a) chs m
  = fst (process_events L (flat_map (logs_of L) chs) m)
  /\ enriched L (flat_map (logs_of L) chs).
Proof.
  induction chs as [|ch chs IH]; intros m Hen; simpl.
  - split; [reflexivity|intros x []].
  - assert (H1 : enriched L (logs_of L ch)).
    { apply enriched_logs_of. intros events. apply Hen. now left. }
    destruct (IH (chronicles_chunk L (fst ch) (snd ch) m)) as [E H2].
    { intros c events Hc. apply Hen. now right. }
    split.
    + rewrite E, (process_events_app L _ _ m H1). f_equal. f_equal.
      unfold chronicles_chunk, logs_of.
      now destruct (queryChronicleAdded L (fst ch) (snd ch)).
    + intros x Hx. apply in_app_or in Hx. destruct Hx; auto.
Qed.

(** X6.  When no timestamp read of the scan is rejected, the chronicle listed
    for a transaction hash is the one of the last retained log with that
    hash that the scan meets: a later log overwrites an earlier one. *)
Theorem last_log_of_a_hash_wins :
  forall (L : LedgerClient) (cur : Z),
    (forall ch events,
        In ch (chunks (Z.max 0 (cur - CHRONICLES_LOOKBACK)) cur) ->
        queryChronicleAdded L (fst ch) (snd ch) = inr events ->
        enriched L events) ->
    forall c,
      In c (chronicles_list L cur)
      <-> exists ev,
            last_with_hash (txHash c) (scanned L cur) = Some ev
            /\ entry_of L ev = Some c.
Proof.
  intros L cur Hen c.
  pose proof (chronicles_map_keyed L cur) as Hk.
  pose proof (chronicles_map_NoDup L cur) as Hnd.
  assert (Hget : forall h,
            Provenance.map_get h (chronicles_map L cur)
            = match last_with_hash h (scanned L cur) with
              | Some ev => entry_of L ev
              | None => None
              end).
  { intros h. unfold chronicles_map, scanned. rewrite scan_fold.
    destruct (chronicles_fold_flat L _ [] Hen) as [E Hall].
    rewrite E. now rewrite process_events_get. }
  assert (Hlist : In c (chronicles_list L cur)
                  <-> In (txHash c, c) (chronicles_map L cur)).
  { unfold chronicles_list, JS.map_values. split.
    - intros H. apply (Permutation_in _ (sort_desc_perm _ _)) in H.
      apply in_map_iff in H. destruct H as [[k v] [<- Hin]]. simpl.
      unfold keyed in Hk. rewrite Forall_forall in Hk.
      specialize (Hk _ Hin). simpl in Hk. now rewrite Hk.
    - intros H. apply (Permutation_in _ (Permutation_sym (sort_desc_perm _ _))).
      apply in_map_iff. now exists (txHash c, c). }
  rewrite Hlist. split.
  - intros Hin. apply (map_get_In _ _ _ Hnd) in Hin. rewrite Hget in Hin.
    destruct (last_with_hash (txHash c) (scanned L cur)) as [ev|];
      [|discriminate]. now exists ev.
  - intros [ev [Hlast Hentry]]. specialize (Hget (txHash c)).
    rewrite Hlast, Hentry in Hget.
    clear - Hget. induction (chronicles_map L cur) as [|[k v] m IH];
      simpl in *; [discriminate|].
    destruct (String.eqb_spec (txHash c) k) as [<-|Hne].
    + left. now inversion Hget.
    + right. now apply IH.
Qed.

Lemma last_log_of_a_hash_wins_witness :
  chronicles_list ledger_same_hash 0
  = [{| txHash := "0xh1"; narrative := "second"; requester := "0xB";
        timestamp := 1700000002 |}]
  /\ (In {| txHash := "0xh1"; narrative := "second"; requester := "0xB";
            timestamp := 1700000002 |} (chronicles_list ledger_same_hash 0)
      <-> exists ev,
            last_with_hash "0xh1" (scanned ledger_same_hash 0) = Some ev
            /\ entry_of ledger_same_hash ev
               = Some {| txHash := "0xh1"; narrative := "second";
                         requester := "0xB"; timestamp := 1700000002 |}).
Proof.
  split; [reflexivity|].
  apply (last_log_of_a_hash_wins ledger_same_hash 0).
  intros ch events _ _ x _ _. eexists. reflexivity.
Defined.

(** X7.  Every listed chronicle has a non-empty transaction hash, narrative and
    requester: a chronicle stored with an empty narrative is never listed. *)
Theorem listed_chronicles_have_every_field :
  forall (L : LedgerClient) (body : ChroniclesBody),
    chronicles_endpoint L = Ok200 body ->
    Forall (fun c => txHash c <> EmptyString /\ narrative c <> EmptyString
                     /\ requester c <> EmptyString) (chronicles body).
Proof.
  intros L body H. unfold chronicles_endpoint in H.
  destruct (getBlockNumber L) as [e|cur]; [discriminate|].
  inversion H; subst body; clear H. simpl.
  eapply Forall_impl; [|apply chronicles_list_from_log]. intros c Hc.
  destruct Hc as [ch [events [ev [a [ts [_ [_ [_ [Ha [Hr [_ ->]]]]]]]]]]].
  unfold retained in Hr. rewrite Ha in Hr.
  apply andb_prop in Hr. destruct Hr as [Hr H3].
  apply andb_prop in Hr. destruct Hr as [H1 H2].
  unfold JS.truthy in *. simpl.
  repeat split; intros E; rewrite E in *; discriminate.
Qed.

Lemma listed_chronicles_have_every_field_witness :
  chronicles_list ledger_same_hash 0
  = [{| txHash := "0xh1"; narrative := "second"; requester := "0xB";
        timestamp := 1700000002 |}]
  /\ Forall (fun c => txHash c <> EmptyString /\ narrative c <> EmptyString
                      /\ requester c <> EmptyString)
       (chronicles_list ledger_same_hash 0).
Proof.
  split; [reflexivity|].
  apply (listed_chronicles_have_every_field ledger_same_hash
           {| total := 1; chronicles := chronicles_list ledger_same_hash 0 |}).
  reflexivity.
Defined.

End ChroniclesMore.

(* ================================================================== *)
(** ** More on the waiter and the analyze-transaction handler *)
(* ================================================================== *)
Module OrchestratorMore.
Import Effects Effects.Notations Orchestrator RunFacts OrchestratorFacts
  Examples Responses.

Lemma isHexString_length value len :
  JS.isHexString value len = true -> String.length value = (2 + 2 * len)%nat.
Proof.
  unfold JS.isHexString.
  destruct value as [|c0 [|c1 digits]]; try discriminate.
  - destruct c0 as [[] [] [] [] [] [] [] []]; discriminate.
  - destruct c0 as [[] [] [] [] [] [] [] []]; try discriminate.
    destruct c1 as [[] [] [] [] [] [] [] []]; try discriminate.
    intros H. apply andb_prop in H. destruct H as [_ H].
    now apply Nat.eqb_eq in H.
Qed.

Lemma well_formed_guard h :
  negb (JS.truthy h) || negb (JS.isHexString h 32) = negb (well_formed h).
Proof. unfold well_formed. now destruct (JS.truthy h), (JS.isHexString h 32). Qed.

(** The waiter with any budget, started after any calls. *)
Lemma wait_run W h M d tr0 :
  exists b calls,
    run W (waitForPendingRequest h M d) tr0 = (inr b, tr0 ++ calls)
    /\ Waited W d 1 M (count is_read tr0) b calls
    /\ (b = true <-> request_shows W tr0 M).
Proof.
  unfold waitForPendingRequest.
  destruct (wait_loop_run W h M d M 1 tr0) as [b [calls [Hrun Hw]]].
  exists b, calls. split; [exact Hrun|]. split; [exact Hw|].
  destruct Hw as [Hle Hbefore Hhit Hmiss _ _ _ _]. unfold request_shows. split.
  - intros Hb. destruct (Hhit Hb) as [m [Hm Hobs]]. exists m. split; [lia|exact Hobs].
  - intros [j [Hj Hobs]]. destruct b; [reflexivity|].
    rewrite (Hbefore j) in Hobs; [discriminate|]. rewrite (Hmiss eq_refl). lia.
Qed.

Lemma ai_success W tx tr text :
  completes_with (completions W (count is_ai_call tr)) text ->
  run W (analyzeTransactionWithAI tx) tr
  = (inr (JS.trim text), tr ++ [CChatCompletion tx]).
Proof.
  intros [response [data [m [Hc [Hok [Hjson [Hfirst Hcontent]]]]]]].
  unfold analyzeTransactionWithAI. simpl. rewrite Hc. simpl. rewrite Hok. simpl.
  rewrite Hjson. unfold first_message in Hfirst.
  destruct (choices data) as [[|[choice|] rest]|]; try discriminate.
  rewrite Hfirst, Hcontent. reflexivity.
Qed.

Section Handler.
Local Opaque analyzeTransactionWithAI waitForPendingRequest.

(** The handler, one step at a time. *)
Lemma analyze_step W h tr0 :
  well_formed h = true ->
  run W (analyze_transaction h) tr0
  = match run W (waitForPendingRequest h MAX_ATTEMPTS DELAY_MS) tr0 with
    | (inl e, tr1) =>
        (inr (internal_error e), tr1 ++ [CConsole (LogError "Analysis failed" e)])
    | (inr false, tr1) =>
        (inr no_pending_request,
         tr1 ++ [CConsole (LogError "No pending request found for" h)])
    | (inr true, tr1) =>
        match lookups W (count is_lookup tr1) with
        | inl e =>
            (inr (internal_error e),
             tr1 ++ [CGetTransaction h; CConsole (LogError "Analysis failed" e)])
        | inr None => (inr transaction_not_found, tr1 ++ [CGetTransaction h])
        | inr (Some tx) =>
            match run W (analyzeTransactionWithAI tx)
                    (tr1 ++ [CGetTransaction h;
                             CConsole (LogInfo "Analyzing with AI...")]) with
            | (inl e, tr2) =>
                (inr (internal_error e),
                 tr2 ++ [CConsole (LogError "Analysis failed" e)])
            | (inr narrative, tr2) =>
                match submissions W (count is_commit tr2) with
                | inl e =>
                    (inr (internal_error e),
                     tr2 ++ [CConsole (LogInfo "Storing chronicle on-chain...");
                             CAddChronicle h narrative;
                             CConsole (LogError "Analysis failed" e)])
                | inr txResponse =>
                    match receipts W (count is_receipt tr2) with
                    | inl e =>
                        (inr (internal_error e),
                         tr2 ++ [CConsole (LogInfo "Storing chronicle on-chain...");
                                 CAddChronicle h narrative;
                                 CWaitReceipt txResponse;
                                 CConsole (LogError "Analysis failed" e)])
                    | inr _ =>
                        (inr (analysis_complete narrative txResponse),
                         tr2 ++ [CConsole (LogInfo "Storing chronicle on-chain...");
                                 CAddChronicle h narrative;
                                 CWaitReceipt txResponse;
                                 CConsole (LogInfo "Chronicle stored successfully!")])
                    end
                end
            end
        end
    end.
Proof.
  intros Hwf. unfold analyze_transaction. rewrite well_formed_guard, Hwf.
  cbn [negb]. rewrite run_try_catch, run_bind.
  destruct (run W (waitForPendingRequest h MAX_ATTEMPTS DELAY_MS) tr0)
    as [[e|[|]] tr1]; simpl; try reflexivity.
  destruct (lookups W (count is_lookup tr1)) as [e|[tx|]]; simpl;
    rewrite <- ?app_assoc; try reflexivity.
  rewrite run_bind. simpl.
  destruct (run W (analyzeTransactionWithAI tx) _) as [[e|narrative] tr2];
    simpl; try reflexivity.
  tally. rewrite !Nat.add_0_r.
  destruct (submissions W (count is_commit tr2)) as [e|txResponse]; simpl;
    rewrite <- ?app_assoc; try reflexivity.
  tally. rewrite !Nat.add_0_r.
  destruct (receipts W (count is_receipt tr2)) as [e|[]]; simpl;
    rewrite <- ?app_assoc; reflexivity.
Qed.

End Handler.

Lemma refusal_of_malformed_hash h :
  (String.length h <> 66%nat -> well_formed h = false)
  /\ (well_formed h = false ->
      forall (W : World) (tr0 : list Call),
        run W (analyze_transaction h) tr0 = (inr invalid_hash, tr0)).
Proof.
  split.
  - intros Hlen. unfold well_formed.
    destruct (JS.isHexString h 32) eqn:E; [|apply andb_false_r].
    apply isHexString_length in E. simpl in E. congruence.
  - intros Hwf W tr0. unfold analyze_transaction.
    now rewrite well_formed_guard, Hwf.
Qed.

(** X8.  For any attempt budget and delay, started after any earlier calls,
    [waitForPendingRequest] returns without throwing; it returns [true]
    exactly when one of the next [maxAttempts] reads shows a pending
    requester; it makes at most [maxAttempts] reads (exactly that many when
    it returns [false]), no more delays than reads, waits [delayMs] per
    delay, and makes no other call. *)
Theorem waiter_respects_any_budget :
  forall (W : World) (txHash : string) (maxAttempts : nat) (delayMs : Z)
         (tr0 : list Call),
  exists (b : bool) (calls : list Call),
    run W (waitForPendingRequest txHash maxAttempts delayMs) tr0
    = (inr b, tr0 ++ calls)
    /\ (b = true <-> request_shows W tr0 maxAttempts)
    /\ (count is_read calls <= maxAttempts)%nat
    /\ (b = false -> count is_read calls = maxAttempts)
    /\ (count is_delay calls <= count is_read calls)%nat
    /\ elapsed calls = delayMs * Z.of_nat (count is_delay calls)
    /\ count is_lookup calls = 0%nat /\ count is_ai_call calls = 0%nat
    /\ count is_commit calls = 0%nat /\ count is_receipt calls = 0%nat.
Proof.
  intros W h M d tr0. destruct (wait_run W h M d tr0) as [b [calls [Hrun [Hw Hb]]]].
  exists b, calls. split; [exact Hrun|]. split; [exact Hb|].
  destruct Hw as [Hle _ _ Hmiss Hdelays Helapsed _ [H1 [H2 [H3 H4]]]].
  repeat split; try assumption.
  rewrite Hdelays. apply zero_reads_le.
Qed.

(** X9.  A hash that is not 66 characters long fails the handler's check, and
    a hash that fails the check is answered with status 400 and the message
    'Invalid transaction hash.' before any call is made: no ledger read, no
    AI call, no commit, no log line. *)
Theorem malformed_hash_is_refused_without_calls :
  forall (txHash : string),
    (String.length txHash <> 66%nat -> well_formed txHash = false)
    /\ (well_formed txHash = false ->
        forall (W : World) (tr0 : list Call),
          run W (analyze_transaction txHash) tr0 = (inr invalid_hash, tr0)).
Proof. exact refusal_of_malformed_hash. Qed.

Lemma malformed_hash_is_refused_without_calls_witness :
  run world_pending (analyze_transaction MoreExamples.short_hash) []
  = (inr invalid_hash, []).
Proof.
  destruct (malformed_hash_is_refused_without_calls MoreExamples.short_hash)
    as [Hlen Hrun].
  apply Hrun. apply Hlen. simpl. lia.
Defined.

(** The calls of a run of the handler on a well-formed hash, in pieces. *)
Lemma analyze_pieces W h tr0 :
  well_formed h = true ->
  exists b cw,
    run W (waitForPendingRequest h MAX_ATTEMPTS DELAY_MS) tr0 = (inr b, tr0 ++ cw)
    /\ Waited W DELAY_MS 1 MAX_ATTEMPTS (count is_read tr0) b cw
    /\ (b = true <-> request_shows W tr0 MAX_ATTEMPTS)
    /\ count is_lookup (tr0 ++ cw) = count is_lookup tr0
    /\ forall tx,
         exists r logs,
           run W (analyzeTransactionWithAI tx)
             ((tr0 ++ cw) ++ [CGetTransaction h;
                              CConsole (LogInfo "Analyzing with AI...")])
           = (r, ((tr0 ++ cw) ++ [CGetTransaction h;
                                  CConsole (LogInfo "Analyzing with AI...")])
                 ++ CChatCompletion tx :: logs)
           /\ forallb is_console logs = true
           /\ (forall text,
                 completes_with (completions W (count is_ai_call tr0)) text ->
                 r = inr (JS.trim text) /\ logs = [])
           /\ count is_commit
                (((tr0 ++ cw) ++ [CGetTransaction h;
                                  CConsole (LogInfo "Analyzing with AI...")])
                 ++ CChatCompletion tx :: logs) = count is_commit tr0
           /\ count is_receipt
                (((tr0 ++ cw) ++ [CGetTransaction h;
                                  CConsole (LogInfo "Analyzing with AI...")])
                 ++ CChatCompletion tx :: logs) = count is_receipt tr0.
Proof.
  intros Hwf.
  destruct (wait_run W h MAX_ATTEMPTS DELAY_MS tr0) as [b [cw [Hrun [Hw Hb]]]].
  exists b, cw. split; [exact Hrun|]. split; [exact Hw|]. split; [exact Hb|].
  destruct Hw as [_ _ _ _ _ _ _ [Wl [Wa [Wc Wr]]]].
  split; [tally; lia|]. intros tx.
  set (tr1 := (tr0 ++ cw) ++ [CGetTransaction h;
                              CConsole (LogInfo "Analyzing with AI...")]).
  destruct (ai_run W tx tr1) as [r [logs [Hai [Hlogs _]]]].
  exists r, logs. split; [exact Hai|]. split; [exact Hlogs|].
  assert (Ha : count is_ai_call tr1 = count is_ai_call tr0)
    by (unfold tr1; tally; lia).
  split.
  - intros text Htext. rewrite <- Ha in Htext.
    rewrite (ai_success W tx tr1 text Htext) in Hai.
    inversion Hai as [[Hr Htr]]. split; [reflexivity|].
    apply app_inv_head in Htr. now inversion Htr.
  - unfold tr1. tally.
    rewrite (console_count is_commit logs), (console_count is_receipt logs)
      by auto.
    split; lia.
Qed.

(** Every answer of the handler is one of five. *)
Lemma analyze_answers :
  forall (W : World) (txHash : string) (tr0 : list Call),
  exists (resp : AnalyzeResponse) (calls : list Call),
    run W (analyze_transaction txHash) tr0 = (inr resp, tr0 ++ calls)
    /\ (resp = invalid_hash \/ resp = no_pending_request
        \/ resp = transaction_not_found \/ (exists e, resp = internal_error e)
        \/ exists narrative txResponse,
             resp = analysis_complete narrative txResponse)
    /\ In (status resp) [200; 400; 404; 500]
    /\ (status resp = 200 ->
        count is_ai_call calls = 1%nat /\ count is_commit calls = 1%nat
        /\ count is_receipt calls = 1%nat
        /\ exists narrative,
             resp_narrative resp = Some narrative
             /\ In (CAddChronicle txHash narrative) calls)
    /\ (status resp <> 200 ->
        resp_narrative resp = None /\ resp_chronicleTxHash resp = None).
Proof.
  intros W h tr0. destruct (well_formed h) eqn:Hwf.
  2:{ exists invalid_hash, []. rewrite app_nil_r.
      rewrite (proj2 (refusal_of_malformed_hash h) Hwf W tr0).
      split; [reflexivity|]. simpl. split; [eauto 8|]. split; [tauto|].
      split; [discriminate|tauto]. }
  rewrite (analyze_step W h tr0 Hwf).
  destruct (analyze_pieces W h tr0 Hwf) as [b [cw [Hrun [Hw [_ [Hl Hai]]]]]].
  rewrite Hrun. destruct Hw as [_ _ _ _ _ _ _ [Wl [Wa [Wc Wr]]]].
  destruct b.
  2:{ eexists _, _. rewrite <- app_assoc. split; [reflexivity|]. simpl.
      split; [eauto 8|]. split; [tauto|]. split; [discriminate|tauto]. }
  rewrite Hl. destruct (lookups W (count is_lookup tr0)) as [e|[tx|]].
  { eexists _, _. rewrite <- app_assoc. split; [reflexivity|]. simpl.
    split; [eauto 8|]. split; [tauto|]. split; [discriminate|tauto]. }
  2:{ eexists _, _. rewrite <- app_assoc. split; [reflexivity|]. simpl.
      split; [eauto 8|]. split; [tauto|]. split; [discriminate|tauto]. }
  destruct (Hai tx) as [r [logs [Hrunai [Hlogs [_ [Hc Hr]]]]]].
  rewrite Hrunai, Hc, Hr.
  assert (La : count is_ai_call logs = 0%nat) by now apply console_count.
  assert (Lc : count is_commit logs = 0%nat) by now apply console_count.
  assert (Lr : count is_receipt logs = 0%nat) by now apply console_count.
  destruct r as [e|narrative].
  { eexists _, _. rewrite <- !app_assoc. split; [reflexivity|]. simpl.
    split; [eauto 8|]. split; [tauto|]. split; [discriminate|tauto]. }
  destruct (submissions W (count is_commit tr0)) as [e|txResponse].
  { eexists _, _. rewrite <- !app_assoc. split; [reflexivity|]. simpl.
    split; [eauto 8|]. split; [tauto|]. split; [discriminate|tauto]. }
  destruct (receipts W (count is_receipt tr0)) as [e|[]].
  { eexists _, _. rewrite <- !app_assoc. split; [reflexivity|]. simpl.
    split; [eauto 8|]. split; [tauto|]. split; [discriminate|tauto]. }
  eexists _, _. rewrite <- !app_assoc. split; [reflexivity|]. simpl.
  split; [do 4 right; now exists narrative, txResponse|].
  split; [tauto|]. split; [|intros H; now contradiction H].
  intros _. tally. rewrite Wa, Wc, Wr, La, Lc, Lr.
  repeat split. exists narrative. split; [reflexivity|].
  apply in_or_app. right. simpl. right. right. right.
  apply in_or_app. right. simpl. tauto.
Qed.


(** X10.  The handler never throws: in every world it answers with status 200,
    400, 404 or 500.  A 200 is given only after exactly one AI call, one
    [addChronicle] call with the narrative it returns, and one awaited
    receipt; every other answer carries neither narrative nor chronicle
    transaction hash. *)
Theorem handler_always_answers :
  forall (W : World) (txHash : string) (tr0 : list Call),
  exists (resp : AnalyzeResponse) (calls : list Call),
    run W (analyze_transaction txHash) tr0 = (inr resp, tr0 ++ calls)
    /\ In (status resp) [200; 400; 404; 500]
    /\ (status resp = 200 ->
        count is_ai_call calls = 1%nat /\ count is_commit calls = 1%nat
        /\ count is_receipt calls = 1%nat
        /\ exists narrative,
             resp_narrative resp = Some narrative
             /\ In (CAddChronicle txHash narrative) calls)
    /\ (status resp <> 200 ->
        resp_narrative resp = None /\ resp_chronicleTxHash resp = None).
Proof.
  intros W h tr0.
  destruct (analyze_answers W h tr0) as [resp [calls [Hrun [_ H]]]].
  now exists resp, calls.
Qed.

(** Whatever the handler asks beyond polling, it asks after a read showed
    the pending request. *)
Lemma analyze_guard W h tr0 :
  exists resp calls,
    run W (analyze_transaction h) tr0 = (inr resp, tr0 ++ calls)
    /\ ((0 < count is_lookup calls + count is_ai_call calls
             + count is_commit calls + count is_receipt calls)%nat ->
        well_formed h = true /\ request_shows W tr0 60).
Proof.
  destruct (Bool.bool_dec (well_formed h) true) as [Hwf|Hwf].
  2:{ apply not_true_is_false in Hwf. exists invalid_hash, [].
      rewrite app_nil_r.
      rewrite (proj2 (refusal_of_malformed_hash h) Hwf W tr0).
      split; [reflexivity|]. unfold count. simpl. lia. }
  rewrite (analyze_step W h tr0 Hwf).
  destruct (analyze_pieces W h tr0 Hwf) as [b [cw [Hrun [Hw [Hb [Hl Hai]]]]]].
  rewrite Hrun. destruct Hw as [_ _ _ _ _ _ _ [Wl [Wa [Wc Wr]]]].
  destruct b.
  2:{ eexists _, _. rewrite <- app_assoc. split; [reflexivity|].
      tally. rewrite Wl, Wa, Wc, Wr. simpl. lia. }
  assert (Hshows : well_formed h = true /\ request_shows W tr0 60)
    by (split; [exact Hwf|now apply Hb]).
  rewrite Hl. destruct (lookups W (count is_lookup tr0)) as [e|[tx|]];
    try (eexists _, _; rewrite <- app_assoc; split; [reflexivity|]; auto; fail).
  destruct (Hai tx) as [r [logs [Hrunai [Hlogs [_ [Hc Hr]]]]]].
  rewrite Hrunai, Hc, Hr.
  destruct r as [e|narrative];
    [eexists _, _; rewrite <- !app_assoc; split; [reflexivity|]; auto|].
  destruct (submissions W (count is_commit tr0)) as [e|txResponse];
    [eexists _, _; rewrite <- !app_assoc; split; [reflexivity|]; auto|].
  destruct (receipts W (count is_receipt tr0)) as [e|[]];
    eexists _, _; rewrite <- !app_assoc; (split; [reflexivity|]); auto.
Qed.

(** X11.  The handler looks the transaction up, calls the narrative service,
    commits or waits for a receipt only for a well-formed hash and after one
    of its (at most 60) reads has shown a pending requester. *)
Theorem no_analysis_without_a_pending_request :
  forall (W : World) (txHash : string) (tr0 : list Call),
  exists (resp : AnalyzeResponse) (calls : list Call),
    run W (analyze_transaction txHash) tr0 = (inr resp, tr0 ++ calls)
    /\ ((0 < count is_lookup calls + count is_ai_call calls
             + count is_commit calls + count is_receipt calls)%nat ->
        well_formed txHash = true /\ request_shows W tr0 60).
Proof. intros W h tr0. apply analyze_guard. Qed.

(** X12.  For a well-formed hash whose pending request shows in none of the next
    60 reads, the handler answers 400 with error
    [PENDING_REQUEST_NOT_FOUND] after exactly 60 reads, at most 120000 ms of
    delays, and no lookup, AI call or commit. *)
Theorem unseen_request_times_out :
  forall (W : World) (txHash : string) (tr0 : list Call),
    well_formed txHash = true ->
    ~ request_shows W tr0 60 ->
    exists calls : list Call,
      run W (analyze_transaction txHash) tr0
      = (inr no_pending_request, tr0 ++ calls)
      /\ count is_read calls = 60%nat
      /\ count is_lookup calls = 0%nat /\ count is_ai_call calls = 0%nat
      /\ count is_commit calls = 0%nat
      /\ 0 <= elapsed calls <= 120000.
Proof.
  intros W h tr0 Hwf Hno. rewrite (analyze_step W h tr0 Hwf).
  destruct (analyze_pieces W h tr0 Hwf) as [b [cw [Hrun [Hw [Hb _]]]]].
  rewrite Hrun. destruct b; [exfalso; apply Hno; now apply Hb|].
  destruct Hw as [_ _ _ Hmiss Hdelays Helapsed _ [Wl [Wa [Wc Wr]]]].
  eexists. rewrite <- app_assoc. split; [reflexivity|].
  tally. rewrite elapsed_app, Wl, Wa, Wc, (Hmiss eq_refl).
  change (elapsed [CConsole (LogError "No pending request found for" h)])
    with 0.
  rewrite Helapsed, Hdelays, (Hmiss eq_refl).
  pose proof (zero_reads_le W MAX_ATTEMPTS (count is_read tr0)) as Hz.
  unfold DELAY_MS, MAX_ATTEMPTS in *.
  repeat split; try reflexivity; lia.
Qed.

Lemma unseen_request_times_out_witness :
  exists calls : list Call,
    run world_reads_fail (analyze_transaction hash1) []
    = (inr no_pending_request, calls)
    /\ count is_read calls = 60%nat /\ count is_ai_call calls = 0%nat.
Proof.
  destruct (unseen_request_times_out world_reads_fail hash1 [] eq_refl)
    as [calls [Hrun [Hr [_ [Ha _]]]]].
  - intros [j [_ Hobs]]. discriminate Hobs.
  - exists calls. now repeat split.
Defined.

(** X13.  Once the request has shown, if [getTransaction] finds nothing the
    handler answers 404, and if it is rejected the handler answers 500 with
    the rejection's message; in both cases after a single lookup and without
    calling the narrative service or [addChronicle]. *)
Theorem lookup_failure_stops_before_the_narrative :
  forall (W : World) (txHash : string) (tr0 : list Call),
    well_formed txHash = true ->
    request_shows W tr0 60 ->
    (forall tx, lookups W (count is_lookup tr0) <> inr (Some tx)) ->
    exists (resp : AnalyzeResponse) (calls : list Call),
      run W (analyze_transaction txHash) tr0 = (inr resp, tr0 ++ calls)
      /\ (lookups W (count is_lookup tr0) = inr None ->
          resp = transaction_not_found)
      /\ (forall e, lookups W (count is_lookup tr0) = inl e ->
                    resp = internal_error e)
      /\ count is_lookup calls = 1%nat
      /\ count is_ai_call calls = 0%nat /\ count is_commit calls = 0%nat.
Proof.
  intros W h tr0 Hwf Hshows Hl. rewrite (analyze_step W h tr0 Hwf).
  destruct (analyze_pieces W h tr0 Hwf) as [b [cw [Hrun [Hw [Hb [Hlk _]]]]]].
  rewrite Hrun. destruct b; [|now rewrite <- Hb in Hshows].
  destruct Hw as [_ _ _ _ _ _ _ [Wl [Wa [Wc Wr]]]]. rewrite Hlk.
  destruct (lookups W (count is_lookup tr0)) as [e|[tx|]];
    [| now contradiction (Hl tx) |];
    eexists _, _; rewrite <- app_assoc; (split; [reflexivity|]);
    tally; rewrite Wl, Wa, Wc; repeat split; try discriminate.
  intros e' H. now inversion H.
Qed.

Lemma lookup_failure_stops_before_the_narrative_witness :
  exists (resp : AnalyzeResponse) (calls : list Call),
    run MoreExamples.world_no_transaction (analyze_transaction hash1) []
    = (inr resp, calls)
    /\ resp = transaction_not_found /\ count is_ai_call calls = 0%nat.
Proof.
  destruct (lookup_failure_stops_before_the_narrative
              MoreExamples.world_no_transaction hash1 [] eq_refl)
    as [resp [calls [Hrun [Hnone [_ [_ [Ha _]]]]]]].
  - exists O. split; [lia|reflexivity].
  - intros tx. discriminate.
  - exists resp, calls. split; [exact Hrun|].
    split; [now apply Hnone|exact Ha].
Defined.

(** X14.  When the request shows, the transaction is found, the completion
    endpoint answers with text at [choices[0].message.content], and the
    submission and its receipt succeed, the handler answers 200 with the
    trimmed text as narrative and the hash of the submission; after polling
    its calls are, in this order, the lookup, the completion call,
    [addChronicle] with the same trimmed text, and the wait for the receipt.
    The text is not checked for being non-empty. *)
Theorem successful_run_commits_the_trimmed_narrative :
  forall (W : World) (txHash : string) (tr0 : list Call)
         (tx : Transaction) (text : string) (txResponse : TransactionResponse),
    well_formed txHash = true ->
    request_shows W tr0 60 ->
    lookups W (count is_lookup tr0) = inr (Some tx) ->
    completes_with (completions W (count is_ai_call tr0)) text ->
    submissions W (count is_commit tr0) = inr txResponse ->
    receipts W (count is_receipt tr0) = inr tt ->
    exists polling : list Call,
      run W (analyze_transaction txHash) tr0
      = (inr (analysis_complete (JS.trim text) txResponse),
         tr0 ++ polling
             ++ [CGetTransaction txHash;
                 CConsole (LogInfo "Analyzing with AI...");
                 CChatCompletion tx;
                 CConsole (LogInfo "Storing chronicle on-chain...");
                 CAddChronicle txHash (JS.trim text);
                 CWaitReceipt txResponse;
                 CConsole (LogInfo "Chronicle stored successfully!")])
      /\ count is_lookup polling = 0%nat /\ count is_ai_call polling = 0%nat
      /\ count is_commit polling = 0%nat /\ count is_receipt polling = 0%nat.
Proof.
  intros W h tr0 tx text txr Hwf Hshows Hlook Htext Hsub Hrec.
  rewrite (analyze_step W h tr0 Hwf).
  destruct (analyze_pieces W h tr0 Hwf) as [b [cw [Hrun [Hw [Hb [Hlk Hai]]]]]].
  rewrite Hrun. destruct b; [|now rewrite <- Hb in Hshows].
  destruct Hw as [_ _ _ _ _ _ _ Hothers]. rewrite Hlk, Hlook.
  destruct (Hai tx) as [r [logs [Hrunai [_ [Hgood [Hc Hr]]]]]].
  destruct (Hgood text Htext) as [-> ->].
  rewrite Hrunai, Hc, Hr, Hsub, Hrec.
  exists cw. rewrite <- !app_assoc. simpl. split; [reflexivity|exact Hothers].
Qed.

(** X14, on a completion whose text comes with a byte order mark, a line feed
    and no-break spaces around it. *)
Lemma successful_run_commits_the_trimmed_narrative_witness :
  exists polling : list Call,
    run MoreExamples.world_padded_completion (analyze_transaction hash1) []
    = (inr (analysis_complete "A transfer." {| tr_hash := "0xc1" |}),
       polling
         ++ [CGetTransaction hash1;
             CConsole (LogInfo "Analyzing with AI...");
             CChatCompletion transfer;
             CConsole (LogInfo "Storing chronicle on-chain...");
             CAddChronicle hash1 "A transfer.";
             CWaitReceipt {| tr_hash := "0xc1" |};
             CConsole (LogInfo "Chronicle stored successfully!")]).
Proof.
  destruct (successful_run_commits_the_trimmed_narrative
              MoreExamples.world_padded_completion hash1 [] transfer
              (MoreExamples.byte_order_mark ++ MoreExamples.no_break_space
               ++ "A transfer." ++ MoreExamples.no_break_space
               ++ String "010" MoreExamples.no_break_space)
              {| tr_hash := "0xc1" |} eq_refl)
    as [polling [Hrun _]].
  - exists 0%nat. split; [lia|reflexivity].
  - reflexivity.
  - eexists _, _, _. repeat split.
  - reflexivity.
  - reflexivity.
  - exists polling. exact Hrun.
Defined.

End OrchestratorMore.

(* ================================================================== *)
(** ** The status endpoint *)
(* ================================================================== *)
Module StatusCheckFacts.
Import Effects Effects.Notations StatusCheck Responses.

Lemma serve_malformed G h :
  well_formed h = false ->
  serve G h = (inr (Status400 "Invalid transaction hash."), []).
Proof.
  intros Hwf. unfold serve, check_chronicle_status.
  rewrite OrchestratorMore.well_formed_guard, Hwf. reflexivity.
Qed.

Lemma chronicle_flag c :
  flag_truthy (and_then c (Nat.ltb 0 (String.length c))) = JS.truthy c.
Proof. destruct c; reflexivity. Qed.

Lemma pending_flag r :
  flag_truthy (and_then r (negb (String.eqb r Orchestrator.ZeroAddress)))
  = Orchestrator.is_pending r.
Proof.
  unfold and_then, flag_truthy, Orchestrator.is_pending.
  destruct (JS.truthy r) eqn:E; [reflexivity|exact E].
Qed.

Lemma serve_answers G h c r f :
  well_formed h = true ->
  chronicleOf G h = inr c -> pendingOf G h = inr r -> fee G = inr f ->
  serve G h
  = (inr (Status200
            {| chronicleExists := and_then c (Nat.ltb 0 (String.length c));
               requestPending :=
                 and_then r (negb (String.eqb r Orchestrator.ZeroAddress));
               chronicle := if JS.truthy c then Some c else None;
               requester := if Orchestrator.is_pending r then Some r else None;
               submissionFee := toString f |}),
     [ReadChronicle h; ReadPending h; ReadFee]).
Proof.
  intros Hwf Hc Hr Hf. unfold serve, check_chronicle_status.
  rewrite OrchestratorMore.well_formed_guard, Hwf. cbn [negb].
  cbn [Interp.exec try_catch bind await]. unfold answer at 1. rewrite Hc.
  cbn [Interp.exec try_catch bind await]. unfold answer at 1. rewrite Hr.
  cbn [Interp.exec try_catch bind await]. unfold answer at 1. rewrite Hf.
  cbn [Interp.exec try_catch bind await app].
  rewrite chronicle_flag, pending_flag. reflexivity.
Qed.

Lemma serve_failures G h :
  well_formed h = true ->
  (forall e, chronicleOf G h = inl e ->
     serve G h = (inr (Status500 "Failed to check chronicle status" e),
                  [ReadChronicle h; Logged e]))
  /\ (forall c e, chronicleOf G h = inr c -> pendingOf G h = inl e ->
        serve G h = (inr (Status500 "Failed to check chronicle status" e),
                     [ReadChronicle h; ReadPending h; Logged e]))
  /\ (forall c r e,
        chronicleOf G h = inr c -> pendingOf G h = inr r -> fee G = inl e ->
        serve G h = (inr (Status500 "Failed to check chronicle status" e),
                     [ReadChronicle h; ReadPending h; ReadFee; Logged e])).
Proof.
  intros Hwf. unfold serve, check_chronicle_status.
  rewrite OrchestratorMore.well_formed_guard, Hwf. cbn [negb].
  split; [|split].
  - intros e Hc. cbn [Interp.exec try_catch bind await]. unfold answer at 1.
    now rewrite Hc.
  - intros c e Hc Hr. cbn [Interp.exec try_catch bind await].
    unfold answer at 1. rewrite Hc.
    cbn [Interp.exec try_catch bind await]. unfold answer at 1. now rewrite Hr.
  - intros c r e Hc Hr Hf. cbn [Interp.exec try_catch bind await].
    unfold answer at 1. rewrite Hc.
    cbn [Interp.exec try_catch bind await]. unfold answer at 1. rewrite Hr.
    cbn [Interp.exec try_catch bind await]. unfold answer at 1. now rewrite Hf.
Qed.

(** The endpoint never throws. *)
Lemma serve_total G h : exists resp reads, serve G h = (inr resp, reads).
Proof.
  destruct (well_formed h) eqn:Hwf;
    [|eexists _, _; now apply serve_malformed].
  destruct (serve_failures G h Hwf) as [H1 [H2 H3]].
  destruct (chronicleOf G h) as [e|c] eqn:Hc; [eexists _, _; now apply H1|].
  destruct (pendingOf G h) as [e|r] eqn:Hr;
    [eexists _, _; now apply (H2 c)|].
  destruct (fee G) as [e|f] eqn:Hf; [eexists _, _; now apply (H3 c r)|].
  eexists _, _. now apply (serve_answers G h c r f).
Qed.

End StatusCheckFacts.

(* ================================================================== *)
(** ** The page *)
(* ================================================================== *)
Module PageFacts.
Import Effects Effects.Notations Page Responses.

(** Run the straight-line part of a page program. *)
Ltac page_step :=
  cbn [Interp.exec bind perform try_catch try_finally await page_answer
       client_answer snd negb isLoading hasAnalyzed status narrative analyses
       checks writes refreshes errors].

(** [handleAnalyze] when the wallet or the hash is missing. *)
Lemma handle_without_inputs B address h fee s :
  (forall a, address = Some a -> JS.truthy a = false)
  \/ JS.length h <> 66%nat ->
  exists text,
    text <> EmptyString
    /\ after_handleAnalyze B address h fee s
       = {| hasAnalyzed := hasAnalyzed s; isLoading := isLoading s;
            status := status s; narrative := Some text;
            analyses := analyses s; checks := checks s; writes := writes s;
            refreshes := refreshes s; errors := errors s |}.
Proof.
  intros H. unfold after_handleAnalyze, handleAnalyze.
  destruct address as [a|]; [destruct (JS.truthy a) eqn:Ha|]; cbn [negb];
    try (eexists; split; [|reflexivity]; discriminate).
  destruct H as [H|H]; [specialize (H a eq_refl); congruence|].
  destruct (Nat.eqb_spec (JS.length h) 66) as [E|E]; [contradiction|].
  rewrite orb_true_r. eexists; split; [|reflexivity]; discriminate.
Qed.

(** [handleAnalyze] when both are there: the check is made, and what
    follows depends on its answer only. *)
Lemma handle_with_inputs B a h fee s :
  JS.truthy a = true -> JS.length h = 66%nat ->
  after_handleAnalyze B (Some a) h fee s
  = match check_status B h with
    | inl e =>
        {| hasAnalyzed := false; isLoading := false; status := EmptyString;
           narrative := Some "Failed to submit request to contract.";
           analyses := analyses s; checks := checks s ++ [h];
           writes := writes s; refreshes := refreshes s;
           errors := errors s ++ [e] |}
    | inr data =>
        if says_exists data then
          {| hasAnalyzed := false; isLoading := false;
             status := "Chronicle retrieved from blockchain (already exists)";
             narrative := chronicle_field data;
             analyses := analyses s; checks := checks s ++ [h];
             writes := writes s; refreshes := refreshes s;
             errors := errors s |}
        else if says_pending data then
          {| hasAnalyzed := false; isLoading := false;
             status := "Request already pending";
             narrative := Some
               "A request is already pending for this transaction. Please wait for AI analysis.";
             analyses := analyses s; checks := checks s ++ [h];
             writes := writes s; refreshes := refreshes s;
             errors := errors s |}
        else
          {| hasAnalyzed := false; isLoading := true;
             status := "Requesting chronicle from contract...";
             narrative := Some EmptyString;
             analyses := analyses s; checks := checks s ++ [h];
             writes := writes s ++ [("requestChronicle", h, fee)];
             refreshes := refreshes s; errors := errors s |}
    end.
Proof.
  intros Ha Hlen. unfold after_handleAnalyze, handleAnalyze.
  rewrite Ha. cbn [negb].
  assert (Ht : JS.truthy h = true) by (destruct h; [discriminate|reflexivity]).
  rewrite Ht, Hlen. cbn [negb orb Nat.eqb].
  page_step. destruct (check_status B h) as [e|data]; page_step;
    [reflexivity|].
  destruct (says_exists data); page_step; [reflexivity|].
  destruct (says_pending data); page_step; reflexivity.
Qed.

(** [data.error === 'PENDING_REQUEST_NOT_FOUND'], as a test. *)
Lemma pending_error_match {A : Type} (err : string) (P Q : A) :
  match err with
  | "PENDING_REQUEST_NOT_FOUND" => P
  | _ => Q
  end = if String.eqb err "PENDING_REQUEST_NOT_FOUND" then P else Q.
Proof.
  repeat (destruct err as [|[[] [] [] [] [] [] [] []] err]; try reflexivity).
Qed.

(** [analyzeWithBackend] from a render that has not analyzed yet. *)
Lemma analyze_with_backend B h s :
  hasAnalyzed s = false ->
  after_analyzeWithBackend B h s
  = match analyze_transaction B h with
    | inl e =>
        {| hasAnalyzed := true; isLoading := false;
           status := "Error during analysis";
           narrative :=
             Some (if JS.truthy e then e
                   else "An error occurred during analysis.");
           analyses := analyses s ++ [h]; checks := checks s;
           writes := writes s; refreshes := refreshes s;
           errors := errors s ++ [e] |}
    | inr data =>
        if Client.response_ok data then
          {| hasAnalyzed := true; isLoading := false;
             status := "Analysis complete!";
             narrative := Orchestrator.resp_narrative data;
             analyses := analyses s ++ [h]; checks := checks s;
             writes := writes s; refreshes := refreshes s ++ [2000];
             errors := errors s |}
        else
          let e :=
            match Orchestrator.resp_error data with
            | Some "PENDING_REQUEST_NOT_FOUND" =>
                "Your chronicle request transaction was not confirmed. Please try again."
            | _ =>
                if JS.truthy (Orchestrator.resp_message data)
                then Orchestrator.resp_message data
                else "Failed to analyze transaction"
            end in
          {| hasAnalyzed := true; isLoading := false;
             status := "Error during analysis";
             narrative :=
               Some (if JS.truthy e then e
                     else "An error occurred during analysis.");
             analyses := analyses s ++ [h]; checks := checks s;
             writes := writes s; refreshes := refreshes s;
             errors := errors s ++ [e] |}
    end.
Proof.
  intros Hs. unfold after_analyzeWithBackend, Client.analyzeWithBackend.
  rewrite Hs. page_step.
  destruct (analyze_transaction B h) as [e|data]; page_step; [reflexivity|].
  destruct (Client.response_ok data); page_step; [reflexivity|].
  destruct (Orchestrator.resp_error data) as [err|]; page_step; [|reflexivity].
  rewrite !pending_error_match.
  destruct (String.eqb err "PENDING_REQUEST_NOT_FOUND"); page_step;
    reflexivity.
Qed.

End PageFacts.

(* ================================================================== *)
(** ** The status endpoint and the page: properties *)
(* ================================================================== *)
Module PageSpec.
Import Effects Effects.Notations Page Responses StatusCheck StatusCheckFacts
  PageFacts Examples MoreExamples.

(** X15.  For a well-formed hash and a registry whose three reads succeed, the
    status endpoint answers 200 after reading the chronicle, the pending
    requester and the fee, in this order.  [chronicleExists] is truthy
    exactly when the stored chronicle is non-empty (it is the empty string,
    not [false], when there is none) and [chronicle] is then that text, else
    null; [requestPending] is truthy exactly when the pending requester is
    not the zero address and [requester] is then that address, else null;
    the fee is the contract's, in decimal. *)
Theorem status_answer_reports_the_registry :
  forall (G : Registry) (txHash c r : string) (f : Z),
    well_formed txHash = true ->
    chronicleOf G txHash = inr c -> pendingOf G txHash = inr r ->
    fee G = inr f ->
    exists body,
      serve G txHash
      = (inr (Status200 body),
         [ReadChronicle txHash; ReadPending txHash; ReadFee])
      /\ flag_truthy (chronicleExists body) = JS.truthy c
      /\ (c = EmptyString -> chronicleExists body = FlagString EmptyString)
      /\ chronicle body = (if JS.truthy c then Some c else None)
      /\ flag_truthy (requestPending body) = Orchestrator.is_pending r
      /\ requester body = (if Orchestrator.is_pending r then Some r else None)
      /\ submissionFee body = toString f.
Proof.
  intros G h c r f Hwf Hc Hr Hf.
  rewrite (serve_answers G h c r f Hwf Hc Hr Hf). eexists.
  split; [reflexivity|].
  cbn [chronicleExists requestPending chronicle requester submissionFee].
  rewrite chronicle_flag, pending_flag. repeat split. now intros ->.
Qed.

Lemma status_answer_reports_the_registry_witness :
  exists body,
    serve registry_pending hash1
    = (inr (Status200 body), [ReadChronicle hash1; ReadPending hash1; ReadFee])
    /\ chronicle body = None /\ requester body = Some requester1
    /\ submissionFee body = "1000000000000000".
Proof.
  destruct (status_answer_reports_the_registry registry_pending hash1
              EmptyString requester1 1000000000000000
              eq_refl eq_refl eq_refl eq_refl)
    as [body [Hrun [_ [_ [Hc [_ [Hr Hf]]]]]]].
  exists body. now repeat split.
Defined.

(** X16.  The status endpoint answers 400 without reading anything for a hash
    that fails the check; for a well-formed hash the first rejected read
    (chronicle, then pending requester, then fee) ends the reads and gives a
    500 with that rejection's message. *)
Theorem status_check_stops_at_the_first_failure :
  forall (G : Registry) (txHash : string),
    (well_formed txHash = false ->
     serve G txHash = (inr (Status400 "Invalid transaction hash."), []))
    /\ (well_formed txHash = true ->
        (forall e, chronicleOf G txHash = inl e ->
           serve G txHash
           = (inr (Status500 "Failed to check chronicle status" e),
              [ReadChronicle txHash; Logged e]))
        /\ (forall c e,
              chronicleOf G txHash = inr c -> pendingOf G txHash = inl e ->
              serve G txHash
              = (inr (Status500 "Failed to check chronicle status" e),
                 [ReadChronicle txHash; ReadPending txHash; Logged e]))
        /\ (forall c r e,
              chronicleOf G txHash = inr c -> pendingOf G txHash = inr r ->
              fee G = inl e ->
              serve G txHash
              = (inr (Status500 "Failed to check chronicle status" e),
                 [ReadChronicle txHash; ReadPending txHash; ReadFee;
                  Logged e]))).
Proof.
  intros G h. split; [apply serve_malformed|apply serve_failures].
Qed.

Lemma status_check_stops_at_the_first_failure_witness :
  serve registry_fee_fails hash1
  = (inr (Status500 "Failed to check chronicle status" "missing revert data"),
     [ReadChronicle hash1; ReadPending hash1; ReadFee;
      Logged "missing revert data"]).
Proof.
  destruct (status_check_stops_at_the_first_failure registry_fee_fails hash1)
    as [_ H]. destruct (H eq_refl) as [_ [_ H3]].
  now apply (H3 EmptyString Orchestrator.ZeroAddress).
Defined.

(** X17.  Without a connected wallet, or with a hash that is not 66 UTF-16
    code units long, [handleAnalyze] only shows a message: it makes no status
    check, no contract write and no analysis request, and leaves the loading
    flag, the analyzed flag and the status line as they were. *)
Theorem handleAnalyze_needs_wallet_and_hash :
  forall (B : Backend) (address : option string) (txHash : string)
         (fee : option Z) (s : State),
    (forall a, address = Some a -> JS.truthy a = false)
    \/ JS.length txHash <> 66%nat ->
    let s' := after_handleAnalyze B address txHash fee s in
    checks s' = checks s /\ writes s' = writes s /\ analyses s' = analyses s
    /\ isLoading s' = isLoading s /\ hasAnalyzed s' = hasAnalyzed s
    /\ status s' = status s
    /\ exists text, narrative s' = Some text /\ text <> EmptyString.
Proof.
  intros B address h fee s H.
  destruct (handle_without_inputs B address h fee s H) as [text [Ht E]].
  cbv zeta. rewrite E. cbn. repeat split. now exists text.
Qed.

(** X17 without a wallet, with a hash of 64 characters, and with a hash of 66
    bytes that is 65 code units long. *)
Lemma handleAnalyze_needs_wallet_and_hash_witness :
  writes (after_handleAnalyze (backend_of registry_pending world_pending)
            None hash1 (Some 1000000000000000) initial) = []
  /\ checks (after_handleAnalyze (backend_of registry_pending world_pending)
               None hash1 (Some 1000000000000000) initial) = []
  /\ writes (after_handleAnalyze (backend_of registry_empty world_pending)
               (Some requester1) short_hash (Some 1000000000000000) initial)
     = []
  /\ String.length hash_65_units = 66%nat
  /\ writes (after_handleAnalyze (backend_of registry_empty world_pending)
               (Some requester1) hash_65_units (Some 1000000000000000)
               initial) = []
  /\ checks (after_handleAnalyze (backend_of registry_empty world_pending)
               (Some requester1) hash_65_units (Some 1000000000000000)
               initial) = [].
Proof.
  destruct (handleAnalyze_needs_wallet_and_hash
              (backend_of registry_pending world_pending) None hash1
              (Some 1000000000000000) initial)
    as [H1 [H2 _]].
  { left. intros a H. discriminate H. }
  destruct (handleAnalyze_needs_wallet_and_hash
              (backend_of registry_empty world_pending) (Some requester1)
              short_hash (Some 1000000000000000) initial)
    as [_ [H3 _]].
  { right. vm_compute. discriminate. }
  destruct (handleAnalyze_needs_wallet_and_hash
              (backend_of registry_empty world_pending) (Some requester1)
              hash_65_units (Some 1000000000000000) initial)
    as [H4 [H5 _]].
  { right. vm_compute. discriminate. }
  split; [exact H2|]. split; [exact H1|]. split; [exact H3|].
  split; [reflexivity|]. split; [exact H5|exact H4].
Defined.

(** X18.  With a wallet and a well-formed hash, against the status endpoint on
    a registry whose reads succeed, [handleAnalyze] makes one status check
    and resets the analyzed flag; it shows the stored chronicle and writes
    nothing when one exists, writes nothing when a request is pending, and
    otherwise sends exactly one [requestChronicle] write for that hash with
    the fee it holds, staying in the loading state. *)
Theorem page_requests_only_what_is_missing :
  forall (G : Registry) (W : Orchestrator.World) (a txHash c r : string)
         (f : Z) (fee : option Z) (s : State),
    JS.truthy a = true -> well_formed txHash = true ->
    chronicleOf G txHash = inr c -> pendingOf G txHash = inr r ->
    StatusCheck.fee G = inr f ->
    let s' := after_handleAnalyze (backend_of G W) (Some a) txHash fee s in
    checks s' = checks s ++ [txHash]
    /\ analyses s' = analyses s /\ hasAnalyzed s' = false
    /\ (c <> EmptyString ->
        writes s' = writes s /\ narrative s' = Some c /\ isLoading s' = false)
    /\ (c = EmptyString -> Orchestrator.is_pending r = true ->
        writes s' = writes s /\ isLoading s' = false
        /\ status s' = "Request already pending")
    /\ (c = EmptyString -> Orchestrator.is_pending r = false ->
        writes s' = writes s ++ [("requestChronicle", txHash, fee)]
        /\ isLoading s' = true).
Proof.
  intros G W a h c r f fee s Ha Hwf Hc Hr Hf. cbv zeta.
  assert (Hlen : JS.length h = 66%nat).
  { unfold well_formed in Hwf. apply andb_prop in Hwf. destruct Hwf as [_ Hx].
    now apply JSFacts.isHexString_units in Hx. }
  rewrite (handle_with_inputs _ a h fee s Ha Hlen).
  cbn [check_status backend_of]. rewrite (serve_answers G h c r f Hwf Hc Hr Hf).
  cbn [fst says_exists says_pending chronicle_field chronicleExists
       requestPending chronicle].
  rewrite chronicle_flag, pending_flag.
  destruct c as [|ch c'].
  - cbn [JS.truthy String.eqb negb]. destruct (Orchestrator.is_pending r);
      cbn; repeat split; try congruence; try discriminate.
  - cbn. repeat split; try congruence; try discriminate.
Qed.

Lemma page_requests_only_what_is_missing_witness :
  writes (after_handleAnalyze (backend_of registry_empty world_pending)
            (Some requester1) hash1 (Some 1000000000000000) initial)
  = [("requestChronicle", hash1, Some 1000000000000000)]
  /\ writes (after_handleAnalyze (backend_of registry_pending world_pending)
               (Some requester1) hash1 (Some 1000000000000000) initial)
     = [].
Proof.
  split.
  - destruct (page_requests_only_what_is_missing registry_empty world_pending
                requester1 hash1 EmptyString Orchestrator.ZeroAddress
                1000000000000000 (Some 1000000000000000) initial
                eq_refl eq_refl eq_refl eq_refl eq_refl)
      as [_ [_ [_ [_ [_ H]]]]].
    now destruct (H eq_refl eq_refl).
  - destruct (page_requests_only_what_is_missing registry_pending world_pending
                requester1 hash1 EmptyString requester1
                1000000000000000 (Some 1000000000000000) initial
                eq_refl eq_refl eq_refl eq_refl eq_refl)
      as [_ [_ [_ [_ [H _]]]]].
    now destruct (H eq_refl eq_refl).
Defined.

(** A status endpoint that does not answer 200 answers 400 or 500. *)
Lemma serve_error G h :
  well_formed h = false
  \/ (exists e, chronicleOf G h = inl e) \/ (exists e, pendingOf G h = inl e)
  \/ (exists e, fee G = inl e) ->
  exists data,
    fst (serve G h) = inr data
    /\ says_exists data = false /\ says_pending data = false.
Proof.
  intros H. destruct (well_formed h) eqn:Hwf.
  2:{ rewrite (serve_malformed G h Hwf). now eexists. }
  destruct H as [H|H]; [discriminate|].
  destruct (serve_failures G h Hwf) as [H1 [H2 H3]].
  destruct (chronicleOf G h) as [e|c] eqn:Hc;
    [rewrite (H1 e eq_refl); now eexists|].
  destruct (pendingOf G h) as [e|r] eqn:Hr;
    [rewrite (H2 c e eq_refl eq_refl); now eexists|].
  destruct (fee G) as [e|f] eqn:Hf;
    [rewrite (H3 c r e eq_refl eq_refl eq_refl); now eexists|].
  destruct H as [[e H]|[[e H]|[e H]]]; discriminate.
Qed.

(** X19.  [handleAnalyze] does not look at the status of the status check's
    answer: when the endpoint answers 400 (a hash of 66 UTF-16 code units
    that is not hexadecimal) or 500 (a rejected registry read), the page
    still sends the [requestChronicle] write. *)
Theorem failed_status_check_still_requests :
  forall (G : Registry) (W : Orchestrator.World) (a txHash : string)
         (fee : option Z) (s : State),
    JS.truthy a = true -> JS.length txHash = 66%nat ->
    well_formed txHash = false
    \/ (exists e, chronicleOf G txHash = inl e)
    \/ (exists e, pendingOf G txHash = inl e)
    \/ (exists e, StatusCheck.fee G = inl e) ->
    let s' := after_handleAnalyze (backend_of G W) (Some a) txHash fee s in
    writes s' = writes s ++ [("requestChronicle", txHash, fee)]
    /\ isLoading s' = true /\ errors s' = errors s.
Proof.
  intros G W a h fee s Ha Hlen H. cbv zeta.
  rewrite (handle_with_inputs _ a h fee s Ha Hlen).
  cbn [check_status backend_of].
  destruct (serve_error G h H) as [data [-> [-> ->]]]. now repeat split.
Qed.

(** X19 on a registry whose fee cannot be read, on 66 characters that are not
    hexadecimal, and on a hash of 68 bytes that is 66 code units long. *)
Lemma failed_status_check_still_requests_witness :
  writes (after_handleAnalyze (backend_of registry_fee_fails world_pending)
            (Some requester1) hash1 None initial)
  = [("requestChronicle", hash1, None)]
  /\ writes (after_handleAnalyze (backend_of registry_pending world_pending)
               (Some requester1) not_hex None initial)
     = [("requestChronicle", not_hex, None)]
  /\ String.length hash_66_units = 68%nat
  /\ writes (after_handleAnalyze (backend_of registry_pending world_pending)
               (Some requester1) hash_66_units None initial)
     = [("requestChronicle", hash_66_units, None)].
Proof.
  split; [|split; [|split; [reflexivity|]]].
  - apply (failed_status_check_still_requests registry_fee_fails world_pending
             requester1 hash1 None initial); try reflexivity.
    right. right. right. now eexists.
  - apply (failed_status_check_still_requests registry_pending world_pending
             requester1 not_hex None initial); try reflexivity.
    left. reflexivity.
  - apply (failed_status_check_still_requests registry_pending world_pending
             requester1 hash_66_units None initial); try reflexivity.
    left. reflexivity.
Defined.

(** X20.  [analyzeWithBackend] called from a render that saw [hasAnalyzed] set
    leaves the page as it is; called from one that saw it unset, it sets the
    flag, posts exactly one analysis request, makes no status check and no
    contract write, and ends with the loading flag cleared and the status
    line 'Analysis complete!' or 'Error during analysis', whatever the
    server answers, a rejected request included. *)
Theorem analyzeWithBackend_posts_once_and_stops_loading :
  forall (B : Backend) (txHash : string) (s : State),
    let s' := after_analyzeWithBackend B txHash s in
    (hasAnalyzed s = true -> s' = s)
    /\ (hasAnalyzed s = false ->
        hasAnalyzed s' = true /\ isLoading s' = false
        /\ analyses s' = analyses s ++ [txHash]
        /\ checks s' = checks s /\ writes s' = writes s
        /\ (status s' = "Analysis complete!"
            \/ status s' = "Error during analysis")).
Proof.
  intros B h s. cbv zeta. split.
  - intros Hs. unfold after_analyzeWithBackend. now rewrite Hs.
  - intros Hs. rewrite (analyze_with_backend B h s Hs).
    destruct (analyze_transaction B h) as [e|data]; [cbn; tauto|].
    destruct (Client.response_ok data); cbn; tauto.
Qed.

Lemma analyzeWithBackend_posts_once_and_stops_loading_witness :
  analyses (after_analyzeWithBackend
              (backend_of registry_pending world_pending) hash1 initial)
  = [hash1]
  /\ isLoading (after_analyzeWithBackend
                  (backend_of registry_pending world_pending) hash1 initial)
     = false.
Proof.
  destruct (analyzeWithBackend_posts_once_and_stops_loading
              (backend_of registry_pending world_pending) hash1 initial)
    as [_ H].
  destruct (H eq_refl) as [_ [H1 [H2 _]]]. split; [exact H2|exact H1].
Defined.

(** X21.  End to end, the page after [analyzeWithBackend] against the handler run
    in any world: on success it shows the narrative and schedules the
    refresh after 2000 ms; on a timed-out wait, a missing transaction or a
    malformed hash it shows the matching message; on an internal error it
    shows the fixed message 'An internal server error occurred.' (never the
    error's detail, unless that detail is the timeout code itself); every
    answer other than 200 ends with the status line 'Error during
    analysis' and no refresh. *)
Theorem page_shows_the_outcome_of_the_handler :
  forall (G : Registry) (W : Orchestrator.World) (txHash : string) (s : State),
    hasAnalyzed s = false ->
    let s' := after_analyzeWithBackend (backend_of G W) txHash s in
    exists resp,
      fst (Orchestrator.run W (Orchestrator.analyze_transaction txHash) [])
      = inr resp
      /\ (forall n t, resp = analysis_complete n t ->
            narrative s' = Some n /\ status s' = "Analysis complete!"
            /\ refreshes s' = refreshes s ++ [2000])
      /\ (resp = no_pending_request ->
          narrative s'
          = Some "Your chronicle request transaction was not confirmed. Please try again.")
      /\ (resp = transaction_not_found ->
          narrative s' = Some "Transaction not found on Somnia network.")
      /\ (resp = invalid_hash -> narrative s' = Some "Invalid transaction hash.")
      /\ (forall e, resp = Orchestrator.internal_error e ->
            e <> "PENDING_REQUEST_NOT_FOUND" ->
            narrative s' = Some "An internal server error occurred.")
      /\ (Orchestrator.status resp <> 200 ->
          status s' = "Error during analysis"
          /\ refreshes s' = refreshes s).
Proof.
  intros G W h s Hs. cbv zeta.
  destruct (OrchestratorMore.analyze_answers W h []) as [resp [calls [Hrun [Hform _]]]].
  exists resp. split; [now rewrite Hrun|].
  rewrite (analyze_with_backend _ h s Hs). cbn [analyze_transaction backend_of].
  rewrite Hrun. cbn [fst].
  destruct Hform as [->|[->|[->|[[e ->]|[n [t ->]]]]]]; cbn;
    repeat split; try discriminate; try congruence; try tauto.
  - intros e' H Hne. inversion H; subst e'. rewrite pending_error_match.
    destruct (String.eqb_spec e "PENDING_REQUEST_NOT_FOUND");
      [contradiction|reflexivity].
  - match goal with
    | H : analysis_complete _ _ = analysis_complete _ _ |- _ =>
        now inversion H
    end.
Qed.

Lemma page_shows_the_outcome_of_the_handler_witness :
  narrative (after_analyzeWithBackend
               (backend_of registry_pending world_commit_reverts) hash1 initial)
  = Some "An internal server error occurred.".
Proof.
  destruct (page_shows_the_outcome_of_the_handler registry_pending
              world_commit_reverts hash1 initial eq_refl)
    as [resp [Hrun [_ [_ [_ [_ [Herr _]]]]]]].
  apply (Herr "execution reverted"); [|discriminate].
  vm_compute in Hrun. now inversion Hrun.
Defined.

End PageSpec.
